(** * Symbolic AXP explainer for boosted trees: model and verification

    A shallow embedding of [CatBoostSymbolicExplainer] and of the legacy
    [CatBoostAXPExplainer] aggregator from
    [graft-loss/cohort_analysis/ffa_analysis/catboost_axp_explainer2.py].

    Python objects are modelled as follows.
    - [dict] and [set] : stdpp's [gmap] and [gset];
    - a [list] appended to in place : a Rocq [list], extended on the right;
    - the instance attributes of the explainer : the record [explainer],
      threaded explicitly through every method that mutates [self];
    - raised exceptions : the constructor [Raise] of [result], or, for
      methods that mutate [self] before raising, a pair of the state
      reached and the pending exception;
    - JSON numbers and feature values : a type [num] with the operations
      of the class [Num], the two comparisons the code uses among them, so
      that every statement holds for whatever [<=] and [>] do on the host
      numbers (floats included);
    - the third-party hitting-set solver : the class [Hitman]. *)

From Stdlib Require Import QArith Qcanon.
From Stdlib Require OrderedTypeEx.
From stdpp Require Import gmap strings list fin_maps sorting pretty.

#[local] Set Warnings "-clear-no-such-hyp".
Set Default Proof Using "Type".

Close Scope Qc_scope.
Close Scope Q_scope.

(** * The model *)

(** ** Exceptions *)

(** The four explicit [raise ValueError(...)] sites of the explainer, and
    the [ValueError] of [range] for a zero step. *)
Inductive value_error :=
  | oblivious_trees_rejected
  | non_oblivious_trees_missing
  | predicted_class_missing
  | predictions_missing
  | range_step_zero.

(** The exceptions that the modelled code can raise: its own
    [ValueError]s, and the [KeyError], [IndexError] and [TypeError] of
    the interpreter (missing key, index out of range, missing argument). *)
Inductive exn :=
  | ValueError (why : value_error)
  | KeyError
  | IndexError
  | TypeError.

Inductive result (A : Type) :=
  | Ok (a : A)
  | Raise (e : exn).
Arguments Ok {A} a.
Arguments Raise {A} e.

#[global] Instance value_error_eq_dec : EqDecision value_error.
Proof. solve_decision. Defined.
#[global] Instance exn_eq_dec : EqDecision exn.
Proof. solve_decision. Defined.
#[global] Instance result_eq_dec {A} `{EqDecision A} : EqDecision (result A).
Proof. solve_decision. Defined.

#[global] Instance result_ret : MRet result := fun A a => Ok a.
#[global] Instance result_bind : MBind result := fun A B k r =>
  match r with
  | Ok a => k a
  | Raise e => Raise e
  end.

(** [[f(x) for x in l]] for an [f] that may raise. *)
Fixpoint rmap {A B} (f : A -> result B) (l : list A) : result (list B) :=
  match l with
  | [] => Ok []
  | x :: l' => y ← f x; ys ← rmap f l'; Ok (y :: ys)
  end.

(** A [for] loop that updates an accumulator and may raise. *)
Fixpoint rfoldl {A B} (f : B -> A -> result B) (b : B) (l : list A)
    : result B :=
  match l with
  | [] => Ok b
  | x :: l' => b' ← f b x; rfoldl f b' l'
  end.

(** Python's [all(f(x) for x in l)] over a generator: evaluation stops
    at the first false item, and a raising item propagates. *)
Fixpoint py_all {A} (f : A -> result bool) (l : list A) : result bool :=
  match l with
  | [] => Ok true
  | x :: l' =>
      match f x with
      | Raise e => Raise e
      | Ok false => Ok false
      | Ok true => py_all f l'
      end
  end.

(** ** Hitting sets *)

(** A literal set [h] hits a clause when they share a literal. *)
Definition hits (h clause : list nat) : Prop :=
  ∃ lit, lit ∈ h ∧ lit ∈ clause.

Definition hitting_set (h : list nat) (clauses : list (list nat)) : Prop :=
  Forall (hits h) clauses.

(** Inclusion-minimality: no strict subset of [h] is a hitting set. *)
Definition minimal_hitting_set (h : list nat) (clauses : list (list nat))
    : Prop :=
  hitting_set h clauses ∧
  ∀ h', h' ⊆ h → ¬ h ⊆ h' → ¬ hitting_set h' clauses.

(** Modelled from the spec: [pysat.examples.hitman.Hitman], the
    third-party solver behind [_compute_axp] and [_enumerate_axps], is not
    part of the sources.  It is taken as an oracle with the contract of
    sections 4.3 and 9 of the specification: [hitman_get cs] stands for
    [h = Hitman(); for c in cs: h.hit(c); h.get()], which answers [None]
    when nothing hits every set and otherwise an inclusion-minimal hitting
    set; [hitman_enumerate cs] stands for [list(h.enumerate())], on which
    nothing is assumed. *)
Class Hitman := {
  hitman_get : list (list nat) → option (list nat);
  hitman_enumerate : list (list nat) → list (list nat);
  hitman_get_minimal : ∀ cs h,
    hitman_get cs = Some h → minimal_hitting_set h cs;
  hitman_get_total : ∀ cs,
    Forall (λ c, c ≠ []) cs → is_Some (hitman_get cs)
}.

(** A reference solver that meets the contract: start from all literals
    and drop each one whose removal still leaves a hitting set. *)
Definition hitsb (h clause : list nat) : bool :=
  existsb (λ lit, bool_decide (lit ∈ h)) clause.

Definition hitting_setb (h : list nat) (clauses : list (list nat)) : bool :=
  forallb (hitsb h) clauses.

Fixpoint shrink (clauses : list (list nat)) (todo keep : list nat)
    : list nat :=
  match todo with
  | [] => keep
  | x :: todo' =>
      if hitting_setb (todo' ++ keep) clauses
      then shrink clauses todo' keep
      else shrink clauses todo' (x :: keep)
  end.

Definition greedy_get (clauses : list (list nat)) : option (list nat) :=
  let universe := remove_dups (mjoin clauses) in
  if hitting_setb universe clauses
  then Some (shrink clauses universe [])
  else None.

Fixpoint sublists (l : list nat) : list (list nat) :=
  match l with
  | [] => [[]]
  | x :: l' => sublists l' ++ map (cons x) (sublists l')
  end.

Definition brute_enumerate (clauses : list (list nat)) : list (list nat) :=
  filter (λ h, hitting_setb h clauses = true ∧
               Forall (λ x, hitting_setb (filter (λ y, y ≠ x) h) clauses
                            = false) h)
         (sublists (remove_dups (mjoin clauses))).

(** ** Strings *)

(** [str.isspace] on one character (code points below 256). *)
Definition py_isspace (c : Ascii.ascii) : bool :=
  let n := Ascii.nat_of_ascii c in
  ((9 <=? n) && (n <=? 13)) || ((28 <=? n) && (n <=? 32))
  || (n =? 133) || (n =? 160).

Fixpoint skip_spaces (s : string) : string :=
  match s with
  | EmptyString => EmptyString
  | String c s' => if py_isspace c then skip_spaces s' else s
  end.

Fixpoint take_word (s : string) : string :=
  match s with
  | EmptyString => EmptyString
  | String c s' => if py_isspace c then EmptyString else String c (take_word s')
  end.

(** [cond.split()[0]]: the first whitespace-separated word; a blank
    string has no word and the index raises. *)
Definition first_word (cond : string) : result string :=
  match take_word (skip_spaces cond) with
  | EmptyString => Raise IndexError
  | w => Ok w
  end.

(** [sorted] on a list of [str]: code-point order. *)
Definition str_le (a b : string) : Prop := String.leb a b = true.
#[global] Instance str_le_dec a b : Decision (str_le a b).
Proof. unfold str_le. apply _. Defined.

Definition py_sorted (l : list string) : list string := merge_sort str_le l.

(** One record of the result of [_batch_compute_axps]. *)
Record axp_record := AxpRecord {
  instance : nat;
  axp : list string
}.

(** ** Feature attribution aggregator *)

(** The counters of [_compute_feature_metrics].  The trackers
    [specificity_map], [position_map] and [stability_map] only feed the
    numpy statistics of the table ([np.mean], [np.std]); they are
    floating-point, never read by the counters below, and left out. *)
Record trackers := Trackers {
  essentiality : gmap string nat;
  contrastiveness : gmap string nat;
  support_counter : gmap string nat;
  coverage_map : gmap string (gset nat)
}.

(** [d[f] += 1] on a [defaultdict(int)] or a [Counter]. *)
Definition incr (f : string) (d : gmap string nat) : gmap string nat :=
  <[f := S (d !!! f)]> d.

(** [d[f].add(i)] on a [defaultdict(set)]. *)
Definition add_to (f : string) (i : nat) (d : gmap string (gset nat))
    : gmap string (gset nat) :=
  <[f := {[i]} ∪ (d !!! f)]> d.

(** [instance_groups[axp["instance"]].append(axp["axp"])] over [axps]. *)
Definition instance_groups (axps : list axp_record)
    : gmap nat (list (list string)) :=
  foldl (λ g a, <[instance a := (g !!! instance a) ++ [axp a]]> g) ∅ axps.

(** [set.intersection] of all of [feature_sets], and [set()] when the
    list is empty. *)
Definition intersection_all (feature_sets : list (gset string))
    : gset string :=
  match feature_sets with
  | [] => ∅
  | fs :: rest => foldl (∩) fs rest
  end.

Definition count_essential (f : string) (t : trackers) : trackers :=
  Trackers (incr f (essentiality t)) (contrastiveness t)
           (support_counter t) (coverage_map t).

Definition count_feature (instance_id : nat) (feature_sets : list (gset string))
    (f : string) (t : trackers) : trackers :=
  Trackers (essentiality t)
           (if existsb (λ fs, bool_decide (f ∉ fs)) feature_sets
            then incr f (contrastiveness t) else contrastiveness t)
           (incr f (support_counter t))
           (add_to f instance_id (coverage_map t)).

(** The body of the loop over [instance_groups.items()].  The words of
    all conditions are taken first ([all_features]), which is where a
    blank condition raises. *)
Definition count_instance (instance_id : nat) (axp_list : list (list string))
    (t : trackers) : result trackers :=
  features ← rmap (rmap first_word) axp_list;
  let unique_features : gset string := list_to_set (mjoin features) in
  let feature_sets : list (gset string) := list_to_set <$> features in
  let essential_feats := intersection_all feature_sets in
  let t1 := set_fold count_essential t essential_feats in
  Ok (set_fold (count_feature instance_id feature_sets) t1 unique_features).

Definition Qc_of_nat (n : nat) : Qc := Qc_of_Z (Z.of_nat n).

(** One row of the metrics table, without its numpy statistics
    ([specificity], [stability], [avg_position], [position_std]). *)
Record feature_metrics := FeatureMetrics {
  support : nat;
  coverage : nat;
  essentiality_ratio : Qc;
  contrastive_instances : nat;
  relative_importance : Qc
}.

(** [sum(support_counter.values())] *)
Definition total_support (support_counter : gmap string nat) : nat :=
  map_fold (λ _ v acc, acc + v) 0 support_counter.

(** The rows compiled from the counters, keyed by ["feature"] (the
    source lists them in the iteration order of a [set]).  The divisor
    of [relative_importance] is positive whenever there is a row. *)
Definition compile_metrics (instance_count : nat) (t : trackers)
    : gmap string feature_metrics :=
  map_imap (λ feature s, Some
    {| support := s;
       coverage := size (coverage_map t !!! feature);
       essentiality_ratio :=
         if decide (0 < instance_count)
         then (Qc_of_nat (essentiality t !!! feature)
               / Qc_of_nat instance_count)%Qc
         else 0%Qc;
       contrastive_instances := contrastiveness t !!! feature;
       relative_importance :=
         (Qc_of_nat s / Qc_of_nat (total_support (support_counter t)))%Qc
    |}) (support_counter t).

Definition _compute_feature_metrics (axps : list axp_record)
    : result (gmap string feature_metrics) :=
  let groups := instance_groups axps in
  let instance_count := size groups in
  t ← map_fold (λ instance_id axp_list rt,
                  t ← rt; count_instance instance_id axp_list t)
               (Ok (Trackers ∅ ∅ ∅ ∅)) groups;
  Ok (compile_metrics instance_count t).

(** ** The aggregator of the legacy class [CatBoostAXPExplainer] *)

Module CatBoostAXPExplainer.

(** One record built by the legacy [_batch_compute_axps]. *)
Record axp_entry := AxpEntry {
  instance_idx : nat;
  conditions : list string;
  literals : list nat
}.

(** One value of [feature_stats]. *)
Record stats := Stats {
  count : nat;
  instances : gset nat;
  stat_conditions : list string
}.

(** The body of the inner loop, for one condition of one record. *)
Definition record_condition (idx : nat) (feature_stats : gmap string stats)
    (condition : string) : result (gmap string stats) :=
  feature ← first_word condition;
  let old := default (Stats 0 ∅ []) (feature_stats !! feature) in
  Ok (<[feature := Stats (S (count old)) ({[idx]} ∪ instances old)
                         (stat_conditions old ++ [condition])]> feature_stats).

Definition collect_stats (axps : list axp_entry)
    : result (gmap string stats) :=
  rfoldl (λ feature_stats a,
            rfoldl (record_condition (instance_idx a)) feature_stats
                   (conditions a))
         ∅ axps.

(** One row of the legacy metrics, keyed by ["feature"]. *)
Record metrics_row := MetricsRow {
  support : nat;
  coverage : Qc;
  row_conditions : list string
}.

Definition _compute_feature_metrics (axps : list axp_entry)
    : result (gmap string metrics_row) :=
  feature_stats ← collect_stats axps;
  Ok ((λ s, MetricsRow (count s)
              (Qc_of_nat (size (instances s)) / Qc_of_nat (length axps))%Qc
              (stat_conditions s)) <$> (feature_stats : gmap string stats)).

End CatBoostAXPExplainer.

(** ** Numbers *)

(** JSON numbers (borders, leaf values) and feature values, with the
    operations the explainer applies to them: [a <= b], [a > b], the
    literal [0], and the text of a number in an f-string.  Equality of
    numbers, as used for dict keys, is equality of the values. *)
Class Num (num : Type) := {
  num_le : num → num → bool;
  num_gt : num → num → bool;
  num_zero : num;
  num_str : num → string
}.

Section Explainer.

Context {num : Type} {num_eq_dec : EqDecision num}
  {num_countable : Countable num} {num_ops : Num num}.

(** A condition is the tuple [(feat_idx, threshold, direction)]. *)
Abbreviation condition := (nat * num * nat)%type.

(** ** Data model *)

(** A node of a non-oblivious tree: a dict with ["leaf_value"], or one
    with ["split_condition"], ["left_child"] and ["right_child"]. *)
Inductive node :=
  | Leaf (leaf_value : num)
  | Split (float_feature_index : nat) (border : num)
          (left_child right_child : node).

(** The keys of the model JSON that [fit_from_model_json] reads.
    [float_features] is [model_json["features_info"]["float_features"]]
    as (flat_feature_index, feature_id) pairs, [None] when the key is
    missing; [oblivious_trees] records whether that key is present (its
    value is never read); [non_oblivious_trees] lists the root node of
    each tree ([tree["nodes"]]), [None] when the key is missing. *)
Record model_json := ModelJson {
  float_features : option (list (nat * string));
  oblivious_trees : bool;
  non_oblivious_trees : option (list node)
}.

(** The attributes of [CatBoostSymbolicExplainer] that its methods read
    back ([path_config], [model_json] and the logger are only stored,
    and [tree_rules] is an argument of the one method that reads it);
    [_id_gen] holds the next value that [next(self._id_gen)] will
    return. *)
Record explainer := Explainer {
  condition_id_map : gmap condition nat;
  id_condition_map : gmap nat condition;
  rule_clauses : list (list nat);
  rule_predictions : list nat;
  feature_names : gmap nat string;
  _id_gen : nat
}.

(** The explainer as [__init__] leaves it: empty registry and rule set,
    [count(1)]. *)
Definition __init__ : explainer := Explainer ∅ ∅ [] [] ∅ 1.

(** ** Condition registry *)

Definition _get_condition_literal (st : explainer)
    (feat_idx : nat) (threshold : num) (direction : nat) : nat * explainer :=
  let key := (feat_idx, threshold, direction) in
  match condition_id_map st !! key with
  | Some lit => (lit, st)
  | None =>
      let lit := _id_gen st in
      (lit, Explainer (<[key := lit]> (condition_id_map st))
                      (<[lit := key]> (id_condition_map st))
                      (rule_clauses st) (rule_predictions st)
                      (feature_names st) (S lit))
  end.

(** [[self._get_condition_literal(f, t, d) for (f, t, d) in conditions]] *)
Fixpoint intern_conditions (st : explainer) (conditions : list condition)
    : list nat * explainer :=
  match conditions with
  | [] => ([], st)
  | (f, t, d) :: cs =>
      let '(lit, st1) := _get_condition_literal st f t d in
      let '(lits, st2) := intern_conditions st1 cs in
      (lit :: lits, st2)
  end.

(** ** Parser *)

Definition leaf_label (leaf_value : num) : nat :=
  if num_gt leaf_value num_zero then 1 else 0.

Fixpoint _traverse_non_oblivious_tree (nd : node) (path : list nat)
    (conditions : list condition) (st : explainer) : explainer :=
  match nd with
  | Leaf v =>
      let pred := leaf_label v in
      let '(clause, st1) := intern_conditions st conditions in
      Explainer (condition_id_map st1) (id_condition_map st1)
                (rule_clauses st1 ++ [clause])
                (rule_predictions st1 ++ [pred])
                (feature_names st1) (_id_gen st1)
  | Split feature_index threshold l r =>
      let st1 := _traverse_non_oblivious_tree l (path ++ [0])
                   (conditions ++ [(feature_index, threshold, 0)]) st in
      _traverse_non_oblivious_tree r (path ++ [1])
        (conditions ++ [(feature_index, threshold, 1)]) st1
  end.

(** The four [.clear()] calls that open [fit_from_model_json]; the id
    generator is left as it is. *)
Definition clear_rules (st : explainer) : explainer :=
  Explainer ∅ ∅ [] [] (feature_names st) (_id_gen st).

Definition set_feature_names (st : explainer) (names : gmap nat string)
    : explainer :=
  Explainer (condition_id_map st) (id_condition_map st) (rule_clauses st)
            (rule_predictions st) names (_id_gen st).

(** A dict comprehension: a later entry overrides an earlier one. *)
Definition feature_table (ffs : list (nat * string)) : gmap nat string :=
  foldl (fun m f => <[f.1 := f.2]> m) ∅ ffs.

(** [fit_from_model_json] mutates [self] and may then raise: the result
    is the state reached together with the pending exception, if any. *)
Definition fit_from_model_json (st : explainer) (mj : model_json)
    : explainer * option exn :=
  let st1 := clear_rules st in
  match float_features mj with
  | None => (st1, Some KeyError)
  | Some ffs =>
      let st2 := set_feature_names st1 (feature_table ffs) in
      if oblivious_trees mj then
        (st2, Some (ValueError oblivious_trees_rejected))
      else
        match non_oblivious_trees mj with
        | None => (st2, Some (ValueError non_oblivious_trees_missing))
        | Some trees =>
            (foldl (fun s tree => _traverse_non_oblivious_tree tree [] [] s)
                   st2 trees, None)
        end
  end.

(** ** Minimal-explanation solver *)

Context {hitman : Hitman}.

(** One item of the generator inside [_satisfied_rules]: the literal is
    resolved ([self.id_condition_map[lit]]), then the instance is indexed
    and compared. *)
Definition satisfied_item (st : explainer) (instance : list num) (lit : nat)
    : result bool :=
  match id_condition_map st !! lit with
  | None => Raise KeyError
  | Some (feat, thresh, dir) =>
      match instance !! feat with
      | None => Raise IndexError
      | Some v =>
          Ok (if decide (dir = 0) then num_le v thresh else num_gt v thresh)
      end
  end.

(** The loop of [_satisfied_rules] from position [idx] on, [clauses] being
    what is left of [self.rule_clauses] and [matched] the list built so
    far. *)
Fixpoint _satisfied_rules_from (st : explainer) (instance : list num)
    (target_class idx : nat) (clauses : list (list nat)) (matched : list nat)
    : result (list nat) :=
  match clauses with
  | [] => Ok matched
  | clause :: rest =>
      match rule_predictions st !! idx with
      | None => Raise IndexError
      | Some pred =>
          if decide (pred ≠ target_class) then
            _satisfied_rules_from st instance target_class (S idx) rest matched
          else
            match py_all (satisfied_item st instance) clause with
            | Raise e => Raise e
            | Ok true =>
                _satisfied_rules_from st instance target_class (S idx) rest
                  (matched ++ [idx])
            | Ok false =>
                _satisfied_rules_from st instance target_class (S idx) rest
                  matched
            end
      end
  end.

Definition _satisfied_rules (st : explainer) (instance : list num)
    (target_class : nat) : result (list nat) :=
  _satisfied_rules_from st instance target_class 0 (rule_clauses st) [].

(** [h.get()] answers [None] when there is no hitting set, hence the
    option in the result. *)
Definition _compute_axp (st : explainer) (rule_ids : list nat)
    : result (option (list nat)) :=
  clauses ← rmap (λ ridx, match rule_clauses st !! ridx with
                          | Some clause => Ok clause
                          | None => Raise IndexError
                          end) rule_ids;
  Ok (hitman_get clauses).

Definition explain_literals (st : explainer) (instance : list num)
    (predicted_class : nat) : result (option (list nat)) :=
  matched ← _satisfied_rules st instance predicted_class;
  match matched with
  | [] => Ok (Some [])
  | _ => _compute_axp st matched
  end.

Definition _literal_to_text (st : explainer) (lit : nat) : result string :=
  match id_condition_map st !! lit with
  | None => Raise KeyError
  | Some (feat_idx, thresh, direction) =>
      match feature_names st !! feat_idx with
      | None => Raise KeyError
      | Some feat =>
          let op := if decide (direction = 0) then "<=" else ">" in
          Ok (feat +:+ " " +:+ op +:+ " " +:+ num_str thresh)
      end
  end.

(** [predicted_class=None] is the default of the keyword argument.
    Iterating over the [None] that [h.get()] may have answered is a
    [TypeError]. *)
Definition explain_instance (st : explainer) (instance : list num)
    (predicted_class : option nat) : result (list string) :=
  match predicted_class with
  | None => Raise (ValueError predicted_class_missing)
  | Some c =>
      literals ← explain_literals st instance c;
      match literals with
      | None => Raise TypeError
      | Some lits => rmap (_literal_to_text st) lits
      end
  end.

(** ** Batch explainer *)

(** One row of the result of [explain_dataset]. *)
Record explanation_row := ExplanationRow {
  index : nat;
  predicted_class : nat;
  row_axp : list string
}.

Fixpoint explain_dataset_from (st : explainer) (i : nat)
    (rows : list (list num * nat)) (results : list explanation_row)
    : result (list explanation_row) :=
  match rows with
  | [] => Ok results
  | (x, yhat) :: rest =>
      axp ← explain_instance st x (Some yhat);
      explain_dataset_from st (S i) rest
        (results ++ [ExplanationRow i yhat axp])
  end.

(** [explain_dataset]; [return_df] and [show_progress] only change the
    container of the rows and the progress display, and are left out. *)
Definition explain_dataset (st : explainer) (X : list (list num))
    (predictions : option (list nat)) : result (list explanation_row) :=
  match predictions with
  | None => Raise (ValueError predictions_missing)
  | Some preds => explain_dataset_from st 0 (zip X preds) []
  end.

Definition _literal_condition_holds (st : explainer) (x : list num)
    (lit : nat) : result bool :=
  match id_condition_map st !! lit with
  | None => Raise KeyError
  | Some (feat_idx, threshold, direction) =>
      match x !! feat_idx with
      | None => Raise IndexError
      | Some value =>
          Ok (if decide (direction = 0) then num_le value threshold
              else num_gt value threshold)
      end
  end.

Fixpoint _satisfied_clauses_from (st : explainer) (x : list num)
    (target_class i : nat) (clauses : list (list nat))
    (matched_clauses : list (list nat)) : result (list (list nat)) :=
  match clauses with
  | [] => Ok matched_clauses
  | clause :: rest =>
      match rule_predictions st !! i with
      | None => Raise IndexError
      | Some pred =>
          if decide (pred ≠ target_class) then
            _satisfied_clauses_from st x target_class (S i) rest
              matched_clauses
          else
            match py_all (_literal_condition_holds st x) clause with
            | Raise e => Raise e
            | Ok true =>
                _satisfied_clauses_from st x target_class (S i) rest
                  (matched_clauses ++ [clause])
            | Ok false =>
                _satisfied_clauses_from st x target_class (S i) rest
                  matched_clauses
            end
      end
  end.

Definition _satisfied_clauses_for_instance (st : explainer) (x : list num)
    (target_class : nat) : result (list (list nat)) :=
  _satisfied_clauses_from st x target_class 0 (rule_clauses st) [].

Definition _enumerate_axps (clauses : list (list nat)) : list (list nat) :=
  hitman_enumerate clauses.

(** The inner loop of [_batch_compute_axps].  [seen] holds the keys
    [str(sorted(axp_readable))]; the sorted list stands for its [str],
    which determines it. *)
Fixpoint dedup_axps (st : explainer) (i : nat)
    (axp_literal_sets : list (list nat)) (seen : list (list string))
    (results : list axp_record) : result (list axp_record) :=
  match axp_literal_sets with
  | [] => Ok results
  | axp_literals :: rest =>
      axp_readable ← rmap (_literal_to_text st) axp_literals;
      let axp_str := py_sorted axp_readable in
      if decide (axp_str ∈ seen) then dedup_axps st i rest seen results
      else dedup_axps st i rest (axp_str :: seen)
             (results ++ [AxpRecord i axp_readable])
  end.

Fixpoint _batch_compute_axps_from (st : explainer) (target_class i : nat)
    (X : list (list num)) (results : list axp_record)
    : result (list axp_record) :=
  match X with
  | [] => Ok results
  | x :: rest =>
      clauses ← _satisfied_clauses_for_instance st x target_class;
      match clauses with
      | [] => _batch_compute_axps_from st target_class (S i) rest results
      | _ =>
          results' ← dedup_axps st i (_enumerate_axps clauses) [] results;
          _batch_compute_axps_from st target_class (S i) rest results'
      end
  end.

Definition _batch_compute_axps (st : explainer) (X : list (list num))
    (target_class : nat) : result (list axp_record) :=
  _batch_compute_axps_from st target_class 0 X [].

(** ** Attribution per class, in one pass and in chunks *)

(** [X[mask]] for an ndarray [X] and the boolean mask
    [predictions == label] of an ndarray [predictions].  numpy checks the
    length of a mask against that of [X] unless the mask is empty; an
    empty mask selects no row of any [X]. *)
Definition select_class (X : list (list num)) (predictions : list nat)
    (label : nat) : result (list (list num)) :=
  if decide (predictions = []) then Ok []
  else if decide (length predictions = length X)
  then Ok ((filter (λ xp, xp.2 = label) (zip X predictions)).*1)
  else Raise IndexError.

(** [compute_feature_attribution] for an ndarray [X], the branch
    [X[mask]] of its selection. *)
Definition compute_feature_attribution (st : explainer) (X : list (list num))
    (predictions : list nat) (class_labels : option (list nat))
    : result (gmap nat (gmap string feature_metrics)) :=
  let class_labels := default [0; 1] class_labels in
  rfoldl (λ results label,
            X_class ← select_class X predictions label;
            axps ← _batch_compute_axps st X_class label;
            metrics ← _compute_feature_metrics axps;
            Ok (<[label := metrics]> results))
         ∅ class_labels.

(** A call of the method with the arguments given at the call site:
    [predictions] has no default value, so a call that does not supply it
    raises [TypeError] when the arguments are bound, before the body
    runs and whatever the other arguments are. *)
Definition call_compute_feature_attribution {A} (st : explainer) (X : A)
    (predictions : option (list nat)) (class_labels : option (list nat))
    (body : A → list nat → option (list nat)
            → result (gmap nat (gmap string feature_metrics)))
    : result (gmap nat (gmap string feature_metrics)) :=
  match predictions with
  | None => Raise TypeError
  | Some preds => body X preds class_labels
  end.

(** The items of [range(0, stop, step)] for a positive [step]. *)
Definition range_by (stop step : nat) : list nat :=
  (λ k, k * step) <$> seq 0 ((stop + step - 1) / step).

(** The items of [range(0, stop, step)] for any integer [step]: none for
    a negative one, and a [ValueError] for zero. *)
Definition py_range (stop : nat) (step : Z) : result (list nat) :=
  if decide (step = 0)%Z then Raise (ValueError range_step_zero)
  else if decide (step < 0)%Z then Ok []
  else Ok (range_by stop (Z.to_nat step)).

(** Iterating over a data frame built from a list of rows yields its
    column labels: the keys of the rows, none when there is no row. *)
Definition frame_columns (metrics : gmap string feature_metrics)
    : list string :=
  if decide (metrics = ∅) then []
  else ["feature"; "support"; "coverage"; "specificity";
        "essentiality_ratio"; "contrastive_instances"; "stability";
        "relative_importance"; "avg_position"; "position_std"].

(** A pandas data frame: its column labels and its rows. *)
Record data_frame := DataFrame {
  df_columns : list string;
  df_values : list (list num)
}.

(** [X.iloc[i:j]] for [0 <= i <= j]. *)
Definition iloc (X : data_frame) (i j : nat) : data_frame :=
  DataFrame (df_columns X) (take (j - i) (drop i (df_values X))).

(** [process_large_dataset]; [X] is a data frame, as the annotation says
    and as [X.iloc] requires.  The call site is
    [self.compute_feature_attribution(batch_X)]; [frame_attribution]
    stands for the body of that method on a data frame, which is left
    open here and which the call never enters. *)
Definition process_large_dataset (st : explainer) (X : data_frame)
    (batch_size : Z)
    (frame_attribution : data_frame → list nat → option (list nat)
       → result (gmap nat (gmap string feature_metrics)))
    : result (gmap nat (list string)) :=
  starts ← py_range (length (df_values X)) batch_size;
  rfoldl (λ results i,
            let batch_X := iloc X i (i + Z.to_nat batch_size) in
            batch_results ←
              call_compute_feature_attribution st batch_X None None
                frame_attribution;
            Ok (map_fold (λ class_label metrics res,
                            <[class_label :=
                                (res !!! class_label) ++ frame_columns metrics]>
                              res)
                         results batch_results))
         ∅ starts.

(** ** Parser of the tree-rules file *)

(** [node["split"]] by its ["split_type"], with the two keys that the
    code reads for that type, [None] for a key that the dict does not
    have.  [OtherSplit] stands for any other type, the default [""] of a
    missing key included.  A key that is present holds a value of the
    type that the format gives it. *)
Inductive rule_split :=
  | FloatFeature (float_feature_index : option nat) (border : option num)
  | OneHotFeature (cat_feature_index : option nat) (value : option num)
  | OnlineCtr (split_index : option nat) (border : option num)
  | OtherSplit.

(** A node of a tree of the tree-rules file: a dict with ["value"]; a
    dict with neither ["value"] nor ["split"]; or a dict with ["split"],
    together with its ["left"] and ["right"], [None] for a missing
    key. *)
#[warnings="-register-all"]
Inductive rule_node :=
  | ValueNode (value : num)
  | EmptyNode
  | SplitNode (split : rule_split) (left right : option rule_node).

(** The keys of the tree-rules file that [load_tree_rules] and
    [_process_tree_rules] read, [None] for a missing key.  An entry of
    ["float_features"] is given by its ["flat_feature_index"] and its
    ["feature_id"], again [None] for a missing key.  [other_keys] records
    whether the dict has any further key, which only matters for its
    truth value. *)
Record tree_rules_json := TreeRulesJson {
  rules_float_features : option (list (option nat * option string));
  trees : option (list rule_node);
  other_keys : bool
}.

(** What [json.load] can return for the file: a dict or a JSON value of
    another kind.  Of the items of a list only the strings matter, [None]
    stands for an item of another kind. *)
Inductive json_value :=
  | JsonDict (d : tree_rules_json)
  | JsonList (items : list (option string))
  | JsonString (s : string)
  | JsonNumber (n : num)
  | JsonBool (b : bool)
  | JsonNull.

(** The outcome of [read_json]: the value read, or the exception of
    [open] or of [json.load]. *)
Inductive read_outcome :=
  | ReadOk (contents : json_value)
  | ReadRaised.

(** The two explicit [raise ValueError(...)] sites of the loader. *)
Inductive rules_error :=
  | tree_rules_path_missing
  | tree_rules_not_loaded.

#[global] Instance rules_error_eq_dec : EqDecision rules_error.
Proof. solve_decision. Defined.

(** The exceptions that leave the loader: its own [ValueError]s, those
    that the interpreter raises on the contents of the file, and
    whatever [read_json] raised. *)
Inductive load_exn :=
  | LoadValueError (why : rules_error)
  | LoadKeyError
  | LoadTypeError
  | LoadAttributeError
  | ReadError.

#[global] Instance load_exn_eq_dec : EqDecision load_exn.
Proof. solve_decision. Defined.

(** The nested function [traverse] of [_process_tree].  A handled split
    reads its two keys, then [node["left"]] for the first recursive call
    and [node["right"]] for the second; a missing key raises [KeyError]
    at that point, with the rules appended so far left in place.  The
    three branches of the code differ in the names of the keys only. *)
Fixpoint traverse (nd : rule_node) (conditions : list condition)
    (st : explainer) : explainer * option load_exn :=
  match nd with
  | ValueNode value =>
      let pred := if num_gt value num_zero then 1 else 0 in
      let '(clause, st1) := intern_conditions st conditions in
      (Explainer (condition_id_map st1) (id_condition_map st1)
                 (rule_clauses st1 ++ [clause])
                 (rule_predictions st1 ++ [pred])
                 (feature_names st1) (_id_gen st1), None)
  | EmptyNode => (st, None)
  | SplitNode split l r =>
      let children feature_index threshold :=
        match l with
        | None => (st, Some LoadKeyError)
        | Some l =>
            match traverse l (conditions ++ [(feature_index, threshold, 0)]) st
            with
            | (st1, Some e) => (st1, Some e)
            | (st1, None) =>
                match r with
                | None => (st1, Some LoadKeyError)
                | Some r =>
                    traverse r (conditions ++ [(feature_index, threshold, 1)])
                             st1
                end
            end
        end in
      match split with
      | FloatFeature (Some feature_index) (Some threshold) =>
          children feature_index threshold
      | OneHotFeature (Some feature_index) (Some value) =>
          children feature_index value
      | OnlineCtr (Some split_index) (Some threshold) =>
          children split_index threshold
      | OtherSplit => (st, None)
      | _ => (st, Some LoadKeyError)
      end
  end.

(** [traverse(tree)]: [conditions] defaults to [None], replaced by []. *)
Definition _process_tree (tree : rule_node) (st : explainer)
    : explainer * option load_exn :=
  traverse tree [] st.

(** The loop [for tree in ...: self._process_tree(tree)], which the
    first exception leaves. *)
Fixpoint process_trees (trees : list rule_node) (st : explainer)
    : explainer * option load_exn :=
  match trees with
  | [] => (st, None)
  | tree :: rest =>
      match _process_tree tree st with
      | (st1, Some e) => (st1, Some e)
      | (st1, None) => process_trees rest st1
      end
  end.

(** The truth value of [self.tree_rules]: [None], [False], zero and the
    empty dict, list and string are false. *)
Definition truthy (tree_rules : json_value) : bool :=
  match tree_rules with
  | JsonDict d =>
      bool_decide (is_Some (rules_float_features d)) ||
      bool_decide (is_Some (trees d)) || other_keys d
  | JsonList items => match items with [] => false | _ :: _ => true end
  | JsonString s => match s with EmptyString => false | String _ _ => true end
  | JsonNumber n => bool_decide (n ≠ num_zero)
  | JsonBool b => b
  | JsonNull => false
  end.

(** [_process_tree_rules]; [tree_rules] is the value of
    [self.tree_rules] when the method runs.  The containers are cleared
    before the check, so the method mutates [self] even when it raises.
    Only a dict has the method [get]. *)
Definition _process_tree_rules (st : explainer) (tree_rules : json_value)
    : explainer * option load_exn :=
  let st1 := clear_rules st in
  if truthy tree_rules then
    match tree_rules with
    | JsonDict d => process_trees (default [] (trees d)) st1
    | _ => (st1, Some LoadAttributeError)
    end
  else (st1, Some (LoadValueError tree_rules_not_loaded)).

(** [sub in s] for two strings. *)
Fixpoint str_contains (sub s : string) : bool :=
  String.prefix sub s ||
  match s with
  | EmptyString => false
  | String _ rest => str_contains sub rest
  end.

(** The pairs of the dict comprehension over ["float_features"]; [None]
    when an entry lacks one of the two keys, which raises [KeyError]
    before [self.feature_names] is assigned. *)
Fixpoint feature_entries (entries : list (option nat * option string))
    : option (list (nat * string)) :=
  match entries with
  | [] => Some []
  | (Some i, Some name) :: rest =>
      match feature_entries rest with
      | Some ffs => Some ((i, name) :: ffs)
      | None => None
      end
  | _ :: _ => None
  end.

(** The statement [if "float_features" in self.tree_rules: ...] of
    [load_tree_rules].  The test raises [TypeError] on a value that is
    not a container; where it succeeds on a list or a string, the
    subscript [self.tree_rules["float_features"]] raises [TypeError]. *)
Definition read_feature_names (st : explainer) (tree_rules : json_value)
    : explainer * option load_exn :=
  match tree_rules with
  | JsonDict d =>
      match rules_float_features d with
      | Some entries =>
          match feature_entries entries with
          | Some ffs => (set_feature_names st (feature_table ffs), None)
          | None => (st, Some LoadKeyError)
          end
      | None => (st, None)
      end
  | JsonList items =>
      if decide (Some "float_features" ∈ items)
      then (st, Some LoadTypeError) else (st, None)
  | JsonString s =>
      if str_contains "float_features" s
      then (st, Some LoadTypeError) else (st, None)
  | JsonNumber _ | JsonBool _ | JsonNull => (st, Some LoadTypeError)
  end.

(** [load_tree_rules]; [tree_rules_path] is the attribute of the path
    configuration and [read] the outcome of [read_json] on it.  The
    [except] clause only logs and re-raises. *)
Definition load_tree_rules (st : explainer) (tree_rules_path : option string)
    (read : read_outcome) : explainer * option load_exn :=
  match tree_rules_path with
  | None | Some EmptyString =>
      (st, Some (LoadValueError tree_rules_path_missing))
  | Some _ =>
      match read with
      | ReadRaised => (st, Some ReadError)
      | ReadOk tree_rules =>
          match read_feature_names st tree_rules with
          | (st1, Some e) => (st1, Some e)
          | (st1, None) => _process_tree_rules st1 tree_rules
          end
      end
  end.

(** ** Input validation *)

(** The three explicit [raise ValueError(...)] sites of
    [validate_input_data]; the second carries the missing names. *)
Inductive input_error :=
  | length_mismatch
  | missing_features_in_input (missing_features : gset string)
  | predictions_not_binary.

(** [np.unique]: the distinct values in increasing order. *)
Definition np_unique (predictions : list nat) : list nat :=
  merge_sort (≤) (remove_dups predictions).

(** [validate_input_data]; [columns] is [X.columns] when [X] is a data
    frame and [None] when it is an array.  The result is the exception
    raised, [None] when the method returns. *)
Definition validate_input_data (st : explainer) (X : list (list num))
    (columns : option (list string)) (predictions : list nat)
    : option input_error :=
  if decide (length X ≠ length predictions) then Some length_mismatch
  else
    let frame_check :=
      match columns with
      | Some cols =>
          let missing_features : gset string :=
            map_img (feature_names st) ∖ list_to_set cols in
          if decide (missing_features ≠ ∅)
          then Some (missing_features_in_input missing_features)
          else None
      | None => None
      end in
    match frame_check with
    | Some e => Some e
    | None =>
        let unique_classes := np_unique predictions in
        if forallb (λ c, bool_decide (c ∈ [0; 1])) unique_classes then None
        else Some predictions_not_binary
    end.

(** ** Explanation coverage *)

(** What the first loop of [validate_explanations] can raise: an
    exception of the explainer, or the [ZeroDivisionError] of its
    division. *)
Inductive coverage_exn :=
  | ExplainerRaised (e : exn)
  | ZeroDivisionError.

(** The body of the first loop of [validate_explanations] for one
    [class_label] and an array [X], up to the value that it stores under
    ["coverage"]:
    the rows of the class are selected, explained by [explain_dataset]
    with the predictions of the class, and the number of rows returned
    is divided by the number of rows selected. *)
Definition class_coverage (st : explainer) (X : list (list num))
    (predictions : list nat) (class_label : nat) : coverage_exn + Qc :=
  match select_class X predictions class_label with
  | Raise e => inl (ExplainerRaised e)
  | Ok X_class =>
      let predictions_class := filter (λ p, p = class_label) predictions in
      match explain_dataset st X_class (Some predictions_class) with
      | Raise e => inl (ExplainerRaised e)
      | Ok explained =>
          if decide (length X_class = 0) then inl ZeroDivisionError
          else inr (Qc_of_nat (length explained)
                    / Qc_of_nat (length X_class))%Qc
      end
  end.

(** * Specification *)

(** ** Trees *)

(** The leaves of a tree in depth-first order, left child first; each
    comes with the directions taken from the root, the conditions met on
    the way, and its value.  [path] and [conditions] are those of the
    node itself. *)
Fixpoint leaves (nd : node) (path : list nat) (conditions : list condition)
    : list (list nat * list condition * num) :=
  match nd with
  | Leaf v => [(path, conditions, v)]
  | Split f t l r =>
      leaves l (path ++ [0]) (conditions ++ [(f, t, 0)])
      ++ leaves r (path ++ [1]) (conditions ++ [(f, t, 1)])
  end.

(** Following the directions [dirs] down from [nd]: the conditions met
    and the node reached, if the directions stay inside the tree. *)
Fixpoint descend (nd : node) (dirs : list nat)
    : option (list condition * node) :=
  match dirs, nd with
  | [], _ => Some ([], nd)
  | 0 :: dirs', Split f t l _ =>
      '(cs, n) ← descend l dirs'; Some ((f, t, 0) :: cs, n)
  | 1 :: dirs', Split f t _ r =>
      '(cs, n) ← descend r dirs'; Some ((f, t, 1) :: cs, n)
  | _, _ => None
  end.

Definition ensemble_leaves (trees : list node)
    : list (list nat * list condition * num) :=
  trees ≫= λ tree, leaves tree [] [].

(** ** Registry and rules *)

(** The registry is consistent from [base] on: its two maps are inverse
    of each other, and the ids in use are exactly those from [base] up to
    the next value of the generator. *)
Record registry_ok (base : nat) (st : explainer) : Prop := RegistryOk {
  reg_inverse : ∀ key lit,
    condition_id_map st !! key = Some lit ↔ id_condition_map st !! lit = Some key;
  reg_range : ∀ lit,
    is_Some (id_condition_map st !! lit) ↔ base ≤ lit < _id_gen st;
  reg_base : base ≤ _id_gen st
}.

(** [st'] has the registry of [st] and possibly more; nothing else that
    interning may touch has changed. *)
Record extends (st st' : explainer) : Prop := Extends {
  ext_ids : id_condition_map st ⊆ id_condition_map st';
  ext_keys : condition_id_map st ⊆ condition_id_map st';
  ext_gen : _id_gen st ≤ _id_gen st';
  ext_names : feature_names st' = feature_names st
}.

(** A literal resolves to a condition in the registry of [st]. *)
Definition resolves (st : explainer) (lit : nat) (c : condition) : Prop :=
  id_condition_map st !! lit = Some c.

(** The rule emitted for a leaf: the clause resolves, literal by literal,
    to the conditions of the path. *)
Definition clause_of (st : explainer) (clause : list nat)
    (leaf : list nat * list condition * num) : Prop :=
  Forall2 (resolves st) clause leaf.1.2.

(** A literal holds on an instance: its condition [(feature, threshold,
    direction)] is registered, the instance has a value for the feature,
    and the value is [<=] the threshold for direction 0, [>] it for
    direction 1. *)
Definition literal_holds (st : explainer) (instance : list num) (lit : nat)
    : Prop :=
  ∃ feat thresh dir v,
    id_condition_map st !! lit = Some (feat, thresh, dir) ∧
    instance !! feat = Some v ∧
    ((dir = 0 ∧ num_le v thresh = true) ∨ (dir = 1 ∧ num_gt v thresh = true)).

(** The rule set and the registry fit together, as after a parse. *)
Record rules_ok (st : explainer) : Prop := RulesOk {
  rules_same_length : length (rule_predictions st) = length (rule_clauses st);
  rules_resolve : ∀ clause lit,
    clause ∈ rule_clauses st → lit ∈ clause →
    is_Some (id_condition_map st !! lit);
  rules_direction : ∀ lit f t d,
    id_condition_map st !! lit = Some (f, t, d) → d = 0 ∨ d = 1
}.

(** The instance has a value for every feature of the registry. *)
Definition instance_covers (st : explainer) (instance : list num) : Prop :=
  map_Forall (λ _ c, c.1.1 < length instance) (id_condition_map st).

(** ** Feature attribution *)

(** The feature [f] occurs in an explanation: it is the first word of
    one of its conditions. *)
Definition mentions (f : string) (conditions : list string) : Prop :=
  Exists (λ cond, first_word cond = Ok f) conditions.

#[global] Instance mentions_dec f conditions : Decision (mentions f conditions).
Proof. unfold mentions. apply _. Defined.

(** The distinct instances in which [f] occurs in at least one
    explanation. *)
Definition instances_with (f : string) (axps : list axp_record) : gset nat :=
  list_to_set (instance <$> filter (λ a, mentions f (axp a)) axps).

(** A condition has a first word, so that [cond.split()[0]] does not
    raise. *)
Definition has_word (cond : string) : Prop := ∃ w, first_word cond = Ok w.

(** The distinct instance indices under which [f] occurs, for the
    records of the legacy class. *)
Definition legacy_instances_with (f : string)
    (axps : list CatBoostAXPExplainer.axp_entry) : gset nat :=
  list_to_set (CatBoostAXPExplainer.instance_idx <$>
    filter (λ a, mentions f (CatBoostAXPExplainer.conditions a)) axps).

(** The instance set recorded for [f], empty when [f] has no entry. *)
Definition recorded (fs : gmap string CatBoostAXPExplainer.stats)
    (f : string) : gset nat :=
  default ∅ (CatBoostAXPExplainer.instances <$> fs !! f).

(** The support values that are present are positive. *)
Definition support_positive (d : gmap string nat) : Prop :=
  map_Forall (λ _ s, 0 < s) d.

(** The sum of the support column, and of the relative importances, over
    the rows of a metrics table. *)
Definition sum_of_supports (metrics : gmap string feature_metrics) : nat :=
  map_fold (λ _ r acc, acc + support r) 0 metrics.

Definition sum_of_relative_importances
    (metrics : gmap string feature_metrics) : Qc :=
  map_fold (λ _ r acc, (acc + relative_importance r)%Qc) 0%Qc metrics.

(** The instances that have a record. *)
Definition explained_instances (axps : list axp_record) : gset nat :=
  list_to_set (instance <$> axps).

(** The instances all of whose explanations contain [f]. *)
Definition essential_instances (f : string) (axps : list axp_record)
    : gset nat :=
  filter (λ i, Forall (λ a, instance a = i → mentions f (axp a)) axps)
         (explained_instances axps).

(** A counter that goes from [a] to [b] is incremented exactly when [P]
    holds. *)
Definition bumped (P : Prop) (a b : nat) : Prop :=
  (P → b = S a) ∧ (¬ P → b = a).

(** The counter value [n] is the number of groups that satisfy [Q]. *)
Definition counts (Q : list (list string) → Prop)
    (groups : gmap nat (list (list string))) (n : nat) : Prop :=
  ∃ E : gset nat, n = size E ∧
    ∀ i, i ∈ E ↔ ∃ l, groups !! i = Some l ∧ Q l.

(** The conditions of the records whose first word is [f], in the order
    of the records. *)
Definition occurrences (f : string)
    (axps : list CatBoostAXPExplainer.axp_entry) : list string :=
  filter (λ cond, first_word cond = Ok f)
         (mjoin (CatBoostAXPExplainer.conditions <$> axps)).

(** [feature_stats] records the conditions [seen] so far. *)
Definition stats_ok (seen : list string)
    (feature_stats : gmap string CatBoostAXPExplainer.stats) : Prop :=
  ∀ f, match feature_stats !! f with
       | Some s =>
           CatBoostAXPExplainer.stat_conditions s
             = filter (λ cond, first_word cond = Ok f) seen ∧
           CatBoostAXPExplainer.count s
             = length (CatBoostAXPExplainer.stat_conditions s) ∧
           0 < CatBoostAXPExplainer.count s
       | None => filter (λ cond, first_word cond = Ok f) seen = []
       end.

(** ** The trees of the tree-rules file *)

(** What a split makes of a node: a test of a value on an index, for a
    handled type with both of its keys; a handled type that lacks one of
    them; or another type. *)
Inductive split_reading :=
  | Tests (feature_index : nat) (threshold : num)
  | KeyMissing
  | NotHandled.

Definition read_split (s : rule_split) : split_reading :=
  match s with
  | FloatFeature (Some feature_index) (Some threshold) =>
      Tests feature_index threshold
  | OneHotFeature (Some feature_index) (Some value) =>
      Tests feature_index value
  | OnlineCtr (Some split_index) (Some threshold) =>
      Tests split_index threshold
  | OtherSplit => NotHandled
  | _ => KeyMissing
  end.



(** The same tree in the format of the model JSON, with every handled
    split read as a threshold on the index it tests; there is none when
    some split is of another type or lacks a key or a child, or some
    branch does not end in a value. *)
Fixpoint as_node (nd : rule_node) : option node :=
  match nd with
  | ValueNode v => Some (Leaf v)
  | EmptyNode => None
  | SplitNode s (Some l) (Some r) =>
      match read_split s, as_node l, as_node r with
      | Tests f t, Some l', Some r' => Some (Split f t l' r')
      | _, _, _ => None
      end
  | SplitNode _ _ _ => None
  end.

(** ** The contents of the tree-rules file *)






(** ** Attribution per class *)

(** The metrics table of one class label. *)
Definition class_metrics (st : explainer) (X : list (list num))
    (predictions : list nat) (label : nat)
    : result (gmap string feature_metrics) :=
  X_class ← select_class X predictions label;
  axps ← _batch_compute_axps st X_class label;
  _compute_feature_metrics axps.

(** ** Instances and tree paths *)

(** The condition holds on the instance: the feature has a value, which
    is [<=] the threshold for direction 0 and [>] it otherwise. *)
Definition condition_holds (instance : list num) (c : condition) : bool :=
  match instance !! c.1.1 with
  | Some v => if decide (c.2 = 0) then num_le v c.1.2 else num_gt v c.1.2
  | None => false
  end.

(** All the conditions on the way to a leaf hold on the instance. *)
Definition path_holds (instance : list num) (conditions : list condition)
    : bool :=
  forallb (condition_holds instance) conditions.

(** ** Matching *)

(** [self.rule_clauses[ridx]], as [_compute_axp] reads it. *)
Definition clause_at (st : explainer) (ridx : nat) : result (list nat) :=
  match rule_clauses st !! ridx with
  | Some clause => Ok clause
  | None => Raise IndexError
  end.

(** ** Rendered conditions and batches *)

(** Some character of the string is whitespace for [str.split]. *)
Fixpoint has_space (s : string) : bool :=
  match s with
  | EmptyString => false
  | String c s' => py_isspace c || has_space s'
  end.

(** What the deduplication of [_batch_compute_axps] compares, together
    with the instance: [str(sorted(axp_readable))]. *)
Definition record_key (r : axp_record) : nat * list string :=
  (instance r, py_sorted (axp r)).

(** * Verification *)

(** ** The condition registry *)

Lemma extends_refl st : extends st st.
Proof. by split. Qed.

Lemma extends_trans st1 st2 st3 :
  extends st1 st2 → extends st2 st3 → extends st1 st3.
Proof.
  intros [] []. split; [by etrans | by etrans | lia | congruence].
Qed.

Lemma registry_ok_clear st : registry_ok (_id_gen st) (clear_rules st).
Proof.
  split; simpl.
  - intros key lit. by rewrite !lookup_empty.
  - intros lit. rewrite lookup_empty. split; [by intros [] | lia].
  - done.
Qed.

Lemma get_literal_known st f t d lit :
  condition_id_map st !! (f, t, d) = Some lit →
  _get_condition_literal st f t d = (lit, st).
Proof. intros Hk. unfold _get_condition_literal. by rewrite Hk. Qed.

(** Interning twice in a row: the second call finds the entry of the
    first, whatever the state. *)
Lemma get_literal_twice st f t d :
  let '(lit, st1) := _get_condition_literal st f t d in
  _get_condition_literal st1 f t d = (lit, st1).
Proof.
  unfold _get_condition_literal at 1.
  destruct (condition_id_map st !! (f, t, d)) as [lit|] eqn:Hk.
  - by apply get_literal_known.
  - apply get_literal_known. simpl. by rewrite lookup_insert_eq.
Qed.

(** A triple that is not registered yet gets the next value of the
    generator, which is above every id in use. *)
Lemma get_literal_fresh base st f t d :
  registry_ok base st →
  condition_id_map st !! (f, t, d) = None →
  ∃ st', _get_condition_literal st f t d = (_id_gen st, st') ∧
         _id_gen st' = S (_id_gen st) ∧
         ∀ lit, is_Some (id_condition_map st !! lit) → lit < _id_gen st.
Proof.
  intros Hok Hk. unfold _get_condition_literal. rewrite Hk.
  eexists. split; [done|]. split; [done|].
  intros lit Hlit. apply Hok in Hlit. lia.
Qed.

Lemma get_literal_ok base st f t d lit st' :
  registry_ok base st →
  _get_condition_literal st f t d = (lit, st') →
  registry_ok base st' ∧ extends st st' ∧
  id_condition_map st' !! lit = Some (f, t, d) ∧
  rule_clauses st' = rule_clauses st ∧
  rule_predictions st' = rule_predictions st ∧
  (∀ key, is_Some (condition_id_map st' !! key) ↔
          is_Some (condition_id_map st !! key) ∨ key = (f, t, d)).
Proof.
  intros Hok. unfold _get_condition_literal.
  destruct (condition_id_map st !! (f, t, d)) as [lit0|] eqn:Hk.
  - intros [= <- <-].
    split; [done|]. split; [apply extends_refl|]. split; [by apply Hok|].
    split; [done|]. split; [done|].
    intros key. split; [by left|]. intros [?| ->]; [done | by eexists].
  - intros [= <- <-].
    assert (id_condition_map st !! _id_gen st = None) as Hfresh.
    { apply eq_None_not_Some. intros Hs. apply Hok in Hs. lia. }
    split; [|split; [|split; [|split; [done|split; [done|]]]]]; simpl.
    + split; simpl.
      * intros key lit.
        destruct (decide (key = (f, t, d))) as [->|Hne].
        -- rewrite lookup_insert_eq.
           destruct (decide (lit = _id_gen st)) as [->|Hne'].
           ++ by rewrite lookup_insert_eq.
           ++ rewrite lookup_insert_ne by done. split; [congruence|].
              intros Hl. apply Hok in Hl. congruence.
        -- rewrite lookup_insert_ne by done.
           destruct (decide (lit = _id_gen st)) as [->|Hne'].
           ++ rewrite lookup_insert_eq. split; [|congruence].
              intros Hl. apply Hok in Hl. congruence.
           ++ rewrite lookup_insert_ne by done. apply Hok.
      * intros lit. destruct (decide (lit = _id_gen st)) as [->|Hne].
        -- rewrite lookup_insert_eq. pose proof (reg_base _ _ Hok).
           split; [lia | by eexists].
        -- rewrite lookup_insert_ne by done. rewrite (reg_range _ _ Hok). lia.
      * pose proof (reg_base _ _ Hok). lia.
    + split; simpl; [by apply insert_subseteq .. | lia | done].
    + by rewrite lookup_insert_eq.
    + intros key. destruct (decide (key = (f, t, d))) as [->|Hne].
      * rewrite lookup_insert_eq. split; [by right | by eexists].
      * rewrite lookup_insert_ne by done. split; [by left | by intros [?|?]].
Qed.

Lemma resolves_extends st st' lit c :
  extends st st' → resolves st lit c → resolves st' lit c.
Proof.
  intros [Hids _ _ _]. unfold resolves. intros Hl.
  by eapply lookup_weaken.
Qed.

Lemma intern_conditions_ok base conditions : ∀ st lits st',
  registry_ok base st →
  intern_conditions st conditions = (lits, st') →
  registry_ok base st' ∧ extends st st' ∧
  Forall2 (resolves st') lits conditions ∧
  rule_clauses st' = rule_clauses st ∧
  rule_predictions st' = rule_predictions st ∧
  (∀ key, is_Some (condition_id_map st' !! key) ↔
          is_Some (condition_id_map st !! key) ∨ key ∈ conditions).
Proof.
  induction conditions as [|[[f t] d] cs IH]; intros st lits st' Hok; simpl.
  - intros [= <- <-].
    split; [done|]. split; [apply extends_refl|]. split; [constructor|].
    split; [done|]. split; [done|].
    intros key. rewrite elem_of_nil. naive_solver.
  - destruct (_get_condition_literal st f t d) as [lit st1] eqn:Hget.
    destruct (intern_conditions st1 cs) as [lits' st2] eqn:Hrest.
    intros [= <- <-].
    destruct (get_literal_ok _ _ _ _ _ _ _ Hok Hget)
      as (Hok1 & Hext1 & Hlit & Hc1 & Hp1 & Hk1).
    destruct (IH _ _ _ Hok1 Hrest) as (Hok2 & Hext2 & Hlits & Hc2 & Hp2 & Hk2).
    split; [done|]. split; [by eapply extends_trans|].
    split; [constructor; [by eapply resolves_extends | done]|].
    split; [congruence|]. split; [congruence|].
    intros key. rewrite Hk2, Hk1, elem_of_cons. naive_solver.
Qed.

(** ** The parser *)

Lemma leaves_shift nd : ∀ path conditions,
  leaves nd path conditions =
  (λ leaf, (path ++ leaf.1.1, conditions ++ leaf.1.2, leaf.2))
    <$> leaves nd [] [].
Proof.
  induction nd as [v|f t l IHl r IHr]; intros path conditions; simpl.
  - by rewrite !app_nil_r.
  - rewrite (IHl (path ++ [0])), (IHr (path ++ [1])).
    rewrite (IHl [0]), (IHr [1]), fmap_app, <- !list_fmap_compose.
    f_equal; apply list_fmap_ext; intros _ [[p cs] v] _; simpl;
      by rewrite <- !app_assoc.
Qed.

(** [leaves] lists exactly the root-to-leaf paths of the tree. *)
Lemma leaves_descend nd : ∀ p cs v,
  (p, cs, v) ∈ leaves nd [] [] ↔ descend nd p = Some (cs, Leaf v).
Proof.
  induction nd as [v0|f t l IHl r IHr]; intros p cs v; simpl.
  - rewrite list_elem_of_singleton. destruct p as [|[|[|?]] p]; simpl;
      split; intros Heq; by simplify_eq.
  - rewrite (leaves_shift l [0]), (leaves_shift r [1]), elem_of_app.
    rewrite !list_elem_of_fmap. split.
    + intros [([[p' cs'] v'] & Heq & Hin)|([[p' cs'] v'] & Heq & Hin)];
        simpl in Heq; simplify_eq; simpl.
      * apply IHl in Hin. by rewrite Hin.
      * apply IHr in Hin. by rewrite Hin.
    + destruct p as [|[|[|?]] p]; simpl; try done.
      * destruct (descend l p) as [[cs' n]|] eqn:Hd; simpl; [|done].
        intros [= <- ->]. left. exists (p, cs', v). split; [done|].
        by apply IHl.
      * destruct (descend r p) as [[cs' n]|] eqn:Hd; simpl; [|done].
        intros [= <- ->]. right. exists (p, cs', v). split; [done|].
        by apply IHr.
Qed.

(** Along a path there is one condition per step. *)
Lemma descend_length nd : ∀ p cs n,
  descend nd p = Some (cs, n) → length cs = length p.
Proof.
  induction nd as [v0|f t l IHl r IHr]; intros p cs n.
  - destruct p as [|[|[|?]] p]; simpl; intros Heq; by simplify_eq.
  - destruct p as [|[|[|?]] p]; simpl; try done.
    + by intros [= <- <-].
    + destruct (descend l p) as [[cs' n']|] eqn:Hd; simpl; [|done].
      intros [= <- <-]. simpl. f_equal. by eapply IHl.
    + destruct (descend r p) as [[cs' n']|] eqn:Hd; simpl; [|done].
      intros [= <- <-]. simpl. f_equal. by eapply IHr.
Qed.

Lemma ensemble_leaves_cons tree trees :
  ensemble_leaves (tree :: trees) = leaves tree [] [] ++ ensemble_leaves trees.
Proof. done. Qed.

Lemma clause_of_extends st st' clause leaf :
  extends st st' → clause_of st clause leaf → clause_of st' clause leaf.
Proof.
  intros Hext Hc. unfold clause_of. eapply Forall2_impl; [exact Hc|].
  intros lit c. by apply resolves_extends.
Qed.

Lemma traverse_ok base nd : ∀ path conditions st,
  registry_ok base st →
  let st' := _traverse_non_oblivious_tree nd path conditions st in
  registry_ok base st' ∧ extends st st' ∧
  (∃ clauses, rule_clauses st' = rule_clauses st ++ clauses ∧
     Forall2 (clause_of st') clauses (leaves nd path conditions)) ∧
  rule_predictions st' =
    rule_predictions st
    ++ ((λ leaf, leaf_label leaf.2) <$> leaves nd path conditions) ∧
  (∀ key, is_Some (condition_id_map st' !! key) ↔
          is_Some (condition_id_map st !! key) ∨
          ∃ leaf, leaf ∈ leaves nd path conditions ∧ key ∈ leaf.1.2).
Proof.
  induction nd as [v|f t l IHl r IHr]; intros path conditions st Hok; simpl.
  - destruct (intern_conditions st conditions) as [clause st1] eqn:Hint.
    destruct (intern_conditions_ok _ _ _ _ _ Hok Hint)
      as (Hok1 & Hext & Hres & Hc & Hp & Hk).
    split; [by destruct Hok1|]. split; [by destruct Hext|]. simpl.
    split; [|split].
    + exists [clause]. rewrite Hc. split; [done|]. by repeat constructor.
    + by rewrite Hp.
    + intros key. rewrite Hk. split; intros [?|Hin]; try by left.
      * right. eexists. split; [by apply list_elem_of_singleton|done].
      * right. destruct Hin as (leaf & ->%list_elem_of_singleton & Hin). done.
  - destruct (IHl (path ++ [0]) (conditions ++ [(f, t, 0)]) st Hok)
      as (Hok1 & Hext1 & (cl1 & Hc1 & Hf1) & Hp1 & Hk1).
    set (st1 := _traverse_non_oblivious_tree l _ _ st) in *.
    destruct (IHr (path ++ [1]) (conditions ++ [(f, t, 1)]) st1 Hok1)
      as (Hok2 & Hext2 & (cl2 & Hc2 & Hf2) & Hp2 & Hk2).
    set (st2 := _traverse_non_oblivious_tree r _ _ st1) in *.
    split; [done|]. split; [by eapply extends_trans|]. split; [|split].
    + exists (cl1 ++ cl2). rewrite Hc2, Hc1, <- app_assoc. split; [done|].
      apply Forall2_app; [|done].
      eapply Forall2_impl; [exact Hf1|]. intros clause leaf.
      by apply clause_of_extends.
    + by rewrite Hp2, Hp1, fmap_app, <- app_assoc.
    + intros key. rewrite Hk2, Hk1. setoid_rewrite elem_of_app.
      naive_solver.
Qed.

Lemma traverse_all_ok base trees : ∀ st,
  registry_ok base st →
  let st' := foldl (λ s tree, _traverse_non_oblivious_tree tree [] [] s)
                   st trees in
  registry_ok base st' ∧ extends st st' ∧
  (∃ clauses, rule_clauses st' = rule_clauses st ++ clauses ∧
     Forall2 (clause_of st') clauses (ensemble_leaves trees)) ∧
  rule_predictions st' =
    rule_predictions st
    ++ ((λ leaf, leaf_label leaf.2) <$> ensemble_leaves trees) ∧
  (∀ key, is_Some (condition_id_map st' !! key) ↔
          is_Some (condition_id_map st !! key) ∨
          ∃ leaf, leaf ∈ ensemble_leaves trees ∧ key ∈ leaf.1.2).
Proof.
  induction trees as [|tree trees IH]; intros st Hok.
  - simpl. split; [done|]. split; [apply extends_refl|]. split; [|split].
    + exists []. by rewrite app_nil_r.
    + by rewrite app_nil_r.
    + intros key. split; [by left|]. intros [?|(leaf & Hin & _)]; [done|].
      by apply elem_of_nil in Hin.
  - rewrite ensemble_leaves_cons. cbn [foldl].
    destruct (traverse_ok base tree [] [] st Hok)
      as (Hok1 & Hext1 & (cl1 & Hc1 & Hf1) & Hp1 & Hk1).
    set (st1 := _traverse_non_oblivious_tree tree [] [] st) in *.
    destruct (IH st1 Hok1) as (Hok2 & Hext2 & (cl2 & Hc2 & Hf2) & Hp2 & Hk2).
    set (st2 := foldl _ st1 trees) in *.
    split; [done|]. split; [by eapply extends_trans|]. split; [|split].
    + exists (cl1 ++ cl2). rewrite Hc2, Hc1, <- app_assoc. split; [done|].
      apply Forall2_app; [|done].
      eapply Forall2_impl; [exact Hf1|]. intros clause leaf.
      by apply clause_of_extends.
    + by rewrite Hp2, Hp1, fmap_app, <- app_assoc.
    + intros key. rewrite Hk2, Hk1. setoid_rewrite elem_of_app. naive_solver.
Qed.

Lemma leaves_depth tree p cs v :
  (p, cs, v) ∈ leaves tree [] [] → length cs = length p.
Proof. intros Hin. apply leaves_descend in Hin. by eapply descend_length. Qed.

Lemma zip_rules (R : list nat → list nat * list condition * num → Prop)
    (g : list nat * list condition * num → nat) clauses lvs :
  Forall2 R clauses lvs →
  Forall2 (λ rule leaf, R rule.1 leaf ∧ rule.2 = g leaf)
          (zip clauses (g <$> lvs)) lvs.
Proof. induction 1; simpl; by constructor. Qed.

(** What a successful parse leaves behind, from any earlier state. *)
Lemma fit_ok st mj ffs trees :
  float_features mj = Some ffs →
  oblivious_trees mj = false →
  non_oblivious_trees mj = Some trees →
  let st' := (fit_from_model_json st mj).1 in
  (fit_from_model_json st mj).2 = None ∧
  registry_ok (_id_gen st) st' ∧
  Forall2 (clause_of st') (rule_clauses st') (ensemble_leaves trees) ∧
  rule_predictions st' = (λ leaf, leaf_label leaf.2) <$> ensemble_leaves trees ∧
  (∀ key, is_Some (condition_id_map st' !! key) ↔
          ∃ leaf, leaf ∈ ensemble_leaves trees ∧ key ∈ leaf.1.2).
Proof.
  intros Hff Hob Htrees. unfold fit_from_model_json.
  rewrite Hff, Hob, Htrees. simpl.
  set (st0 := set_feature_names (clear_rules st) (feature_table ffs)).
  assert (registry_ok (_id_gen st) st0) as Hok0.
  { destruct (registry_ok_clear st) as [Hinv Hrange Hbase]. by split. }
  destruct (traverse_all_ok _ trees st0 Hok0)
    as (Hok & _ & (clauses & Hc & Hf) & Hp & Hk).
  split; [done|]. split; [done|]. simpl in Hc, Hp. subst clauses.
  split; [done|]. split; [done|].
  intros key. rewrite Hk. simpl. rewrite lookup_empty.
  split; [by intros [[]|?] | by right].
Qed.

(** C3. For every ensemble with a feature table and a non-oblivious tree
    list, parsing succeeds and emits exactly one rule per leaf, in
    depth-first order: the rules are position by position those of the
    leaves, where [leaves] lists exactly the root-to-leaf paths of each
    tree.  The clause of a rule resolves, literal by literal, to the
    split conditions on the path of its leaf; its length is the depth of
    the leaf (the number of steps from the root), so a clause is empty
    only if some tree is a single leaf; the predicted label is 1 if the
    leaf value is greater than 0 and 0 otherwise. *)
Theorem parser_one_rule_per_leaf st mj ffs trees :
  float_features mj = Some ffs →
  oblivious_trees mj = false →
  non_oblivious_trees mj = Some trees →
  let st' := (fit_from_model_json st mj).1 in
  (fit_from_model_json st mj).2 = None ∧
  length (rule_clauses st') = length (rule_predictions st') ∧
  Forall2 (λ rule leaf,
             Forall2 (λ lit c, id_condition_map st' !! lit = Some c)
                     rule.1 leaf.1.2 ∧
             length rule.1 = length leaf.1.1 ∧
             rule.2 = if num_gt leaf.2 num_zero then 1 else 0)
          (zip (rule_clauses st') (rule_predictions st'))
          (ensemble_leaves trees) ∧
  (∀ tree p cs v, tree ∈ trees →
     (p, cs, v) ∈ leaves tree [] [] ↔ descend tree p = Some (cs, Leaf v)) ∧
  (∀ i, rule_clauses st' !! i = Some [] → ∃ v, Leaf v ∈ trees).
Proof.
  intros Hff Hob Htrees st'.
  destruct (fit_ok st mj ffs trees Hff Hob Htrees)
    as (Herr & Hok & Hf & Hp & Hk).
  fold st' in Hok, Hf, Hp, Hk.
  assert (∀ leaf, leaf ∈ ensemble_leaves trees →
            ∃ tree, tree ∈ trees ∧ leaf ∈ leaves tree [] []) as Hleaf.
  { intros leaf Hin. apply list_elem_of_bind in Hin as (tree & ? & ?). eauto. }
  split; [done|]. split; [|split; [|split]].
  - rewrite Hp, length_fmap. by eapply Forall2_length.
  - rewrite Hp.
    eapply Forall2_impl;
      [apply (zip_rules (λ clause leaf, clause_of st' clause leaf ∧
                                        leaf ∈ ensemble_leaves trees))|].
    + apply Forall2_same_length_lookup_2; [by eapply Forall2_length|].
      intros i clause leaf Hc Hl. split.
      * by eapply Forall2_lookup_lr.
      * by eapply list_elem_of_lookup_2.
    + intros [clause pred] [[p cs] v] [[Hcl Hin] Hpred]. simpl in *.
      split; [done|]. split; [|done].
      destruct (Hleaf _ Hin) as (tree & _ & Htree).
      apply leaves_depth in Htree. apply Forall2_length in Hcl. simpl in Hcl.
      lia.
  - intros tree p cs v _. apply leaves_descend.
  - intros i Hi.
    destruct (Forall2_lookup_l _ _ _ _ _ Hf Hi) as ([[p cs] v] & Hl & Hcl).
    apply list_elem_of_lookup_2, Hleaf in Hl as (tree & Htree & Hin).
    apply Forall2_length in Hcl. simpl in Hcl.
    pose proof (leaves_depth _ _ _ _ Hin) as Hlen.
    destruct p; [|simpl in *; lia].
    apply leaves_descend in Hin.
    destruct tree; simpl in Hin; simplify_eq; eauto.
Qed.

(** Whatever the outcome of a parse, the registry it leaves is
    consistent and starts at the value the generator had on entry. *)
Lemma fit_registry_ok st mj :
  registry_ok (_id_gen st) (fit_from_model_json st mj).1.
Proof.
  pose proof (registry_ok_clear st) as Hclear.
  assert (∀ names, registry_ok (_id_gen st)
                     (set_feature_names (clear_rules st) names)) as Hnames.
  { intros names. destruct Hclear. by split. }
  destruct (float_features mj) as [ffs|] eqn:Hff;
    [|unfold fit_from_model_json; by rewrite Hff].
  destruct (oblivious_trees mj) eqn:Hob;
    [unfold fit_from_model_json; rewrite Hff, Hob; apply Hnames|].
  destruct (non_oblivious_trees mj) as [trees|] eqn:Htrees;
    [|unfold fit_from_model_json; rewrite Hff, Hob, Htrees; apply Hnames].
  by destruct (fit_ok st mj ffs trees Hff Hob Htrees) as (_ & Hok & _).
Qed.

Lemma fit_registry_keys st mj key :
  is_Some (condition_id_map (fit_from_model_json st mj).1 !! key) →
  ∃ trees leaf, non_oblivious_trees mj = Some trees ∧
                leaf ∈ ensemble_leaves trees ∧ key ∈ leaf.1.2.
Proof.
  destruct (float_features mj) as [ffs|] eqn:Hff;
    [|unfold fit_from_model_json; rewrite Hff; simpl;
      rewrite lookup_empty; by intros []].
  destruct (oblivious_trees mj) eqn:Hob;
    [unfold fit_from_model_json; rewrite Hff, Hob; simpl;
     rewrite lookup_empty; by intros []|].
  destruct (non_oblivious_trees mj) as [trees|] eqn:Htrees;
    [|unfold fit_from_model_json; rewrite Hff, Hob, Htrees; simpl;
      rewrite lookup_empty; by intros []].
  destruct (fit_ok st mj ffs trees Hff Hob Htrees) as (_ & _ & _ & _ & Hk).
  intros Hkey. apply Hk in Hkey as (leaf & ? & ?). eauto.
Qed.

(** C4 (amended). On every parse, a re-parse of the same explainer
    included, the registry is cleared and rebuilt: afterwards it holds
    only triples met on a root-to-leaf path of the ensemble just parsed
    (all of them when the parse succeeds, and every literal of every
    clause is then the one id that the registry holds for its triple),
    its two maps are inverse of each other, and the ids in use are
    exactly the consecutive values from the one the generator had on
    entry up to its current one.  The generator of a new explainer starts
    at 1 and is not reset by a parse, so the ids start at 1 on the first
    parse and continue after the last id issued on a re-parse.  Interning
    a new triple issues the next value of the generator, above every id
    in use; interning a registered triple again returns the id it has and
    changes nothing. *)
Theorem registry_rebuilt_on_parse st mj :
  let st' := (fit_from_model_json st mj).1 in
  (∀ key, is_Some (condition_id_map st' !! key) →
     ∃ trees leaf, non_oblivious_trees mj = Some trees ∧
                   leaf ∈ ensemble_leaves trees ∧ key ∈ leaf.1.2) ∧
  ((fit_from_model_json st mj).2 = None →
     ∀ trees, non_oblivious_trees mj = Some trees →
       (∀ leaf key, leaf ∈ ensemble_leaves trees → key ∈ leaf.1.2 →
          is_Some (condition_id_map st' !! key)) ∧
       Forall2 (λ clause leaf,
                  Forall2 (λ lit key, condition_id_map st' !! key = Some lit)
                          clause leaf.1.2)
               (rule_clauses st') (ensemble_leaves trees)) ∧
  (∀ key lit, condition_id_map st' !! key = Some lit ↔
              id_condition_map st' !! lit = Some key) ∧
  (∀ lit, is_Some (id_condition_map st' !! lit) ↔
          _id_gen st ≤ lit < _id_gen st') ∧
  _id_gen __init__ = 1 ∧
  (∀ s base f t d, registry_ok base s →
     condition_id_map s !! (f, t, d) = None →
     (_get_condition_literal s f t d).1 = _id_gen s ∧
     _id_gen (_get_condition_literal s f t d).2 = S (_id_gen s) ∧
     ∀ lit, is_Some (id_condition_map s !! lit) → lit < _id_gen s) ∧
  (∀ s f t d lit, condition_id_map s !! (f, t, d) = Some lit →
     _get_condition_literal s f t d = (lit, s)) ∧
  (∀ s f t d,
     _get_condition_literal (_get_condition_literal s f t d).2 f t d =
     _get_condition_literal s f t d).
Proof.
  intros st'. pose proof (fit_registry_ok st mj) as Hok. fold st' in Hok.
  split; [apply fit_registry_keys|].
  split.
  { intros Herr trees Htrees. revert Herr.
    unfold fit_from_model_json at 1.
    destruct (float_features mj) as [ffs|] eqn:Hff; [|done].
    destruct (oblivious_trees mj) eqn:Hob; [done|].
    rewrite Htrees. intros _.
    destruct (fit_ok st mj ffs trees Hff Hob Htrees) as (_ & _ & Hf & _ & Hk).
    fold st' in Hf, Hk. split.
    - intros leaf key Hleaf Hkey. apply Hk. eauto.
    - eapply Forall2_impl; [exact Hf|]. intros clause leaf Hcl.
      eapply Forall2_impl; [exact Hcl|]. intros lit key Hres.
      by apply (reg_inverse _ _ Hok). }
  split; [apply Hok|]. split; [apply Hok|]. split; [done|].
  split.
  { intros s base f t d Hs Hnone.
    destruct (get_literal_fresh base s f t d Hs Hnone) as (s' & -> & ? & ?).
    done. }
  split; [intros s f t d lit; apply get_literal_known|].
  intros s f t d. pose proof (get_literal_twice s f t d) as Htwice.
  by destruct (_get_condition_literal s f t d) as [lit s1].
Qed.

(** C7. For every ensemble description with the ["oblivious_trees"] key,
    and for every one without the ["non_oblivious_trees"] key, parsing
    fails and leaves the explainer without any rule and with an empty
    registry.  With the feature table present the failure is the explicit
    [ValueError] of the check: the oblivious-tree rejection in the first
    case, whether or not non-oblivious trees are also given, and the
    missing-tree-list error in the second.  Without the feature table
    the failure is the [KeyError] of the lookup of ["features_info"],
    which comes before the tree form is looked at. *)
Theorem oblivious_trees_rejected_by_parser st mj :
  oblivious_trees mj = true ∨ non_oblivious_trees mj = None →
  let st' := (fit_from_model_json st mj).1 in
  is_Some (fit_from_model_json st mj).2 ∧
  rule_clauses st' = [] ∧ rule_predictions st' = [] ∧
  condition_id_map st' = ∅ ∧ id_condition_map st' = ∅ ∧
  (is_Some (float_features mj) →
     (fit_from_model_json st mj).2 =
       Some (ValueError (if oblivious_trees mj
                         then oblivious_trees_rejected
                         else non_oblivious_trees_missing))) ∧
  (float_features mj = None →
     (fit_from_model_json st mj).2 = Some KeyError).
Proof.
  intros Hform. unfold fit_from_model_json.
  destruct (float_features mj) as [ffs|]; simpl.
  - destruct (oblivious_trees mj); simpl.
    + split; [by eexists|]. by repeat (split; [done|]).
    + destruct Hform as [?|Hnone]; [done|]. rewrite Hnone.
      split; [by eexists|]. by repeat (split; [done|]).
  - split; [by eexists|]. by repeat (split; [done|]).
Qed.

(** C10. Without a predicted class, [explain_instance] raises the
    [ValueError] of its first statement, whatever the instance and the
    state of the explainer (even one on which computing an explanation
    would itself raise); [explain_dataset] does the same when
    [predictions] is [None].  No class is guessed and nothing is
    computed. *)
Theorem predicted_class_is_required st instance X :
  explain_instance st instance None = Raise (ValueError predicted_class_missing) ∧
  explain_dataset st X None = Raise (ValueError predictions_missing).
Proof. done. Qed.

(** ** Rule matching *)

Lemma py_all_true {A} (f : A → result bool) l :
  py_all f l = Ok true ↔ Forall (λ x, f x = Ok true) l.
Proof.
  induction l as [|x l IH]; simpl; [by split|].
  rewrite Forall_cons, <- IH.
  destruct (f x) as [[]|]; naive_solver.
Qed.

Lemma py_all_total {A} (f : A → result bool) l :
  Forall (λ x, ∃ b, f x = Ok b) l → ∃ b, py_all f l = Ok b.
Proof.
  induction 1 as [|x l [b Hb] _ IH]; simpl; [by eexists|].
  rewrite Hb. destruct b; simpl; [exact IH | by eexists].
Qed.

Lemma satisfied_item_eq st x lit :
  satisfied_item st x lit = _literal_condition_holds st x lit.
Proof. done. Qed.

Lemma satisfied_item_true st instance lit :
  (∀ f t d, id_condition_map st !! lit = Some (f, t, d) → d = 0 ∨ d = 1) →
  satisfied_item st instance lit = Ok true ↔ literal_holds st instance lit.
Proof.
  intros Hdir. unfold satisfied_item, literal_holds.
  destruct (id_condition_map st !! lit) as [[[f t] d]|] eqn:Hl;
    [|split; [done | by intros (? & ? & ? & ? & ? & _)]].
  destruct (instance !! f) as [v|] eqn:Hv;
    [|split; [done | intros (? & ? & ? & ? & ? & ? & _); by simplify_eq]].
  destruct (Hdir _ _ _ eq_refl) as [->| ->]; simpl; split.
  - intros [= Hle]. exists f, t, 0, v. auto.
  - intros (? & ? & ? & ? & ? & ? & [[_ ?]|[? _]]); simplify_eq; by f_equal.
  - intros [= Hgt]. exists f, t, 1, v. auto.
  - intros (? & ? & ? & ? & ? & ? & [[? _]|[_ ?]]); simplify_eq; by f_equal.
Qed.

Lemma satisfied_item_total st instance lit :
  is_Some (id_condition_map st !! lit) →
  instance_covers st instance →
  ∃ b, satisfied_item st instance lit = Ok b.
Proof.
  intros [[[f t] d] Hl] Hcov. unfold satisfied_item. rewrite Hl.
  destruct (lookup_lt_is_Some_2 instance f (Hcov _ _ Hl)) as [v Hv].
  rewrite Hv. by eexists.
Qed.

(** What the loop of [_satisfied_rules] has collected when it ends. *)
Lemma satisfied_rules_from_spec st instance target_class clauses :
  ∀ idx matched res,
  _satisfied_rules_from st instance target_class idx clauses matched = Ok res →
  ∀ i, i ∈ res ↔
       i ∈ matched ∨
       ∃ k clause, i = idx + k ∧ clauses !! k = Some clause ∧
         rule_predictions st !! i = Some target_class ∧
         py_all (satisfied_item st instance) clause = Ok true.
Proof.
  induction clauses as [|clause rest IH]; intros idx matched res; simpl.
  - intros [= <-] i. split; [by left|]. by intros [?|(k & ? & _ & ? & _)].
  - destruct (rule_predictions st !! idx) as [pred|] eqn:Hpred; [|done].
    assert (∀ i k c, i = idx + k → (clause :: rest) !! k = Some c →
              (k = 0 ∧ i = idx ∧ c = clause) ∨
              (∃ k', k = S k' ∧ i = S idx + k' ∧ rest !! k' = Some c)) as Hsplit.
    { intros i [|k'] c -> Hc; simpl in Hc; [left|right].
      - split; [done|]. split; [lia | congruence].
      - exists k'. split; [done|]. split; [lia | done]. }
    destruct (decide (pred ≠ target_class)) as [Hne|Heq%dec_stable].
    + intros Hres i. rewrite (IH _ _ _ Hres i). split.
      * intros [?|(k & c & -> & ? & ? & ?)]; [by left|].
        right. exists (S k), c. split; [lia | done].
      * intros [?|(k & c & Hi & Hc & Hp & Hall)]; [by left|].
        destruct (Hsplit _ _ _ Hi Hc) as [(_ & -> & _)|(k' & _ & -> & ?)];
          [congruence|].
        right. by exists k', c.
    + subst pred.
      destruct (py_all (satisfied_item st instance) clause) as [[]|] eqn:Hall;
        [| |done].
      * intros Hres i. rewrite (IH _ _ _ Hres i), elem_of_app,
          list_elem_of_singleton. split.
        -- intros [[?| ->]|(k & c & -> & ? & ? & ?)]; [by left| |].
           ++ right. exists 0, clause. by rewrite Nat.add_0_r.
           ++ right. exists (S k), c. split; [lia | done].
        -- intros [?|(k & c & Hi & Hc & Hp & Hall')]; [by left; left|].
           destruct (Hsplit _ _ _ Hi Hc) as [(_ & -> & _)|(k' & _ & -> & ?)];
             [by left; right|].
           right. by exists k', c.
      * intros Hres i. rewrite (IH _ _ _ Hres i). split.
        -- intros [?|(k & c & -> & ? & ? & ?)]; [by left|].
           right. exists (S k), c. split; [lia | done].
        -- intros [?|(k & c & Hi & Hc & Hp & Hall')]; [by left|].
           destruct (Hsplit _ _ _ Hi Hc) as [(_ & -> & ->)|(k' & _ & -> & ?)];
             [congruence|].
           right. by exists k', c.
Qed.

Lemma satisfied_rules_from_total st instance target_class clauses :
  ∀ idx matched,
  (∀ k clause, clauses !! k = Some clause →
     is_Some (rule_predictions st !! (idx + k)) ∧
     ∃ b, py_all (satisfied_item st instance) clause = Ok b) →
  ∃ res,
    _satisfied_rules_from st instance target_class idx clauses matched = Ok res.
Proof.
  induction clauses as [|clause rest IH]; intros idx matched Hall; simpl;
    [by eexists|].
  destruct (Hall 0 clause eq_refl) as [[pred Hpred] [b Hb]].
  rewrite Nat.add_0_r in Hpred. rewrite Hpred, Hb.
  assert (∀ k c, rest !! k = Some c →
            is_Some (rule_predictions st !! (S idx + k)) ∧
            ∃ b, py_all (satisfied_item st instance) c = Ok b) as Hrest.
  { intros k c Hc. destruct (Hall (S k) c Hc) as [Hp ?].
    split; [|done]. by replace (S idx + k) with (idx + S k) by lia. }
  destruct (decide (pred ≠ target_class)); [by apply IH|].
  destruct b; by apply IH.
Qed.

Lemma leaves_directions nd : ∀ path conditions,
  Forall (λ c, c.2 = 0 ∨ c.2 = 1) conditions →
  Forall (λ leaf, Forall (λ c : condition, c.2 = 0 ∨ c.2 = 1) leaf.1.2)
         (leaves nd path conditions).
Proof.
  induction nd as [v|f t l IHl r IHr]; intros path conditions Hc; simpl.
  - by repeat constructor.
  - apply Forall_app. split; [apply IHl | apply IHr];
      (apply Forall_app; split; [done|]);
      (constructor; [simpl; auto | constructor]).
Qed.

(** Every parse, failed or not, leaves a rule set that fits the
    registry. *)
Lemma fit_rules_ok st mj : rules_ok (fit_from_model_json st mj).1.
Proof.
  assert (∀ names, rules_ok (set_feature_names (clear_rules st) names))
    as Hempty.
  { intros names. split; simpl; [done| |].
    - intros clause lit Hin. by apply elem_of_nil in Hin.
    - intros lit f t d. by rewrite lookup_empty. }
  destruct (float_features mj) as [ffs|] eqn:Hff.
  2:{ unfold fit_from_model_json. rewrite Hff. simpl.
      by destruct (Hempty ∅). }
  destruct (oblivious_trees mj) eqn:Hob;
    [unfold fit_from_model_json; rewrite Hff, Hob; apply Hempty|].
  destruct (non_oblivious_trees mj) as [trees|] eqn:Htrees;
    [|unfold fit_from_model_json; rewrite Hff, Hob, Htrees; apply Hempty].
  destruct (fit_ok st mj ffs trees Hff Hob Htrees)
    as (_ & Hok & Hf & Hp & Hk).
  set (st' := (fit_from_model_json st mj).1) in *.
  split.
  - rewrite Hp, length_fmap. symmetry. by eapply Forall2_length.
  - intros clause lit Hcl Hlit.
    apply list_elem_of_lookup in Hcl as [i Hi].
    destruct (Forall2_lookup_l _ _ _ _ _ Hf Hi) as (leaf & _ & Hres).
    apply list_elem_of_lookup in Hlit as [j Hj].
    destruct (Forall2_lookup_l _ _ _ _ _ Hres Hj) as (c & _ & Hc).
    by exists c.
  - intros lit f t d Hl. apply (reg_inverse _ _ Hok) in Hl.
    destruct (proj1 (Hk (f, t, d))) as (leaf & Hleaf & Hin); [by eexists|].
    apply list_elem_of_bind in Hleaf as (tree & Hleaf & _).
    pose proof (leaves_directions tree [] [] (Forall_nil_2 _)) as Hdirs.
    rewrite Forall_forall in Hdirs. specialize (Hdirs _ Hleaf).
    rewrite Forall_forall in Hdirs. by apply (Hdirs _ Hin).
Qed.

(** C2. For an explainer whose rules fit its registry (as after every
    parse, see [fit_rules_ok]), every instance and every target class:
    whenever [_satisfied_rules] returns, a rule index is in the result if
    and only if the predicted label of the rule is the target class and
    every literal of its clause holds on the instance; a literal holds iff
    the feature value is [<=] the threshold for direction 0 and [>] the
    threshold for direction 1, which is also what
    [_literal_condition_holds] computes.  And [_satisfied_rules] does
    return when the instance has a value for every registered feature. *)
Theorem satisfied_rules_sound_complete st instance target_class :
  rules_ok st →
  (∀ matched,
     _satisfied_rules st instance target_class = Ok matched →
     ∀ idx, idx ∈ matched ↔
       ∃ clause, rule_clauses st !! idx = Some clause ∧
                 rule_predictions st !! idx = Some target_class ∧
                 ∀ lit, lit ∈ clause → literal_holds st instance lit) ∧
  (instance_covers st instance →
   ∃ matched, _satisfied_rules st instance target_class = Ok matched) ∧
  (∀ lit, _literal_condition_holds st instance lit = Ok true ↔
          literal_holds st instance lit).
Proof.
  intros Hok.
  assert (∀ lit, satisfied_item st instance lit = Ok true ↔
                 literal_holds st instance lit) as Hitem.
  { intros lit. apply satisfied_item_true. intros f t d.
    apply (rules_direction _ Hok). }
  split; [|split; [|done]].
  - intros matched Hm idx.
    rewrite (satisfied_rules_from_spec _ _ _ _ _ _ _ Hm idx). split.
    + intros [Hin|(k & clause & -> & Hk & Hp & Hall)];
        [by apply elem_of_nil in Hin|].
      exists clause. split; [done|]. split; [done|].
      apply py_all_true in Hall. rewrite Forall_forall in Hall.
      intros lit Hlit. by apply Hitem, Hall.
    + intros (clause & Hk & Hp & Hall). right. exists idx, clause.
      split; [done|]. split; [done|]. split; [done|].
      apply py_all_true, Forall_forall. intros lit Hlit. by apply Hitem, Hall.
  - intros Hcov.
    apply (satisfied_rules_from_total st instance target_class
             (rule_clauses st) 0 []).
    intros k clause Hk. split.
    + apply lookup_lt_is_Some. rewrite (rules_same_length _ Hok).
      by eapply lookup_lt_Some.
    + apply py_all_total, Forall_forall. intros lit Hlit.
      apply satisfied_item_total; [|done].
      eapply (rules_resolve _ Hok); [|done]. by eapply list_elem_of_lookup_2.
Qed.

(** ** Explanations *)

Lemma rmap_Forall2 {A B} (f : A → result B) l :
  Forall (λ x, ∃ y, f x = Ok y) l →
  ∃ ys, rmap f l = Ok ys ∧ Forall2 (λ x y, f x = Ok y) l ys.
Proof.
  induction 1 as [|x l [y Hy] _ (ys & Hys & Hall)]; simpl.
  - exists []. by split.
  - exists (y :: ys). rewrite Hy. simpl. rewrite Hys. simpl.
    split; [done|]. by constructor.
Qed.

(** The indices that [_satisfied_rules] returns are indices of rules. *)
Lemma satisfied_rules_in_range st instance target_class matched idx :
  _satisfied_rules st instance target_class = Ok matched →
  idx ∈ matched → is_Some (rule_clauses st !! idx).
Proof.
  intros Hm Hidx.
  apply (satisfied_rules_from_spec _ _ _ _ _ _ _ Hm idx) in Hidx
    as [Hin|(k & clause & -> & Hk & _)]; [by apply elem_of_nil in Hin|].
  by exists clause.
Qed.

(** C1 (amended). For every instance and target class with at least one
    matched rule, none of which has an empty clause, [explain_literals]
    returns a literal set that intersects the clause of every matched
    rule, and no strict subset of it intersects every matched clause.
    (A matched rule with an empty clause, from a tree that is a single
    leaf, cannot be hit by any set.) *)
Theorem explanation_is_minimal_hitting_set st instance target_class matched :
  _satisfied_rules st instance target_class = Ok matched →
  matched ≠ [] →
  (∀ idx, idx ∈ matched → rule_clauses st !! idx ≠ Some []) →
  ∃ h,
    explain_literals st instance target_class = Ok (Some h) ∧
    (∀ idx clause, idx ∈ matched → rule_clauses st !! idx = Some clause →
       hits h clause) ∧
    (∀ h', h' ⊆ h → ¬ h ⊆ h' →
       ¬ ∀ idx clause, idx ∈ matched → rule_clauses st !! idx = Some clause →
           hits h' clause).
Proof.
  intros Hm Hne Hnonempty. unfold explain_literals. rewrite Hm. simpl.
  destruct (rmap_Forall2
              (λ ridx, match rule_clauses st !! ridx with
                       | Some clause => Ok clause
                       | None => Raise IndexError
                       end) matched) as (clauses & Hcl & Hall).
  { apply Forall_forall. intros idx Hidx.
    destruct (satisfied_rules_in_range _ _ _ _ _ Hm Hidx) as [clause Hc].
    exists clause. by rewrite Hc. }
  assert (∀ h, hitting_set h clauses ↔
               ∀ idx clause, idx ∈ matched →
                 rule_clauses st !! idx = Some clause → hits h clause) as Hhit.
  { intros h. unfold hitting_set. rewrite Forall_forall. split.
    - intros Hh idx clause Hidx Hc.
      apply list_elem_of_lookup in Hidx as [i Hi].
      destruct (Forall2_lookup_l _ _ _ _ _ Hall Hi) as (c & Hci & Hlk).
      rewrite Hc in Hlk. simplify_eq. apply Hh.
      by eapply list_elem_of_lookup_2.
    - intros Hh c Hc. apply list_elem_of_lookup in Hc as [i Hi].
      destruct (Forall2_lookup_r _ _ _ _ _ Hall Hi) as (idx & Hidx & Hlk).
      destruct (rule_clauses st !! idx) as [c'|] eqn:Hc'; [|done].
      simplify_eq. eapply Hh; [|done]. by eapply list_elem_of_lookup_2. }
  destruct (hitman_get_total clauses) as [h Hget].
  { apply Forall_forall. intros c Hc ->.
    apply list_elem_of_lookup in Hc as [i Hi].
    destruct (Forall2_lookup_r _ _ _ _ _ Hall Hi) as (idx & Hidx & Hlk).
    destruct (rule_clauses st !! idx) as [c'|] eqn:Hc'; [|done].
    simplify_eq. eapply Hnonempty; [|done]. by eapply list_elem_of_lookup_2. }
  destruct (hitman_get_minimal _ _ Hget) as [Hh Hmin].
  exists h. split.
  - destruct matched; [done|]. unfold _compute_axp. rewrite Hcl. simpl.
    by rewrite Hget.
  - split; [by apply Hhit|].
    intros h' Hsub Hnsub Hh'. by apply (Hmin h' Hsub Hnsub), Hhit.
Qed.

(** ** Instances that match no rule *)

(** The two matching loops run in step: [_satisfied_clauses_from] adds
    a clause exactly when [_satisfied_rules_from] adds an index. *)
Lemma satisfied_clauses_in_step st x target_class clauses :
  ∀ idx matched matched_clauses res,
  _satisfied_rules_from st x target_class idx clauses matched = Ok res →
  ∃ new_idx new_clauses,
    res = matched ++ new_idx ∧
    _satisfied_clauses_from st x target_class idx clauses matched_clauses
      = Ok (matched_clauses ++ new_clauses) ∧
    length new_idx = length new_clauses.
Proof.
  induction clauses as [|clause rest IH];
    intros idx matched matched_clauses res; simpl.
  - intros [= <-]. exists [], []. by rewrite !app_nil_r.
  - destruct (rule_predictions st !! idx) as [pred|]; [|done].
    destruct (decide (pred ≠ target_class)); [by apply IH|].
    change (py_all (_literal_condition_holds st x) clause)
      with (py_all (satisfied_item st x) clause).
    destruct (py_all (satisfied_item st x) clause) as [[]|]; [| |done].
    + intros Hres.
      destruct (IH _ _ (matched_clauses ++ [clause]) _ Hres)
        as (ni & nc & -> & Hc & Hlen).
      exists (idx :: ni), (clause :: nc).
      rewrite Hc, <- !app_assoc. simpl. by rewrite Hlen.
    + by apply IH.
Qed.

Lemma no_rule_no_clause st x target_class :
  _satisfied_rules st x target_class = Ok [] →
  _satisfied_clauses_for_instance st x target_class = Ok [].
Proof.
  intros Hm.
  destruct (satisfied_clauses_in_step _ _ _ _ _ _ [] _ Hm)
    as (ni & nc & Hni & Hc & Hlen).
  simpl in Hni. subst ni. destruct nc; [|done]. exact Hc.
Qed.

Lemma dedup_axps_instance st i sets : ∀ seen results res,
  dedup_axps st i sets seen results = Ok res →
  ∀ r, r ∈ res → r ∈ results ∨ instance r = i.
Proof.
  induction sets as [|lits sets IH]; intros seen results res; simpl.
  - intros [= <-] r. by left.
  - destruct (rmap (_literal_to_text st) lits) as [readable|]; [|done]. simpl.
    destruct (decide (py_sorted readable ∈ seen)); [by apply IH|].
    intros Hres r Hr. destruct (IH _ _ _ Hres r Hr) as [Hin|?]; [|by right].
    apply elem_of_app in Hin as [?|Hin]; [by left|].
    apply list_elem_of_singleton in Hin as ->. by right.
Qed.

(** Every record of a batch belongs to an instance that matched at
    least one clause. *)
Lemma batch_records_matched st target_class X : ∀ i0 results res,
  _batch_compute_axps_from st target_class i0 X results = Ok res →
  ∀ r, r ∈ res →
    r ∈ results ∨
    ∃ k x clauses, X !! k = Some x ∧ instance r = i0 + k ∧
      _satisfied_clauses_for_instance st x target_class = Ok clauses ∧
      clauses ≠ [].
Proof.
  induction X as [|x X IH]; intros i0 results res; simpl.
  - intros [= <-] r. by left.
  - destruct (_satisfied_clauses_for_instance st x target_class)
      as [clauses|] eqn:Hcl; [|done]. simpl.
    assert (∀ r (results' : list axp_record),
              (r ∈ results' ∨
               ∃ k x' cls, X !! k = Some x' ∧ instance r = S i0 + k ∧
                 _satisfied_clauses_for_instance st x' target_class = Ok cls ∧
                 cls ≠ []) →
              (r ∈ results' → r ∈ results ∨ (instance r = i0 ∧ clauses ≠ [])) →
              r ∈ results ∨
              ∃ k x' cls, (x :: X) !! k = Some x' ∧ instance r = i0 + k ∧
                _satisfied_clauses_for_instance st x' target_class = Ok cls ∧
                cls ≠ []) as Hstep.
    { intros r results' [Hin|(k & x' & cls & Hk & Hi & Hc & Hne)] Hold.
      - destruct (Hold Hin) as [?|[Hi Hne]]; [by left|].
        right. exists 0, x, clauses. rewrite Nat.add_0_r. done.
      - right. exists (S k), x', cls. split; [done|]. split; [lia | done]. }
    destruct clauses as [|c clauses].
    + intros Hres r Hr. apply (Hstep r results); [by eapply IH | by left].
    + destruct (dedup_axps st i0 (_enumerate_axps (c :: clauses)) [] results)
        as [results'|] eqn:Hd; [|done]. simpl.
      intros Hres r Hr. apply (Hstep r results'); [by eapply IH|].
      intros Hin. destruct (dedup_axps_instance _ _ _ _ _ _ Hd r Hin);
        [by left | by right].
Qed.

Lemma explain_dataset_from_rows st rows : ∀ i0 results res,
  explain_dataset_from st i0 rows results = Ok res →
  ∃ new, res = results ++ new ∧
    ∀ k x yhat, rows !! k = Some (x, yhat) →
      ∃ axp, explain_instance st x (Some yhat) = Ok axp ∧
             new !! k = Some (ExplanationRow (i0 + k) yhat axp).
Proof.
  induction rows as [|[x yhat] rows IH]; intros i0 results res.
  - intros [= <-]. exists []. by rewrite app_nil_r.
  - cbn [explain_dataset_from].
    destruct (explain_instance st x (Some yhat)) as [axp|] eqn:Hx; [|done].
    cbn [mbind result_bind]. intros Hres. destruct (IH _ _ _ Hres) as (new & -> & Hnew).
    exists (ExplanationRow i0 yhat axp :: new).
    rewrite <- app_assoc. split; [done|].
    intros [|k] x' y'; simpl.
    + intros [= <- <-]. exists axp. by rewrite Nat.add_0_r.
    + intros Hk. destruct (Hnew _ _ _ Hk) as (axp' & ? & ?).
      exists axp'. split; [done|]. by replace (i0 + S k) with (S i0 + k) by lia.
Qed.

(** C5 (amended). For an instance that matches no rule of the target
    class, [explain_literals] returns the empty explanation and
    [explain_instance] the empty list; [explain_dataset] records the
    instance as a row of its own with an empty explanation; and
    [_batch_compute_axps], whose records feed the aggregate metrics,
    skips the instance, so that no record of the batch carries its
    index. *)
Theorem unmatched_instance_outcome st X target_class i x :
  X !! i = Some x →
  _satisfied_rules st x target_class = Ok [] →
  explain_literals st x target_class = Ok (Some []) ∧
  explain_instance st x (Some target_class) = Ok [] ∧
  (∀ predictions rows,
     predictions !! i = Some target_class →
     explain_dataset st X (Some predictions) = Ok rows →
     rows !! i = Some (ExplanationRow i target_class [])) ∧
  (∀ results,
     _batch_compute_axps st X target_class = Ok results →
     ∀ r, r ∈ results → instance r ≠ i).
Proof.
  intros Hx Hm.
  assert (explain_literals st x target_class = Ok (Some [])) as Hlits.
  { unfold explain_literals. by rewrite Hm. }
  assert (explain_instance st x (Some target_class) = Ok []) as Hinst.
  { unfold explain_instance. by rewrite Hlits. }
  split; [done|]. split; [done|]. split.
  - intros predictions rows Hp. unfold explain_dataset. intros Hrows.
    destruct (explain_dataset_from_rows _ _ _ _ _ Hrows) as (new & -> & Hnew).
    destruct (Hnew i x target_class) as (axp & Haxp & Hrow).
    { apply lookup_zip_with_Some. by exists x, target_class. }
    rewrite Hinst in Haxp. by simplify_eq.
  - intros results Hres r Hr Hi.
    destruct (batch_records_matched _ _ _ _ _ _ Hres r Hr)
      as [Hin|(k & x' & clauses & Hk & Hri & Hcl & Hne)];
      [by apply elem_of_nil in Hin|].
    simpl in Hri. assert (k = i) as -> by lia.
    rewrite Hx in Hk. simplify_eq.
    rewrite (no_rule_no_clause _ _ _ Hm) in Hcl. by simplify_eq.
Qed.

(** ** Chunked processing *)

(** [process_large_dataset] calls [compute_feature_attribution] without
    its [predictions]: the first chunk already raises. *)
Lemma process_large_dataset_raises st X batch_size frame_attribution :
  df_values X ≠ [] → (0 < batch_size)%Z →
  process_large_dataset st X batch_size frame_attribution = Raise TypeError.
Proof.
  intros HX Hb. unfold process_large_dataset, py_range.
  rewrite !decide_False by lia. cbn [mbind result_bind].
  unfold range_by.
  assert (0 < (length (df_values X) + Z.to_nat batch_size - 1)
              / Z.to_nat batch_size) as Hn.
  { destruct (df_values X); [done|]. simpl. apply Nat.div_str_pos. lia. }
  destruct ((length (df_values X) + Z.to_nat batch_size - 1)
            / Z.to_nat batch_size); [lia|]. done.
Qed.

(** ** Feature attribution *)

Lemma elem_of_instances_with f axps i :
  i ∈ instances_with f axps ↔
  ∃ a, a ∈ axps ∧ instance a = i ∧ mentions f (axp a).
Proof.
  unfold instances_with. rewrite elem_of_list_to_set, list_elem_of_fmap.
  setoid_rewrite list_elem_of_filter. naive_solver.
Qed.

(** Tokenising an explanation, and a list of explanations. *)
Lemma rmap_first_word conditions features f :
  rmap first_word conditions = Ok features →
  f ∈ features ↔ mentions f conditions.
Proof.
  unfold mentions. revert features.
  induction conditions as [|cond conditions IH]; intros features; simpl.
  - intros [= <-]. rewrite Exists_nil. by rewrite elem_of_nil.
  - destruct (first_word cond) as [w|] eqn:Hw; [|done]. simpl.
    destruct (rmap first_word conditions) as [ws|]; [|done]. simpl.
    intros [= <-]. rewrite elem_of_cons, Exists_cons, (IH ws eq_refl).
    split; intros [?|?]; auto; left; congruence.
Qed.

Lemma rmap_rmap_first_word axp_list features f :
  rmap (rmap first_word) axp_list = Ok features →
  f ∈ mjoin features ↔ ∃ a, a ∈ axp_list ∧ mentions f a.
Proof.
  revert features.
  induction axp_list as [|a axp_list IH]; intros features; simpl.
  - intros [= <-]. simpl. rewrite elem_of_nil. split; [done|].
    intros (a & Ha & _). by apply elem_of_nil in Ha.
  - destruct (rmap first_word a) as [ws|] eqn:Hws; [|done]. simpl.
    destruct (rmap (rmap first_word) axp_list) as [wss|]; [|done]. simpl.
    intros [= <-]. simpl. rewrite elem_of_app, (IH wss eq_refl).
    rewrite (rmap_first_word _ _ _ Hws). setoid_rewrite elem_of_cons.
    naive_solver.
Qed.

(** The explanations grouped under an instance are those of its records,
    in order. *)
Lemma instance_groups_from axps : ∀ (g : gmap nat (list (list string))) i,
  let g' := foldl (λ g a, <[instance a := (g !!! instance a) ++ [axp a]]> g)
                  g axps in
  g' !!! i = (g !!! i) ++ (axp <$> filter (λ a, instance a = i) axps) ∧
  (is_Some (g' !! i) ↔ is_Some (g !! i) ∨ ∃ a, a ∈ axps ∧ instance a = i).
Proof.
  induction axps as [|a axps IH]; intros g i; simpl.
  - rewrite app_nil_r. split; [done|]. split; [by left|].
    intros [?|(a & Ha & _)]; [done | by apply elem_of_nil in Ha].
  - destruct (IH (<[instance a := (g !!! instance a) ++ [axp a]]> g) i)
      as [Hl Hs]. rewrite Hl, Hs. clear IH Hl Hs.
    rewrite filter_cons. setoid_rewrite elem_of_cons.
    destruct (decide (instance a = i)) as [<-|Hne].
    + rewrite lookup_total_insert_eq, lookup_insert_eq, <- app_assoc.
      split; [done|]. split; [intros _; right; by exists a; auto|].
      intros _. by left.
    + rewrite lookup_total_insert_ne, lookup_insert_ne by done.
      split; [done|]. naive_solver.
Qed.

Lemma instance_groups_lookup axps i l :
  instance_groups axps !! i = Some l →
  ∀ a', a' ∈ l ↔ ∃ a, a ∈ axps ∧ instance a = i ∧ axp a = a'.
Proof.
  intros Hl a'. destruct (instance_groups_from axps ∅ i) as [Htot _].
  fold (instance_groups axps) in Htot.
  rewrite (lookup_total_correct _ _ _ Hl), lookup_total_empty in Htot.
  simpl in Htot. subst l. rewrite list_elem_of_fmap.
  setoid_rewrite list_elem_of_filter. naive_solver.
Qed.

Lemma instance_groups_is_Some axps a :
  a ∈ axps → is_Some (instance_groups axps !! instance a).
Proof.
  intros Ha. destruct (instance_groups_from axps ∅ (instance a)) as [_ Hs].
  apply Hs. right. by exists a.
Qed.

Lemma count_essential_fold t (X : gset string) :
  let t' := set_fold count_essential t X in
  support_counter t' = support_counter t ∧ coverage_map t' = coverage_map t.
Proof.
  cbv zeta.
  apply (set_fold_ind_L (λ r _, support_counter r = support_counter t ∧
                                coverage_map r = coverage_map t));
    [done|]. by intros f Y r _ [? ?].
Qed.

Lemma lookup_total_incr f g d :
  incr f d !!! g = if decide (g = f) then S (d !!! f) else d !!! g.
Proof.
  unfold incr. destruct (decide (g = f)) as [->|Hne].
  - by rewrite lookup_total_insert_eq.
  - by rewrite lookup_total_insert_ne.
Qed.

Lemma lookup_total_add_to f i g d :
  add_to f i d !!! g = if decide (g = f) then {[i]} ∪ d !!! f else d !!! g.
Proof.
  unfold add_to. destruct (decide (g = f)) as [->|Hne].
  - by rewrite lookup_total_insert_eq.
  - by rewrite lookup_total_insert_ne.
Qed.

Lemma support_positive_incr f d :
  support_positive d → support_positive (incr f d).
Proof.
  intros Hd g s. unfold incr. destruct (decide (g = f)) as [->|Hne].
  - rewrite lookup_insert_eq. intros [= <-]. lia.
  - rewrite lookup_insert_ne by done. apply Hd.
Qed.

Lemma is_Some_incr f g d :
  is_Some (incr f d !! g) ↔ g = f ∨ is_Some (d !! g).
Proof.
  unfold incr. destruct (decide (g = f)) as [->|Hne].
  - rewrite lookup_insert_eq. split; [by left | by eexists].
  - rewrite lookup_insert_ne by done. naive_solver.
Qed.

Lemma count_feature_fold i feature_sets t (X : gset string) :
  let t' := set_fold (count_feature i feature_sets) t X in
  (∀ f j, j ∈ coverage_map t' !!! f ↔
          (f ∈ X ∧ j = i) ∨ j ∈ coverage_map t !!! f) ∧
  (∀ f, is_Some (support_counter t' !! f) ↔
        f ∈ X ∨ is_Some (support_counter t !! f)) ∧
  (support_positive (support_counter t) →
   support_positive (support_counter t')).
Proof.
  cbv zeta.
  apply (set_fold_ind_L (λ r Y,
    (∀ f j, j ∈ coverage_map r !!! f ↔
            (f ∈ Y ∧ j = i) ∨ j ∈ coverage_map t !!! f) ∧
    (∀ f, is_Some (support_counter r !! f) ↔
          f ∈ Y ∨ is_Some (support_counter t !! f)) ∧
    (support_positive (support_counter t) →
     support_positive (support_counter r)))).
  - split; [|split; [|done]]; intros f; set_solver.
  - intros x Y r Hx (Hcov & Hdom & Hpos). split; [|split].
    + intros f j. simpl. rewrite lookup_total_add_to.
      destruct (decide (f = x)) as [->|Hne].
      * rewrite elem_of_union, Hcov. set_solver.
      * rewrite Hcov. set_solver.
    + intros f. simpl. rewrite is_Some_incr, Hdom. set_solver.
    + intros Ht. simpl. by apply support_positive_incr, Hpos.
Qed.

Lemma count_instance_ok i axp_list t t' :
  count_instance i axp_list t = Ok t' →
  ∃ features, rmap (rmap first_word) axp_list = Ok features ∧
    (∀ f j, j ∈ coverage_map t' !!! f ↔
            (f ∈ mjoin features ∧ j = i) ∨ j ∈ coverage_map t !!! f) ∧
    (∀ f, is_Some (support_counter t' !! f) ↔
          f ∈ mjoin features ∨ is_Some (support_counter t !! f)) ∧
    (support_positive (support_counter t) →
     support_positive (support_counter t')).
Proof.
  unfold count_instance.
  destruct (rmap (rmap first_word) axp_list) as [features|]; [|done].
  cbn [mbind result_bind]. intros [= <-]. exists features. split; [done|].
  pose proof (count_essential_fold t
                (intersection_all (list_to_set <$> features))) as [Hs Hc].
  pose proof (count_feature_fold i (list_to_set <$> features)
                (set_fold count_essential t
                          (intersection_all (list_to_set <$> features)))
                (list_to_set (mjoin features))) as (Hcov & Hdom & Hpos).
  simpl in *. split; [|split].
  - intros f j. rewrite Hcov, Hc, elem_of_list_to_set. done.
  - intros f. rewrite Hdom, Hs, elem_of_list_to_set. done.
  - intros Ht. apply Hpos. by rewrite Hs.
Qed.

(** What the counters hold once every group has been counted. *)
Lemma count_groups_ok (groups : gmap nat (list (list string))) t :
  map_fold (λ instance_id axp_list rt,
              t ← rt; count_instance instance_id axp_list t)
           (Ok (Trackers ∅ ∅ ∅ ∅)) groups = Ok t →
  (∀ i l, groups !! i = Some l →
     ∃ features, rmap (rmap first_word) l = Ok features) ∧
  (∀ f i, i ∈ coverage_map t !!! f ↔
     ∃ l, groups !! i = Some l ∧ ∃ a, a ∈ l ∧ mentions f a) ∧
  (∀ f, is_Some (support_counter t !! f) ↔
     ∃ i l, groups !! i = Some l ∧ ∃ a, a ∈ l ∧ mentions f a) ∧
  support_positive (support_counter t).
Proof.
  revert t.
  apply (map_fold_weak_ind (λ rt groups, ∀ t, rt = Ok t →
    (∀ i l, groups !! i = Some l →
       ∃ features, rmap (rmap first_word) l = Ok features) ∧
    (∀ f i, i ∈ coverage_map t !!! f ↔
       ∃ l, groups !! i = Some l ∧ ∃ a, a ∈ l ∧ mentions f a) ∧
    (∀ f, is_Some (support_counter t !! f) ↔
       ∃ i l, groups !! i = Some l ∧ ∃ a, a ∈ l ∧ mentions f a) ∧
    support_positive (support_counter t))).
  - intros t [= <-]. simpl. split; [|split; [|split]].
    + intros i l. by rewrite lookup_empty.
    + intros f i. rewrite lookup_total_empty. split; [set_solver|].
      intros (l & Hl & _). by rewrite lookup_empty in Hl.
    + intros f. rewrite lookup_empty. split; [by intros []|].
      intros (i & l & Hl & _). by rewrite lookup_empty in Hl.
    + intros f s. by rewrite lookup_empty.
  - intros i l m rt Hfresh IH t'. destruct rt as [t|]; [|done].
    cbn [mbind result_bind]. intros Hstep.
    destruct (IH t eq_refl) as (Htok & Hcov & Hdom & Hpos).
    destruct (count_instance_ok _ _ _ _ Hstep)
      as (features & Hf & Hcov' & Hdom' & Hpos').
    split; [|split; [|split]].
    + intros j l'. destruct (decide (j = i)) as [->|Hne].
      * rewrite lookup_insert_eq. intros [= <-]. by exists features.
      * rewrite lookup_insert_ne by done. apply Htok.
    + intros f j. rewrite Hcov', Hcov.
      rewrite (rmap_rmap_first_word _ _ f Hf).
      destruct (decide (j = i)) as [->|Hne].
      * rewrite lookup_insert_eq. split.
        -- intros [[Hm _]|(l' & Hl' & _)]; [|congruence]. by exists l.
        -- intros (l' & [= <-] & Hm). by left.
      * rewrite lookup_insert_ne by done. split.
        -- by intros [[_ ?]|?].
        -- by right.
    + intros f. rewrite Hdom', Hdom, (rmap_rmap_first_word _ _ f Hf). split.
      * intros [Hm|(j & l' & Hl' & Hm)].
        -- exists i, l. by rewrite lookup_insert_eq.
        -- exists j, l'. rewrite lookup_insert_ne; [done|congruence].
      * intros (j & l' & Hl' & Hm). destruct (decide (j = i)) as [->|Hne].
        -- rewrite lookup_insert_eq in Hl'. simplify_eq. by left.
        -- rewrite lookup_insert_ne in Hl' by done. right. by exists j, l'.
    + by apply Hpos'.
Qed.

Lemma compile_metrics_lookup n t f r :
  compile_metrics n t !! f = Some r →
  support_counter t !! f = Some (support r) ∧
  coverage r = size (coverage_map t !!! f) ∧
  relative_importance r =
    (Qc_of_nat (support r) / Qc_of_nat (total_support (support_counter t)))%Qc.
Proof.
  unfold compile_metrics. rewrite map_lookup_imap.
  destruct (support_counter t !! f) as [s|]; [|done]. simpl.
  by intros [= <-].
Qed.

(** The coverage column of [_compute_feature_metrics]. *)
Lemma symbolic_coverage axps metrics f r :
  _compute_feature_metrics axps = Ok metrics →
  metrics !! f = Some r →
  coverage r = size (instances_with f axps).
Proof.
  unfold _compute_feature_metrics.
  destruct (map_fold _ _ (instance_groups axps)) as [t|] eqn:Hfold; [|done].
  cbn [mbind result_bind]. intros [= <-] Hr.
  apply compile_metrics_lookup in Hr as (_ & -> & _).
  destruct (count_groups_ok _ _ Hfold) as (_ & Hcov & _ & _).
  f_equal. apply set_eq. intros i.
  rewrite Hcov, elem_of_instances_with. split.
  - intros (l & Hl & a' & Ha' & Hm).
    apply (instance_groups_lookup _ _ _ Hl) in Ha' as (a & ? & ? & <-).
    by exists a.
  - intros (a & Ha & <- & Hm).
    destruct (instance_groups_is_Some _ _ Ha) as [l Hl]. exists l.
    split; [done|]. exists (axp a). split; [|done].
    apply (instance_groups_lookup _ _ _ Hl). by exists a.
Qed.

(** A feature has a row exactly when it occurs in some explanation. *)
Lemma symbolic_rows axps metrics f :
  _compute_feature_metrics axps = Ok metrics →
  is_Some (metrics !! f) ↔ ∃ a, a ∈ axps ∧ mentions f (axp a).
Proof.
  unfold _compute_feature_metrics.
  destruct (map_fold _ _ (instance_groups axps)) as [t|] eqn:Hfold; [|done].
  cbn [mbind result_bind]. intros [= <-].
  destruct (count_groups_ok _ _ Hfold) as (_ & _ & Hdom & _).
  unfold compile_metrics. rewrite map_lookup_imap.
  transitivity (is_Some (support_counter t !! f)).
  { destruct (support_counter t !! f) as [s|]; simpl; [|done].
    split; intros _; by eexists. }
  rewrite Hdom. split.
  - intros (i & l & Hl & a' & Ha' & Hm).
    apply (instance_groups_lookup _ _ _ Hl) in Ha' as (a & ? & ? & <-).
    by exists a.
  - intros (a & Ha & Hm).
    destruct (instance_groups_is_Some _ _ Ha) as [l Hl].
    exists (instance a), l. split; [done|]. exists (axp a). split; [|done].
    apply (instance_groups_lookup _ _ _ Hl). by exists a.
Qed.

Lemma tokenise_total (axp_list : list (list string)) :
  Forall (Forall has_word) axp_list →
  ∃ features, rmap (rmap first_word) axp_list = Ok features.
Proof.
  intros Hall. destruct (rmap_Forall2 (rmap first_word) axp_list)
    as (features & Hf & _); [|by exists features].
  eapply Forall_impl; [exact Hall|]. intros a Ha.
  destruct (rmap_Forall2 first_word a Ha) as (ws & Hws & _). by exists ws.
Qed.

Lemma count_groups_total (groups : gmap nat (list (list string))) :
  map_Forall (λ _ l, Forall (Forall has_word) l) groups →
  ∃ t, map_fold (λ instance_id axp_list rt,
                   t ← rt; count_instance instance_id axp_list t)
                (Ok (Trackers ∅ ∅ ∅ ∅)) groups = Ok t.
Proof.
  apply (map_fold_weak_ind (λ rt groups,
    map_Forall (λ _ l, Forall (Forall has_word) l) groups →
    ∃ t, rt = Ok t)).
  - intros _. by eexists.
  - intros i l m rt Hfresh IH Hall.
    apply map_Forall_insert in Hall as [Hl Hm]; [|done].
    destruct (IH Hm) as [t ->]. cbn [mbind result_bind].
    unfold count_instance. destruct (tokenise_total l Hl) as [features ->].
    cbn [mbind result_bind]. by eexists.
Qed.

Lemma compute_feature_metrics_total axps :
  Forall (λ a, Forall has_word (axp a)) axps →
  ∃ metrics, _compute_feature_metrics axps = Ok metrics.
Proof.
  intros Hall. unfold _compute_feature_metrics.
  destruct (count_groups_total (instance_groups axps)) as [t ->];
    [|by eexists].
  intros i l Hl. apply Forall_forall. intros a' Ha'.
  apply (instance_groups_lookup _ _ _ Hl) in Ha' as (a & Ha & _ & <-).
  rewrite Forall_forall in Hall. by apply Hall.
Qed.

(** *** The legacy aggregator *)

Lemma record_condition_ok idx fs cond fs' :
  CatBoostAXPExplainer.record_condition idx fs cond = Ok fs' →
  ∃ w, first_word cond = Ok w ∧
    ∀ f j, j ∈ recorded fs' f ↔ (f = w ∧ j = idx) ∨ j ∈ recorded fs f.
Proof.
  unfold CatBoostAXPExplainer.record_condition.
  destruct (first_word cond) as [w|]; [|done]. cbn [mbind result_bind].
  intros [= <-]. exists w. split; [done|]. intros f j. unfold recorded.
  destruct (decide (f = w)) as [->|Hne].
  - rewrite lookup_insert_eq. simpl.
    destruct (fs !! w) as [old|]; simpl; set_solver.
  - rewrite lookup_insert_ne by done. naive_solver.
Qed.

Lemma record_conditions_ok idx conds : ∀ fs fs',
  rfoldl (CatBoostAXPExplainer.record_condition idx) fs conds = Ok fs' →
  ∀ f j, j ∈ recorded fs' f ↔ (mentions f conds ∧ j = idx) ∨ j ∈ recorded fs f.
Proof.
  unfold mentions.
  induction conds as [|cond conds IH]; intros fs fs'; simpl.
  - intros [= <-] f j. rewrite Exists_nil. naive_solver.
  - destruct (CatBoostAXPExplainer.record_condition idx fs cond)
      as [fs1|] eqn:H1; [|done]. cbn [mbind result_bind]. intros Hrest f j.
    destruct (record_condition_ok _ _ _ _ H1) as (w & Hw & Hrec).
    rewrite (IH _ _ Hrest), Hrec, Exists_cons, Hw. naive_solver.
Qed.

Lemma collect_stats_ok axps : ∀ fs fs',
  rfoldl (λ feature_stats a,
            rfoldl (CatBoostAXPExplainer.record_condition
                      (CatBoostAXPExplainer.instance_idx a))
                   feature_stats (CatBoostAXPExplainer.conditions a))
         fs axps = Ok fs' →
  ∀ f j, j ∈ recorded fs' f ↔
         j ∈ legacy_instances_with f axps ∨ j ∈ recorded fs f.
Proof.
  unfold legacy_instances_with.
  induction axps as [|a axps IH]; intros fs fs'; simpl.
  - intros [= <-] f j. set_solver.
  - destruct (rfoldl _ fs (CatBoostAXPExplainer.conditions a))
      as [fs1|] eqn:H1; [|done]. cbn [mbind result_bind]. intros Hrest f j.
    rewrite (IH _ _ Hrest), (record_conditions_ok _ _ _ _ H1).
    rewrite filter_cons. destruct (decide (mentions f _)); set_solver.
Qed.

Lemma collect_stats_total axps : ∀ fs,
  Forall (λ a, Forall has_word (CatBoostAXPExplainer.conditions a)) axps →
  ∃ fs', rfoldl (λ feature_stats a,
            rfoldl (CatBoostAXPExplainer.record_condition
                      (CatBoostAXPExplainer.instance_idx a))
                   feature_stats (CatBoostAXPExplainer.conditions a))
         fs axps = Ok fs'.
Proof.
  induction axps as [|a axps IH]; intros fs Hall; simpl; [by eexists|].
  apply Forall_cons in Hall as [Ha Hall].
  assert (∀ idx conds fs0, Forall has_word conds →
            ∃ fs1, rfoldl (CatBoostAXPExplainer.record_condition idx)
                          fs0 conds = Ok fs1) as Hinner.
  { intros idx conds. induction conds as [|cond conds IHc]; intros fs0 Hc;
      simpl; [by eexists|].
    apply Forall_cons in Hc as [[w Hw] Hc].
    unfold CatBoostAXPExplainer.record_condition at 2. rewrite Hw.
    cbn [mbind result_bind]. by apply IHc. }
  destruct (Hinner (CatBoostAXPExplainer.instance_idx a) _ fs Ha) as [fs1 ->].
  cbn [mbind result_bind]. by apply IH.
Qed.

(** The coverage column of the legacy [_compute_feature_metrics]. *)
Lemma legacy_coverage axps metrics f r :
  CatBoostAXPExplainer._compute_feature_metrics axps = Ok metrics →
  metrics !! f = Some r →
  CatBoostAXPExplainer.coverage r =
    (Qc_of_nat (size (legacy_instances_with f axps))
     / Qc_of_nat (length axps))%Qc.
Proof.
  unfold CatBoostAXPExplainer._compute_feature_metrics,
    CatBoostAXPExplainer.collect_stats.
  destruct (rfoldl _ ∅ axps) as [fs|] eqn:Hfs; [|done].
  cbn [mbind result_bind]. intros [= <-]. rewrite lookup_fmap.
  destruct (fs !! f) as [s|] eqn:Hs; [|done]. simpl. intros [= <-]. simpl.
  do 3 f_equal. apply set_eq. intros j.
  pose proof (collect_stats_ok _ _ _ Hfs f j) as Hrec.
  unfold recorded in Hrec. rewrite Hs, lookup_empty in Hrec. simpl in Hrec.
  set_solver.
Qed.

(** C8 (amended). The aggregator of [CatBoostSymbolicExplainer], which
    groups the explanations by instance, has a row for each feature that
    occurs in some explanation and reports as its coverage the number of
    distinct instances (not of explanations) in which the feature occurs
    in at least one explanation.  The aggregator of the legacy
    [CatBoostAXPExplainer] reports that number divided by the number of
    explanation records it was given.  Both return normally when every
    condition has a first word. *)
Theorem coverage_counts_distinct_instances :
  (∀ axps,
     Forall (λ a, Forall has_word (axp a)) axps →
     ∃ metrics, _compute_feature_metrics axps = Ok metrics ∧
       (∀ f, is_Some (metrics !! f) ↔ ∃ a, a ∈ axps ∧ mentions f (axp a)) ∧
       ∀ f r, metrics !! f = Some r →
         coverage r = size (instances_with f axps)) ∧
  (∀ axps,
     Forall (λ a, Forall has_word (CatBoostAXPExplainer.conditions a)) axps →
     ∃ metrics,
       CatBoostAXPExplainer._compute_feature_metrics axps = Ok metrics ∧
       ∀ f r, metrics !! f = Some r →
         CatBoostAXPExplainer.coverage r =
           (Qc_of_nat (size (legacy_instances_with f axps))
            / Qc_of_nat (length axps))%Qc).
Proof.
  split; intros axps Hall.
  - destruct (compute_feature_metrics_total axps Hall) as [metrics Hm].
    exists metrics. split; [done|]. split.
    + intros f. by apply symbolic_rows.
    + intros f r. by apply symbolic_coverage.
  - destruct (collect_stats_total axps ∅ Hall) as [fs Hfs].
    eexists. split.
    + unfold CatBoostAXPExplainer._compute_feature_metrics,
        CatBoostAXPExplainer.collect_stats. rewrite Hfs. done.
    + intros f r. apply legacy_coverage.
      unfold CatBoostAXPExplainer._compute_feature_metrics,
        CatBoostAXPExplainer.collect_stats. by rewrite Hfs.
Qed.

(** *** Relative importance *)

Lemma total_support_insert f s (d : gmap string nat) :
  d !! f = None → total_support (<[f := s]> d) = total_support d + s.
Proof.
  intros Hf. unfold total_support. rewrite map_fold_insert_L; [done| |done].
  intros. lia.
Qed.

Lemma total_support_positive (d : gmap string nat) :
  support_positive d → d ≠ ∅ → 0 < total_support d.
Proof.
  induction d as [|f s d Hf _] using map_ind; [done|].
  intros Hpos _. rewrite total_support_insert by done.
  specialize (Hpos f s). rewrite lookup_insert_eq in Hpos.
  specialize (Hpos eq_refl). simpl in Hpos. lia.
Qed.

Lemma Qc_of_nat_add a b : Qc_of_nat (a + b) = (Qc_of_nat a + Qc_of_nat b)%Qc.
Proof. unfold Qc_of_nat. by rewrite Nat2Z.inj_add, Z2Qc_inj_add. Qed.

Lemma Qc_of_nat_nonzero n : 0 < n → Qc_of_nat n ≠ 0%Qc.
Proof.
  intros Hn Heq. unfold Qc_of_nat in Heq. rewrite <- Z2Qc_inj_0 in Heq.
  apply Z2Qc_inj in Heq. lia.
Qed.

(** Rows built from a support counter [d], with an arbitrary divisor
    [T] for the relative importance: the columns add up as expected. *)
Lemma sums_of_rows (row : string → nat → feature_metrics) (T : Qc)
    (d : gmap string nat) :
  (∀ f s, support (row f s) = s) →
  (∀ f s, relative_importance (row f s) = (Qc_of_nat s / T)%Qc) →
  sum_of_supports (map_imap (λ f s, Some (row f s)) d) = total_support d ∧
  sum_of_relative_importances (map_imap (λ f s, Some (row f s)) d)
    = (Qc_of_nat (total_support d) / T)%Qc.
Proof.
  intros Hsup Hrel. unfold sum_of_supports, sum_of_relative_importances.
  induction d as [|f s d Hf IH] using map_ind.
  - rewrite map_imap_empty, !map_fold_empty. split; [done|].
    unfold total_support. rewrite map_fold_empty. unfold Qcdiv, Qc_of_nat.
    rewrite Nat2Z.inj_0, Z2Qc_inj_0. ring.
  - destruct IH as [IHs IHr].
    rewrite (map_imap_insert_Some _ _ _ _ (row f s)) by done.
    assert (map_imap (λ f s, Some (row f s)) d !! f = None) as Hnone.
    { by rewrite map_lookup_imap, Hf. }
    rewrite !map_fold_insert_L; [| by intros; ring | done | by intros; lia | done].
    rewrite IHs, IHr, Hsup, Hrel, total_support_insert by done.
    split; [done|]. rewrite Qc_of_nat_add. unfold Qcdiv. ring.
Qed.

(** C9 (amended). For every collection of explanations in which at
    least one feature occurs (so that the metrics table has a row), the
    relative importance of each feature is its support divided by the sum
    of the supports of all features, and the relative importances of all
    features add up to exactly 1 in rational arithmetic. *)
Theorem relative_importance_normalised axps metrics :
  _compute_feature_metrics axps = Ok metrics →
  (∃ a f, a ∈ axps ∧ mentions f (axp a)) →
  (∀ f r, metrics !! f = Some r →
     relative_importance r =
       (Qc_of_nat (support r) / Qc_of_nat (sum_of_supports metrics))%Qc) ∧
  sum_of_relative_importances metrics = 1%Qc.
Proof.
  unfold _compute_feature_metrics.
  destruct (map_fold _ _ (instance_groups axps)) as [t|] eqn:Hfold; [|done].
  cbn [mbind result_bind]. intros [= <-] (a & f0 & Ha & Hm).
  destruct (count_groups_ok _ _ Hfold) as (_ & _ & Hdom & Hpos).
  set (n := size (instance_groups axps)).
  set (T := total_support (support_counter t)).
  assert (0 < T) as HT.
  { apply total_support_positive; [done|]. intros Hempty.
    destruct (instance_groups_is_Some _ _ Ha) as [l Hl].
    assert (is_Some (support_counter t !! f0)) as [s Hs].
    { apply Hdom. exists (instance a), l. split; [done|].
      exists (axp a). split; [|done].
      apply (instance_groups_lookup _ _ _ Hl). by exists a. }
    by rewrite Hempty, lookup_empty in Hs. }
  destruct (sums_of_rows
    (λ feature s,
       {| support := s;
          coverage := size (coverage_map t !!! feature);
          essentiality_ratio :=
            if decide (0 < n)
            then (Qc_of_nat (essentiality t !!! feature) / Qc_of_nat n)%Qc
            else 0%Qc;
          contrastive_instances := contrastiveness t !!! feature;
          relative_importance := (Qc_of_nat s / Qc_of_nat T)%Qc |})
    (Qc_of_nat T) (support_counter t)) as [Hsum Hrel]; [done..|].
  split.
  - intros f r Hr. apply compile_metrics_lookup in Hr as (_ & _ & ->).
    do 2 f_equal. symmetry. exact Hsum.
  - transitivity (Qc_of_nat T / Qc_of_nat T)%Qc; [exact Hrel|].
    unfold Qcdiv. apply Qcmult_inv_r. by apply Qc_of_nat_nonzero.
Qed.

(** ** The two matchers, and the order of the matched rules *)

Lemma rmap_app {A B} (f : A → result B) l1 l2 ys1 ys2 :
  rmap f l1 = Ok ys1 → rmap f l2 = Ok ys2 →
  rmap f (l1 ++ l2) = Ok (ys1 ++ ys2).
Proof.
  revert ys1. induction l1 as [|x l1 IH]; intros ys1; simpl.
  - by intros [= <-].
  - destruct (f x) as [y|]; [|done]. simpl.
    destruct (rmap f l1) as [ys|]; [|done]. simpl.
    intros [= <-] H2. by rewrite (IH ys eq_refl H2).
Qed.

Lemma satisfied_from_agree st x target_class clauses :
  ∀ idx matched matched_clauses,
  drop idx (rule_clauses st) = clauses →
  rmap (clause_at st) matched = Ok matched_clauses →
  _satisfied_clauses_from st x target_class idx clauses matched_clauses =
  (idxs ← _satisfied_rules_from st x target_class idx clauses matched;
   rmap (clause_at st) idxs).
Proof.
  induction clauses as [|clause rest IH];
    intros idx matched matched_clauses Hdrop Hacc; simpl.
  - by rewrite Hacc.
  - assert (rule_clauses st !! idx = Some clause) as Hidx.
    { rewrite <- (Nat.add_0_r idx), <- lookup_drop, Hdrop. done. }
    assert (drop (S idx) (rule_clauses st) = rest) as Hrest.
    { replace (S idx) with (idx + 1) by lia.
      rewrite <- drop_drop, Hdrop. done. }
    destruct (rule_predictions st !! idx) as [pred|]; [|done].
    destruct (decide (pred ≠ target_class)); [by apply IH|].
    change (py_all (_literal_condition_holds st x) clause)
      with (py_all (satisfied_item st x) clause).
    destruct (py_all (satisfied_item st x) clause) as [[]|]; [| |done].
    + apply IH; [done|]. apply rmap_app; [done|].
      simpl. unfold clause_at. by rewrite Hidx.
    + by apply IH.
Qed.

Lemma satisfied_rules_from_sorted st x target_class clauses :
  ∀ idx matched res,
  _satisfied_rules_from st x target_class idx clauses matched = Ok res →
  ∃ new, res = matched ++ new ∧ StronglySorted lt new ∧
         Forall (λ i, idx ≤ i < idx + length clauses) new.
Proof.
  induction clauses as [|clause rest IH]; intros idx matched res; simpl.
  - intros [= <-]. exists []. rewrite app_nil_r. by repeat constructor.
  - assert (∀ new, Forall (λ i, S idx ≤ i < S idx + length rest) new →
              Forall (λ i, idx ≤ i < idx + S (length rest)) new) as Hw.
    { intros new Hnew. eapply Forall_impl; [exact Hnew|]. intros i. simpl. lia. }
    destruct (rule_predictions st !! idx) as [pred|]; [|done].
    destruct (decide (pred ≠ target_class)).
    { intros Hres. destruct (IH _ _ _ Hres) as (new & -> & Hs & Hr).
      exists new. auto. }
    destruct (py_all (satisfied_item st x) clause) as [[]|]; [| |done].
    + intros Hres. destruct (IH _ _ _ Hres) as (new & -> & Hs & Hr).
      exists (idx :: new). rewrite <- app_assoc. split; [done|]. split.
      * constructor; [done|]. eapply Forall_impl; [exact Hr|].
        intros i. simpl. lia.
      * constructor; [lia|]. auto.
    + intros Hres. destruct (IH _ _ _ Hres) as (new & -> & Hs & Hr).
      exists new. auto.
Qed.

(** X1. The batch matcher [_satisfied_clauses_for_instance] returns the
    clauses of exactly the rules that [_satisfied_rules] returns, in the
    same order, and raises whenever, and whatever, [_satisfied_rules]
    raises: it is [_satisfied_rules] followed by the clause lookup of
    [_compute_axp], so that the batch enumerates explanations for the
    very clause list that [explain_literals] hands to the solver. *)
Theorem satisfied_clauses_are_matched_rules st x target_class :
  _satisfied_clauses_for_instance st x target_class =
    (idxs ← _satisfied_rules st x target_class; rmap (clause_at st) idxs) ∧
  ∀ rule_ids,
    _compute_axp st rule_ids =
    (clauses ← rmap (clause_at st) rule_ids; Ok (hitman_get clauses)).
Proof. split; [by apply satisfied_from_agree | done]. Qed.

(** X2. The rule indices returned by [_satisfied_rules] are strictly
    increasing, hence without repetition, and each one is a position of
    [rule_clauses]. *)
Theorem satisfied_rules_increasing st x target_class matched :
  _satisfied_rules st x target_class = Ok matched →
  StronglySorted lt matched ∧ NoDup matched ∧
  Forall (λ idx, idx < length (rule_clauses st)) matched.
Proof.
  intros Hm. apply satisfied_rules_from_sorted in Hm as (new & -> & Hs & Hr).
  simpl in *. split; [done|]. split;
    [|eapply Forall_impl; [exact Hr|]; intros i; simpl; lia].
  clear Hr. induction Hs as [|i new Hs IH Hlt]; constructor; [|done].
  intros Hin. rewrite Forall_forall in Hlt. specialize (Hlt _ Hin). lia.
Qed.

(** ** The rows of [explain_dataset] *)

Lemma explain_dataset_from_length st rows : ∀ i0 results res,
  explain_dataset_from st i0 rows results = Ok res →
  length res = length results + length rows.
Proof.
  induction rows as [|[x yhat] rows IH]; intros i0 results res.
  - intros [= <-]. simpl. lia.
  - cbn [explain_dataset_from].
    destruct (explain_instance st x (Some yhat)) as [axp|]; [|done].
    cbn [mbind result_bind]. intros Hres. apply IH in Hres.
    rewrite length_app in Hres. simpl in *. lia.
Qed.

Lemma explain_dataset_from_total st rows : ∀ i0 results,
  Forall (λ xy, ∃ axp, explain_instance st xy.1 (Some xy.2) = Ok axp) rows →
  ∃ res, explain_dataset_from st i0 rows results = Ok res.
Proof.
  induction rows as [|[x yhat] rows IH]; intros i0 results Hall.
  - by eexists.
  - apply Forall_cons in Hall as [[axp Hx] Hall]. cbn [fst snd] in Hx.
    cbn [explain_dataset_from]. rewrite Hx. cbn [mbind result_bind].
    by apply IH.
Qed.

(** X3. When [explain_dataset] returns, it has one row per pair of
    [zip(X, predictions)], so that the rows beyond the shorter of the two
    are silently left out; row [k] carries the index [k], the prediction
    at [k] and the explanation of instance [k] for that prediction.  It
    returns as soon as [explain_instance] returns on every pair. *)
Theorem explain_dataset_rows st X predictions :
  (∀ rows,
     explain_dataset st X (Some predictions) = Ok rows →
     length rows = length X `min` length predictions ∧
     ∀ k row, rows !! k = Some row →
       index row = k ∧
       predictions !! k = Some (predicted_class row) ∧
       ∃ x, X !! k = Some x ∧
            explain_instance st x (Some (predicted_class row))
              = Ok (row_axp row)) ∧
  ((∀ k x yhat, X !! k = Some x → predictions !! k = Some yhat →
      ∃ axp, explain_instance st x (Some yhat) = Ok axp) →
   ∃ rows, explain_dataset st X (Some predictions) = Ok rows).
Proof.
  unfold explain_dataset. split.
  - intros rows Hrows.
    pose proof (explain_dataset_from_length _ _ _ _ _ Hrows) as Hlen.
    destruct (explain_dataset_from_rows _ _ _ _ _ Hrows) as (new & -> & Hnew).
    simpl in *. rewrite length_zip in Hlen. split; [done|].
    intros k row Hk.
    assert (k < length (zip X predictions)) as Hlt.
    { rewrite length_zip, <- Hlen. by eapply lookup_lt_Some. }
    apply lookup_lt_is_Some in Hlt as [[x yhat] Hxy].
    destruct (Hnew _ _ _ Hxy) as (axp & Haxp & Hrow).
    rewrite Hk in Hrow. injection Hrow as ->. simpl.
    apply lookup_zip_with_Some in Hxy as (x' & y' & [= <- <-] & Hx & Hy).
    split; [done|]. split; [done|]. by exists x.
  - intros Hall. apply explain_dataset_from_total.
    apply Forall_lookup. intros k [x yhat] Hxy. simpl.
    apply lookup_zip_with_Some in Hxy as (x' & y' & [= <- <-] & Hx & Hy).
    by eapply Hall.
Qed.

(** X4. A matched rule with an empty clause (the rule of a single-leaf
    tree) makes [explain_instance] raise [TypeError]: the solver answers
    [None] and the list comprehension iterates over it.  A data set with
    such an instance makes [explain_dataset] raise as a whole; no row is
    returned. *)
Theorem empty_clause_breaks_explanation st x target_class matched idx :
  _satisfied_rules st x target_class = Ok matched →
  idx ∈ matched →
  rule_clauses st !! idx = Some [] →
  explain_literals st x target_class = Ok None ∧
  explain_instance st x (Some target_class) = Raise TypeError ∧
  ∀ X predictions k,
    X !! k = Some x → predictions !! k = Some target_class →
    ∃ e, explain_dataset st X (Some predictions) = Raise e.
Proof.
  intros Hm Hidx Hnil.
  assert (explain_literals st x target_class = Ok None) as Hlits.
  { unfold explain_literals. rewrite Hm. cbn [mbind result_bind].
    destruct matched as [|i0 matched0] eqn:Hmatched;
      [by apply elem_of_nil in Hidx|].
    rewrite <- Hmatched in *. clear Hmatched. unfold _compute_axp.
    destruct (rmap_Forall2 (λ ridx, match rule_clauses st !! ridx with
                                    | Some clause => Ok clause
                                    | None => Raise IndexError
                                    end) matched) as (clauses & -> & Hcl).
    { apply Forall_forall. intros i Hi.
      destruct (satisfied_rules_in_range _ _ _ _ _ Hm Hi) as [c Hc].
      exists c. by rewrite Hc. }
    cbn [mbind result_bind]. f_equal.
    destruct (hitman_get clauses) as [h|] eqn:Hget; [|done].
    apply hitman_get_minimal in Hget as [Hh _]. exfalso.
    apply list_elem_of_lookup in Hidx as [j Hj].
    destruct (Forall2_lookup_l _ _ _ _ _ Hcl Hj) as (c & Hc & Hlook).
    rewrite Hnil in Hlook. injection Hlook as <-.
    unfold hitting_set in Hh. rewrite Forall_forall in Hh.
    destruct (Hh [] (list_elem_of_lookup_2 _ _ _ Hc)) as (lit & _ & Hlit).
    by apply elem_of_nil in Hlit. }
  assert (explain_instance st x (Some target_class) = Raise TypeError)
    as Hinst.
  { unfold explain_instance. by rewrite Hlits. }
  split; [done|]. split; [done|].
  intros X predictions k Hx Hp. unfold explain_dataset.
  destruct (explain_dataset_from st 0 (zip X predictions) [])
    as [rows|e] eqn:Hrows; [|by exists e].
  destruct (explain_dataset_from_rows _ _ _ _ _ Hrows) as (new & _ & Hnew).
  destruct (Hnew k x target_class) as (axp & Haxp & _).
  { apply lookup_zip_with_Some. by exists x, target_class. }
  congruence.
Qed.

(** ** Rendered conditions *)

Lemma skip_spaces_head s c u :
  skip_spaces s = String c u → py_isspace c = false.
Proof.
  induction s as [|c' s IH]; simpl; [done|].
  destruct (py_isspace c') eqn:Hc'; [done|]. by intros [= <- <-].
Qed.

Lemma skip_spaces_app s r :
  skip_spaces (s +:+ r) =
  match skip_spaces s with
  | EmptyString => skip_spaces r
  | u => u +:+ r
  end.
Proof.
  induction s as [|c s IH]; simpl; [done|].
  by destruct (py_isspace c).
Qed.

Lemma take_word_app_space u r :
  take_word (u +:+ String Ascii.Space r) = take_word u.
Proof.
  induction u as [|c u IH]; simpl; [done|].
  destruct (py_isspace c); [done|]. by rewrite IH.
Qed.

Lemma take_word_no_space s : has_space s = false → take_word s = s.
Proof.
  induction s as [|c s IH]; simpl; [done|].
  destruct (py_isspace c); [done|]. simpl. intros Hs. by rewrite IH.
Qed.

Lemma skip_spaces_no_space s : has_space s = false → skip_spaces s = s.
Proof. destruct s as [|c s]; simpl; [done|]. by destruct (py_isspace c). Qed.

(** The first word of ["{feat} {op} {thresh}"], for an operator that
    is a word of its own. *)
Lemma first_word_rendered feat op thresh :
  op ≠ EmptyString → has_space op = false →
  first_word (feat +:+ " " +:+ op +:+ " " +:+ thresh) =
  Ok (match take_word (skip_spaces feat) with
      | EmptyString => op
      | w => w
      end).
Proof.
  intros Hne Hop. unfold first_word. rewrite skip_spaces_app.
  destruct (skip_spaces feat) as [|c u] eqn:Hfeat.
  - change (skip_spaces (" " +:+ op +:+ " " +:+ thresh))
      with (skip_spaces (op +:+ " " +:+ thresh)).
    rewrite skip_spaces_app, (skip_spaces_no_space op Hop).
    assert (take_word (op +:+ String Ascii.Space thresh) = op) as Hw.
    { by rewrite take_word_app_space, take_word_no_space. }
    destruct op as [|c op]; [done|].
    change (" " +:+ thresh) with (String Ascii.Space thresh). rewrite Hw. done.
  - change (" " +:+ op +:+ " " +:+ thresh)
      with (String Ascii.Space (op +:+ " " +:+ thresh)).
    rewrite take_word_app_space. simpl.
    by rewrite (skip_spaces_head _ _ _ Hfeat).
Qed.

(** X5. A rendered condition always has a first word, so that the
    attribution aggregator never fails on it, and that word, the key
    under which the aggregator counts the condition, is the first word
    of the feature name: the name itself when it is not empty and has no
    whitespace, and the operator when the name is blank. *)
Theorem rendered_condition_first_word st lit text :
  _literal_to_text st lit = Ok text →
  ∃ feat_idx thresh direction feat,
    id_condition_map st !! lit = Some (feat_idx, thresh, direction) ∧
    feature_names st !! feat_idx = Some feat ∧
    has_word text ∧
    (∀ w, first_word feat = Ok w → first_word text = Ok w) ∧
    (feat ≠ EmptyString → has_space feat = false →
     first_word text = Ok feat) ∧
    (first_word feat = Raise IndexError →
     first_word text = Ok (if decide (direction = 0) then "<=" else ">")).
Proof.
  unfold _literal_to_text. intros Htext.
  destruct (id_condition_map st !! lit) as [[[feat_idx thresh] direction]|];
    [|done].
  destruct (feature_names st !! feat_idx) as [feat|] eqn:Hfeat; [|done].
  injection Htext as <-. exists feat_idx, thresh, direction, feat.
  split; [done|]. split; [done|].
  assert (first_word (feat +:+ " " +:+
            (if decide (direction = 0) then "<=" else ">") +:+ " " +:+
            num_str thresh) =
          Ok (match take_word (skip_spaces feat) with
              | EmptyString => if decide (direction = 0) then "<=" else ">"
              | w => w
              end)) as Hfw.
  { apply first_word_rendered; by destruct (decide (direction = 0)). }
  rewrite Hfw. unfold has_word, first_word. split; [by eexists|].
  split; [|split].
  - intros w. by destruct (take_word (skip_spaces feat)).
  - intros Hne Hns. rewrite skip_spaces_no_space, take_word_no_space by done.
    by destruct feat.
  - by destruct (take_word (skip_spaces feat)).
Qed.

(** ** The records of a batch *)

(** [sorted] does not depend on the order of its argument. *)
Lemma str_le_trans : Transitive str_le.
Proof.
  intros a b c. unfold str_le, String.leb. intros Hab Hbc.
  destruct (String.compare a b) eqn:Eab; [| |done].
  - apply OrderedTypeEx.String_as_OT.cmp_eq in Eab as ->. done.
  - destruct (String.compare b c) eqn:Ebc; [| |done].
    + apply OrderedTypeEx.String_as_OT.cmp_eq in Ebc as <-. by rewrite Eab.
    + apply OrderedTypeEx.String_as_OT.cmp_lt in Eab, Ebc.
      pose proof (OrderedTypeEx.String_as_OT.lt_trans _ _ _ Eab Ebc) as Hac.
      apply OrderedTypeEx.String_as_OT.cmp_lt in Hac.
      unfold OrderedTypeEx.String_as_OT.cmp in Hac. by rewrite Hac.
Qed.

Lemma py_sorted_Permutation l1 l2 : l1 ≡ₚ l2 → py_sorted l1 = py_sorted l2.
Proof.
  intros Hperm. unfold py_sorted.
  assert (Total str_le) as Htotal.
  { intros a b. apply String.leb_total. }
  assert (AntiSymm eq str_le) as Hanti.
  { intros a b. apply String.leb_antisym. }
  apply (StronglySorted_unique str_le).
  - apply StronglySorted_merge_sort; [apply str_le_trans | done].
  - apply StronglySorted_merge_sort; [apply str_le_trans | done].
  - by rewrite !merge_sort_Permutation.
Qed.

Lemma dedup_axps_spec st i sets : ∀ seen results res,
  dedup_axps st i sets seen results = Ok res →
  ∃ new, res = results ++ new ∧
    Forall (λ r, instance r = i ∧ (py_sorted (axp r) ∉ seen) ∧
                 ∃ lits, lits ∈ sets ∧
                   rmap (_literal_to_text st) lits = Ok (axp r)) new ∧
    NoDup ((λ r, py_sorted (axp r)) <$> new) ∧
    Forall (λ lits, ∃ readable,
              rmap (_literal_to_text st) lits = Ok readable ∧
              (py_sorted readable ∈ seen ∨
               ∃ r, r ∈ new ∧ py_sorted (axp r) = py_sorted readable)) sets.
Proof.
  induction sets as [|lits sets IH]; intros seen results res; simpl.
  - intros [= <-]. exists []. rewrite app_nil_r.
    split; [done|]. split; [done|]. split; [constructor | done].
  - destruct (rmap (_literal_to_text st) lits) as [readable|] eqn:Hr; [|done].
    cbn [mbind result_bind].
    destruct (decide (py_sorted readable ∈ seen)) as [Hseen|Hnew].
    + intros Hres. destruct (IH _ _ _ Hres) as (new & -> & Hsound & Hnd & Hall).
      exists new. split; [done|]. split; [|split; [done|]].
      * eapply Forall_impl; [exact Hsound|].
        intros r (? & ? & l & ? & ?). split; [done|]. split; [done|].
        exists l. split; [by right | done].
      * constructor; [|done]. exists readable. split; [done|]. by left.
    + intros Hres. destruct (IH _ _ _ Hres) as (new & -> & Hsound & Hnd & Hall).
      exists (AxpRecord i readable :: new). rewrite <- app_assoc.
      split; [done|]. split; [|split].
      * constructor.
        -- split; [done|]. split; [done|]. exists lits. split; [by left | done].
        -- eapply Forall_impl; [exact Hsound|].
           intros r (? & Hk & l & ? & ?). split; [done|].
           split; [by intros ?; apply Hk; right|].
           exists l. split; [by right | done].
      * rewrite fmap_cons. constructor; [|done]. simpl.
        intros Hin. apply list_elem_of_fmap in Hin as (r & Hkey & Hin).
        rewrite Forall_forall in Hsound.
        destruct (Hsound _ Hin) as (_ & Hk & _). apply Hk. rewrite Hkey. by left.
      * constructor.
        -- exists readable. split; [done|]. right.
           exists (AxpRecord i readable). split; [by left | done].
        -- eapply Forall_impl; [exact Hall|].
           intros l (rd & ? & [Hin|(r & ? & ?)]).
           ++ exists rd. split; [done|].
              apply elem_of_cons in Hin as [Heq|?]; [|by left].
              right. exists (AxpRecord i readable). split; [by left | done].
           ++ exists rd. split; [done|]. right. exists r.
              split; [by right | done].
Qed.

Lemma StronglySorted_le_const (i : nat) (l : list nat) :
  Forall (λ j, j = i) l → StronglySorted le l.
Proof.
  induction 1 as [|j l -> Hl IH]; constructor; [done|].
  eapply Forall_impl; [exact Hl|]. intros k ->. done.
Qed.

(** What [_batch_compute_axps_from] appends to [results]: for each
    instance with matched clauses, one record per enumerated literal set,
    up to the order of the rendered conditions. *)
Lemma batch_from_spec st target_class X : ∀ i0 results res,
  _batch_compute_axps_from st target_class i0 X results = Ok res →
  ∃ new, res = results ++ new ∧
    Forall (λ r, ∃ k x clauses lits,
              X !! k = Some x ∧ instance r = i0 + k ∧
              _satisfied_clauses_for_instance st x target_class = Ok clauses ∧
              lits ∈ _enumerate_axps clauses ∧
              rmap (_literal_to_text st) lits = Ok (axp r)) new ∧
    StronglySorted le (instance <$> new) ∧
    NoDup (record_key <$> new) ∧
    ∀ k x clauses lits,
      X !! k = Some x →
      _satisfied_clauses_for_instance st x target_class = Ok clauses →
      clauses ≠ [] → lits ∈ _enumerate_axps clauses →
      ∃ r readable, r ∈ new ∧ instance r = i0 + k ∧
        rmap (_literal_to_text st) lits = Ok readable ∧
        py_sorted (axp r) = py_sorted readable.
Proof.
  induction X as [|x X IH]; intros i0 results res; simpl.
  - intros [= <-]. exists []. rewrite app_nil_r.
    split; [done|]. split; [done|]. split; [constructor|].
    split; [constructor|]. by intros k x clauses lits.
  - destruct (_satisfied_clauses_for_instance st x target_class)
      as [clauses|] eqn:Hcl; [|done]. cbn [mbind result_bind].
    intros Hres.
    assert (∃ g rest, res = results ++ g ++ rest ∧
              _batch_compute_axps_from st target_class (S i0) X
                (results ++ g) = Ok (results ++ g ++ rest) ∧
              Forall (λ r, instance r = i0 ∧ clauses ≠ [] ∧
                           ∃ lits, lits ∈ _enumerate_axps clauses ∧
                             rmap (_literal_to_text st) lits = Ok (axp r)) g ∧
              NoDup ((λ r, py_sorted (axp r)) <$> g) ∧
              (clauses ≠ [] →
               Forall (λ lits, ∃ readable,
                         rmap (_literal_to_text st) lits = Ok readable ∧
                         ∃ r, r ∈ g ∧ py_sorted (axp r) = py_sorted readable)
                      (_enumerate_axps clauses)))
      as (g & rest & -> & Hrest & Hg & Hgnd & Hgall).
    { destruct clauses as [|c clauses].
      - destruct (IH _ _ _ Hres) as (rest & -> & _).
        exists [], rest. rewrite app_nil_r. simpl.
        split; [done|]. split; [done|]. split; [done|].
        split; [constructor | done].
      - destruct (dedup_axps st i0 (_enumerate_axps (c :: clauses)) [] results)
          as [results'|] eqn:Hd; [|done]. cbn [mbind result_bind] in Hres.
        destruct (dedup_axps_spec _ _ _ _ _ _ Hd) as (g & -> & Hs & Hnd & Hall).
        destruct (IH _ _ _ Hres) as (rest & -> & _).
        exists g, rest. rewrite <- app_assoc.
        split; [done|]. split; [by rewrite app_assoc|]. split; [|split; [done|]].
        + eapply Forall_impl; [exact Hs|].
          intros r (? & _ & l & ? & ?). split; [done|]. split; [done|].
          by exists l.
        + intros _. eapply Forall_impl; [exact Hall|].
          intros l (rd & ? & [Hin|?]); [by apply elem_of_nil in Hin|].
          by exists rd. }
    destruct (IH _ _ _ Hrest) as (rest' & Heq & Hsound & Hsorted & Hnd & Hall).
    rewrite <- app_assoc in Heq. apply app_inv_head in Heq.
    apply app_inv_head in Heq. subst rest'.
    exists (g ++ rest). split; [done|]. split; [|split; [|split]].
    + apply Forall_app. split.
      * eapply Forall_impl; [exact Hg|].
        intros r (Hi & _ & l & ? & ?). exists 0, x, clauses, l.
        rewrite Nat.add_0_r. done.
      * eapply Forall_impl; [exact Hsound|].
        intros r (k & x' & cls & l & ? & ? & ? & ? & ?).
        exists (S k), x', cls, l. split; [done|]. split; [lia | done].
    + rewrite fmap_app. apply StronglySorted_app_2; [| |done].
      * intros i1 i2 H1 H2.
        apply list_elem_of_fmap in H1 as (r1 & -> & H1).
        apply list_elem_of_fmap in H2 as (r2 & -> & H2).
        rewrite Forall_forall in Hg, Hsound.
        destruct (Hg _ H1) as (-> & _).
        destruct (Hsound _ H2) as (k & ? & ? & ? & _ & -> & _). lia.
      * apply (StronglySorted_le_const i0). apply Forall_fmap.
        eapply Forall_impl; [exact Hg|]. by intros r (? & _).
    + rewrite fmap_app. apply NoDup_app. split; [|split; [|done]].
      * apply NoDup_fmap_2_strong.
        -- intros r1 r2 H1 H2 [= _ Hkey].
           apply list_elem_of_lookup in H1 as [j1 H1].
           apply list_elem_of_lookup in H2 as [j2 H2].
           assert (j1 = j2) as ->; [|congruence].
           eapply NoDup_lookup; [exact Hgnd| |].
           ++ rewrite list_lookup_fmap, H1. done.
           ++ rewrite list_lookup_fmap, H2. simpl. by rewrite Hkey.
        -- eapply NoDup_fmap_1. exact Hgnd.
      * intros key H1 H2.
        apply list_elem_of_fmap in H1 as (r1 & -> & H1).
        apply list_elem_of_fmap in H2 as (r2 & [= Hi _] & H2).
        rewrite Forall_forall in Hg, Hsound.
        destruct (Hg _ H1) as (Hi1 & _).
        destruct (Hsound _ H2) as (k & ? & ? & ? & _ & Hi2 & _). lia.
    + intros [|k] x' cls l Hx Hc Hne Hl; simpl in Hx.
      * injection Hx as <-. rewrite Hcl in Hc. injection Hc as <-.
        specialize (Hgall Hne). rewrite Forall_forall in Hgall.
        destruct (Hgall _ Hl) as (rd & Hrd & r & Hr & Hkey).
        exists r, rd. rewrite Forall_forall in Hg.
        destruct (Hg _ Hr) as (-> & _).
        split; [by apply elem_of_app; left|]. split; [lia | done].
      * destruct (Hall _ _ _ _ Hx Hc Hne Hl) as (r & rd & Hr & Hi & ? & ?).
        exists r, rd. split; [by apply elem_of_app; right|].
        split; [lia | done].
Qed.

(** X6. The records returned by [_batch_compute_axps] come in the order
    of the instances, and the deduplication works per instance: no two
    records carry the same instance together with the same sorted
    explanation, so two records of one instance never hold the same
    conditions in a different order. *)
Theorem batch_records_ordered_and_distinct st X target_class results :
  _batch_compute_axps st X target_class = Ok results →
  StronglySorted le (instance <$> results) ∧
  NoDup (record_key <$> results) ∧
  ∀ j k r1 r2,
    results !! j = Some r1 → results !! k = Some r2 → j ≠ k →
    instance r1 = instance r2 → ¬ axp r1 ≡ₚ axp r2.
Proof.
  intros Hres.
  destruct (batch_from_spec _ _ _ _ _ _ Hres) as (new & -> & _ & Hs & Hnd & _).
  simpl. split; [done|]. split; [done|].
  intros j k r1 r2 H1 H2 Hjk Hi Hperm. apply Hjk.
  eapply NoDup_lookup; [exact Hnd| |].
  - rewrite list_lookup_fmap, H1. done.
  - rewrite list_lookup_fmap, H2. simpl. unfold record_key.
    by rewrite Hi, (py_sorted_Permutation _ _ Hperm).
Qed.

(** X7. The records of a batch are exactly the enumerated explanations
    of the instances that match a rule of the target class: every record
    renders a literal set that [_enumerate_axps] yields for the clauses
    matched by its instance, whose index is a position of [X]; and every
    literal set so enumerated is rendered by a record of that instance,
    up to the order of the conditions. *)
Theorem batch_records_are_enumerated_explanations st X target_class results :
  _batch_compute_axps st X target_class = Ok results →
  (∀ r, r ∈ results →
     ∃ x clauses lits,
       X !! instance r = Some x ∧
       _satisfied_clauses_for_instance st x target_class = Ok clauses ∧
       lits ∈ _enumerate_axps clauses ∧
       rmap (_literal_to_text st) lits = Ok (axp r)) ∧
  (∀ k x clauses lits,
     X !! k = Some x →
     _satisfied_clauses_for_instance st x target_class = Ok clauses →
     clauses ≠ [] → lits ∈ _enumerate_axps clauses →
     ∃ r readable, r ∈ results ∧ instance r = k ∧
       rmap (_literal_to_text st) lits = Ok readable ∧
       axp r ≡ₚ readable).
Proof.
  intros Hres.
  destruct (batch_from_spec _ _ _ _ _ _ Hres)
    as (new & -> & Hsound & _ & _ & Hall).
  simpl in *. split.
  - intros r Hr. rewrite Forall_forall in Hsound.
    destruct (Hsound _ Hr) as (k & x & clauses & lits & ? & -> & ? & ? & ?).
    by exists x, clauses, lits.
  - intros k x clauses lits Hx Hc Hne Hl.
    destruct (Hall _ _ _ _ Hx Hc Hne Hl) as (r & rd & ? & ? & ? & Hkey).
    exists r, rd. split; [done|]. split; [done|]. split; [done|].
    unfold py_sorted in Hkey.
    rewrite <- (merge_sort_Permutation str_le (axp r)), Hkey.
    apply merge_sort_Permutation.
Qed.

Lemma rmap_elem_of {A B} (f : A → result B) l ys y :
  rmap f l = Ok ys → y ∈ ys → ∃ x, x ∈ l ∧ f x = Ok y.
Proof.
  revert ys. induction l as [|x l IH]; intros ys; simpl.
  - intros [= <-] Hy. by apply elem_of_nil in Hy.
  - destruct (f x) as [y'|] eqn:Hx; [|done]. simpl.
    destruct (rmap f l) as [ys'|]; [|done]. simpl. intros [= <-] Hy.
    apply elem_of_cons in Hy as [->|Hy].
    + exists x. split; [by left | done].
    + destruct (IH _ eq_refl Hy) as (x' & ? & ?). exists x'.
      split; [by right | done].
Qed.

(** X8. The aggregator never fails on the records of a batch: whatever
    [_batch_compute_axps] returns, [_compute_feature_metrics] turns into
    a metrics table, so that [compute_feature_attribution] can only
    raise while selecting, matching or rendering. *)
Theorem batch_records_can_be_aggregated st X target_class results :
  _batch_compute_axps st X target_class = Ok results →
  ∃ metrics, _compute_feature_metrics results = Ok metrics.
Proof.
  intros Hres.
  destruct (batch_from_spec _ _ _ _ _ _ Hres) as (new & -> & Hsound & _).
  simpl. apply compute_feature_metrics_total.
  eapply Forall_impl; [exact Hsound|].
  intros r (_ & _ & _ & lits & _ & _ & _ & _ & Hr).
  apply Forall_forall. intros text Htext.
  destruct (rmap_elem_of _ _ _ _ Hr Htext) as (lit & _ & Hlit).
  unfold _literal_to_text in Hlit.
  destruct (id_condition_map st !! lit) as [[[feat_idx thresh] direction]|];
    [|done].
  destruct (feature_names st !! feat_idx) as [feat|]; [|done].
  injection Hlit as <-. unfold has_word. eexists.
  apply first_word_rendered; by destruct (decide (direction = 0)).
Qed.

(** ** The counters of the aggregator *)

Lemma bumped_refl (P : Prop) a : ¬ P → bumped P a a.
Proof. by split. Qed.

Lemma rmap_Ok_Forall2 {A B} (f : A → result B) l ys :
  rmap f l = Ok ys → Forall2 (λ x y, f x = Ok y) l ys.
Proof.
  revert ys. induction l as [|x l IH]; intros ys; simpl.
  - intros [= <-]. constructor.
  - destruct (f x) as [y|] eqn:Hx; [|done]. simpl.
    destruct (rmap f l) as [ys'|]; [|done]. simpl. intros [= <-].
    constructor; [done | by apply IH].
Qed.

Lemma elem_of_foldl_intersection (s : gset string) rest f :
  f ∈ foldl (∩) s rest ↔ f ∈ s ∧ Forall (λ s', f ∈ s') rest.
Proof.
  revert s. induction rest as [|s' rest IH]; intros s; simpl.
  - rewrite Forall_nil. naive_solver.
  - rewrite IH, Forall_cons, elem_of_intersection. naive_solver.
Qed.

Lemma elem_of_intersection_all feature_sets f :
  f ∈ intersection_all feature_sets ↔
  feature_sets ≠ [] ∧ Forall (λ s, f ∈ s) feature_sets.
Proof.
  destruct feature_sets as [|s rest]; simpl.
  - rewrite elem_of_empty. naive_solver.
  - rewrite elem_of_foldl_intersection, Forall_cons. naive_solver.
Qed.

(** The feature sets of a tokenised group, in terms of [mentions]. *)
Lemma tokenised_sets axp_list features f :
  rmap (rmap first_word) axp_list = Ok features →
  (features ≠ [] ↔ axp_list ≠ []) ∧
  (Forall (λ s : gset string, f ∈ s) (list_to_set <$> features) ↔
   Forall (mentions f) axp_list) ∧
  (Exists (λ s : gset string, f ∉ s) (list_to_set <$> features) ↔
   Exists (λ a, ¬ mentions f a) axp_list).
Proof.
  intros Htok. apply rmap_Ok_Forall2 in Htok.
  induction Htok as [|a ws axp_list features Ha _ IH].
  - simpl. rewrite !Forall_nil, !Exists_nil. done.
  - destruct IH as (_ & IHall & IHex). split; [done|].
    rewrite fmap_cons, !Forall_cons, !Exists_cons, IHall, IHex.
    rewrite elem_of_list_to_set, (rmap_first_word _ _ f Ha). done.
Qed.

Lemma count_essential_counts t (X : gset string) f :
  let t' := set_fold count_essential t X in
  bumped (f ∈ X) (essentiality t !!! f) (essentiality t' !!! f) ∧
  contrastiveness t' = contrastiveness t.
Proof.
  cbv zeta.
  apply (set_fold_ind_L (λ r Y,
    bumped (f ∈ Y) (essentiality t !!! f) (essentiality r !!! f) ∧
    contrastiveness r = contrastiveness t)).
  - split; [|done]. apply bumped_refl. set_solver.
  - intros x Y r Hx [[Hin Hout] Hc]. split; [|done]. simpl.
    rewrite lookup_total_incr. unfold bumped.
    destruct (decide (f = x)) as [->|Hne].
    + rewrite (Hout Hx). set_solver.
    + split; [intros Hf; apply Hin | intros Hf; apply Hout]; set_solver.
Qed.

Lemma count_feature_counts i feature_sets t (X : gset string) f :
  let t' := set_fold (count_feature i feature_sets) t X in
  essentiality t' = essentiality t ∧
  bumped (f ∈ X) (support_counter t !!! f) (support_counter t' !!! f) ∧
  bumped (f ∈ X ∧ Exists (λ s, f ∉ s) feature_sets)
         (contrastiveness t !!! f) (contrastiveness t' !!! f).
Proof.
  cbv zeta.
  apply (set_fold_ind_L (λ r Y,
    essentiality r = essentiality t ∧
    bumped (f ∈ Y) (support_counter t !!! f) (support_counter r !!! f) ∧
    bumped (f ∈ Y ∧ Exists (λ s, f ∉ s) feature_sets)
           (contrastiveness t !!! f) (contrastiveness r !!! f))).
  - split; [done|]. split; apply bumped_refl; set_solver.
  - intros x Y r Hx (He & [Hsin Hsout] & [Hcin Hcout]).
    split; [done|]. simpl. split.
    + rewrite lookup_total_incr. unfold bumped.
      destruct (decide (f = x)) as [->|Hne].
      * rewrite (Hsout Hx). set_solver.
      * split; [intros Hf; apply Hsin | intros Hf; apply Hsout]; set_solver.
    + assert (existsb (λ fs, bool_decide (x ∉ fs)) feature_sets = true ↔
              Exists (λ s, x ∉ s) feature_sets) as Hex.
      { rewrite <- Is_true_true, existb_True, !Exists_exists.
        by setoid_rewrite bool_decide_spec. }
      unfold bumped.
      destruct (existsb (λ fs, bool_decide (x ∉ fs)) feature_sets).
      * rewrite lookup_total_incr. destruct (decide (f = x)) as [->|Hne].
        -- rewrite Hcout by set_solver. set_solver.
        -- split; [intros Hf; apply Hcin | intros Hf; apply Hcout];
             set_solver.
      * assert (¬ Exists (λ s, x ∉ s) feature_sets) as Hno.
        { intros Hf. by apply Hex in Hf. }
        destruct (decide (f = x)) as [->|Hne].
        -- rewrite Hcout by set_solver. split; [tauto | done].
        -- split; [intros Hf; apply Hcin | intros Hf; apply Hcout];
             set_solver.
Qed.

(** One pass of the loop body: the three counters of [f] move by at
    most one, according to how [f] occurs in the group. *)
Lemma count_instance_counts i axp_list t t' f :
  count_instance i axp_list t = Ok t' →
  bumped (axp_list ≠ [] ∧ Forall (mentions f) axp_list)
         (essentiality t !!! f) (essentiality t' !!! f) ∧
  bumped (Exists (mentions f) axp_list)
         (support_counter t !!! f) (support_counter t' !!! f) ∧
  bumped (Exists (mentions f) axp_list ∧
          Exists (λ a, ¬ mentions f a) axp_list)
         (contrastiveness t !!! f) (contrastiveness t' !!! f).
Proof.
  unfold count_instance.
  destruct (rmap (rmap first_word) axp_list) as [features|] eqn:Htok; [|done].
  cbn [mbind result_bind]. intros [= <-].
  destruct (tokenised_sets _ _ f Htok) as (Hne & Hall & Hex).
  pose proof (rmap_rmap_first_word _ _ f Htok) as Hocc.
  assert (f ∈ mjoin features ↔ Exists (mentions f) axp_list) as Hocc'.
  { rewrite Hocc, Exists_exists. done. }
  pose proof (count_essential_counts t
                (intersection_all (list_to_set <$> features)) f) as [He Hc].
  pose proof (count_essential_fold t
                (intersection_all (list_to_set <$> features))) as [Hs _].
  pose proof (count_feature_counts i (list_to_set <$> features)
                (set_fold count_essential t
                          (intersection_all (list_to_set <$> features)))
                (list_to_set (mjoin features)) f) as (He' & Hs' & Hc').
  cbv zeta in *. rewrite He'. rewrite Hs, Hc in *. clear He' Hs Hc.
  unfold bumped in *.
  rewrite elem_of_intersection_all, Hall in He.
  rewrite elem_of_list_to_set, Hocc' in Hs', Hc'. rewrite Hex in Hc'.
  assert ((list_to_set <$> features : list (gset string)) ≠ [] ↔
          axp_list ≠ []) as Hne'.
  { rewrite <- Hne. by destruct features. }
  rewrite Hne' in He. done.
Qed.

Lemma counts_empty Q : counts Q ∅ 0.
Proof.
  exists ∅. split; [done|]. intros i. rewrite elem_of_empty. split; [done|].
  intros (l & Hl & _). by rewrite lookup_empty in Hl.
Qed.

Lemma counts_insert (Q : list (list string) → Prop) groups i l a b :
  Decision (Q l) →
  groups !! i = None →
  counts Q groups a → bumped (Q l) a b → counts Q (<[i := l]> groups) b.
Proof.
  intros HQ Hfresh (E & -> & HE) [Hin Hout].
  assert (i ∉ E) as Hi.
  { rewrite HE. intros (l' & Hl' & _). congruence. }
  destruct HQ as [Hq|Hq].
  - exists ({[i]} ∪ E). split.
    + rewrite (Hin Hq), size_union, size_singleton by set_solver. done.
    + intros j. rewrite elem_of_union, elem_of_singleton, HE.
      destruct (decide (j = i)) as [->|Hne].
      * rewrite lookup_insert_eq. split; [|by left]. intros _. by exists l.
      * rewrite lookup_insert_ne by done. naive_solver.
  - exists E. split; [by apply Hout|].
    intros j. rewrite HE. destruct (decide (j = i)) as [->|Hne].
    + rewrite lookup_insert_eq, Hfresh. split.
      * by intros (l' & ? & _).
      * intros (l' & [= <-] & ?). done.
    + by rewrite lookup_insert_ne.
Qed.

(** What the counters hold once every group has been counted. *)
Lemma count_groups_counts (groups : gmap nat (list (list string))) t f :
  map_fold (λ instance_id axp_list rt,
              t ← rt; count_instance instance_id axp_list t)
           (Ok (Trackers ∅ ∅ ∅ ∅)) groups = Ok t →
  counts (λ l, l ≠ [] ∧ Forall (mentions f) l) groups (essentiality t !!! f) ∧
  counts (λ l, Exists (mentions f) l) groups (support_counter t !!! f) ∧
  counts (λ l, Exists (mentions f) l ∧ Exists (λ a, ¬ mentions f a) l)
         groups (contrastiveness t !!! f).
Proof.
  revert t.
  apply (map_fold_weak_ind (λ rt groups, ∀ t, rt = Ok t →
    counts (λ l, l ≠ [] ∧ Forall (mentions f) l) groups
           (essentiality t !!! f) ∧
    counts (λ l, Exists (mentions f) l) groups (support_counter t !!! f) ∧
    counts (λ l, Exists (mentions f) l ∧ Exists (λ a, ¬ mentions f a) l)
           groups (contrastiveness t !!! f))).
  - intros t [= <-]. simpl. rewrite !lookup_total_empty.
    split; [|split]; apply counts_empty.
  - intros i l m rt Hfresh IH t'. destruct rt as [t|]; [|done].
    cbn [mbind result_bind]. intros Hstep.
    destruct (IH t eq_refl) as (He & Hs & Hc).
    destruct (count_instance_counts _ _ _ _ f Hstep) as (He' & Hs' & Hc').
    split; [|split].
    + eapply (counts_insert (λ l, l ≠ [] ∧ Forall (mentions f) l)); eauto.
      apply _.
    + eapply (counts_insert (λ l, Exists (mentions f) l)); eauto. apply _.
    + eapply (counts_insert
                (λ l, Exists (mentions f) l ∧
                      Exists (λ a, ¬ mentions f a) l)); eauto.
      apply _.
Qed.

Lemma counts_size Q groups n (S : gset nat) :
  counts Q groups n →
  (∀ i, i ∈ S ↔ ∃ l, groups !! i = Some l ∧ Q l) →
  n = size S.
Proof.
  intros (E & -> & HE) HS. f_equal. apply set_eq. intros i.
  by rewrite HE, HS.
Qed.

Lemma elem_of_explained_instances axps i :
  i ∈ explained_instances axps ↔ ∃ a, a ∈ axps ∧ instance a = i.
Proof.
  unfold explained_instances. rewrite elem_of_list_to_set, list_elem_of_fmap.
  naive_solver.
Qed.

Lemma elem_of_essential_instances f axps i :
  i ∈ essential_instances f axps ↔
  (∃ a, a ∈ axps ∧ instance a = i) ∧
  ∀ a, a ∈ axps → instance a = i → mentions f (axp a).
Proof.
  unfold essential_instances.
  rewrite elem_of_filter, elem_of_explained_instances, Forall_forall.
  naive_solver.
Qed.

(** The group of an instance holds the explanations of its records, and
    there is a group exactly for the instances that have a record. *)
Lemma instance_groups_spec axps i :
  (∀ l, instance_groups axps !! i = Some l →
     l ≠ [] ∧ ∀ P : list string → Prop,
       (Forall P l ↔ ∀ a, a ∈ axps → instance a = i → P (axp a)) ∧
       (Exists P l ↔ ∃ a, a ∈ axps ∧ instance a = i ∧ P (axp a))) ∧
  (is_Some (instance_groups axps !! i) ↔ ∃ a, a ∈ axps ∧ instance a = i).
Proof.
  split.
  - intros l Hl. pose proof (instance_groups_lookup _ _ _ Hl) as Hin.
    split.
    + destruct (instance_groups_from axps ∅ i) as [_ Hs].
      fold (instance_groups axps) in Hs.
      destruct Hs as [Hs _]. destruct Hs as [[]|(a & Ha & Hi)];
        [by rewrite Hl | by rewrite lookup_empty in H |].
      intros ->. 
      assert (axp a ∈ ([] : list (list string))) as Hnil
        by (apply Hin; by exists a).
      by apply elem_of_nil in Hnil.
    + intros P. rewrite Forall_forall, Exists_exists. split.
      * split.
        -- intros HP a Ha Hi. apply HP, Hin. by exists a.
        -- intros HP a' Ha'. apply Hin in Ha' as (a & ? & ? & <-). by apply HP.
      * split.
        -- intros (a' & Ha' & HP). apply Hin in Ha' as (a & ? & ? & <-).
           by exists a.
        -- intros (a & ? & ? & HP). exists (axp a). split; [|done].
           apply Hin. by exists a.
  - destruct (instance_groups_from axps ∅ i) as [_ Hs].
    fold (instance_groups axps) in Hs. rewrite Hs, lookup_empty.
    split; [|by right]. by intros [[]|?].
Qed.

Lemma compile_metrics_counters n t f r :
  compile_metrics n t !! f = Some r →
  support r = support_counter t !!! f ∧
  contrastive_instances r = contrastiveness t !!! f ∧
  essentiality_ratio r =
    if decide (0 < n)
    then (Qc_of_nat (essentiality t !!! f) / Qc_of_nat n)%Qc else 0%Qc.
Proof.
  unfold compile_metrics. rewrite map_lookup_imap.
  destruct (support_counter t !! f) as [s|] eqn:Hs; [|done]. simpl.
  intros [= <-]. simpl. by rewrite (lookup_total_correct _ _ _ Hs).
Qed.

(** The counters of a feature, read off the records. *)
Lemma symbolic_counters axps metrics f r :
  _compute_feature_metrics axps = Ok metrics →
  metrics !! f = Some r →
  support r = size (instances_with f axps) ∧
  contrastive_instances r =
    size (instances_with f axps ∖ essential_instances f axps) ∧
  essentiality_ratio r =
    (Qc_of_nat (size (essential_instances f axps))
     / Qc_of_nat (size (explained_instances axps)))%Qc.
Proof.
  intros Hm Hr.
  destruct (proj1 (symbolic_rows _ _ f Hm) (mk_is_Some _ _ Hr))
    as (a0 & Ha0 & _).
  revert Hm Hr. unfold _compute_feature_metrics.
  destruct (map_fold _ _ (instance_groups axps)) as [t|] eqn:Hfold; [|done].
  cbn [mbind result_bind]. intros [= <-] Hr.
  apply compile_metrics_counters in Hr as (-> & -> & ->).
  destruct (count_groups_counts _ _ f Hfold) as (He & Hs & Hc).
  assert (size (instance_groups axps) = size (explained_instances axps))
    as Hsize.
  { rewrite <- size_dom. f_equal. apply set_eq. intros i.
    rewrite elem_of_dom, elem_of_explained_instances.
    apply instance_groups_spec. }
  assert (0 < size (instance_groups axps)) as Hpos.
  { rewrite Hsize.
    assert (size (explained_instances axps) ≠ 0) as Hne; [|lia].
    apply size_non_empty_iff. intros Hempty.
    apply (not_elem_of_empty (C:=gset nat) (instance a0)).
    rewrite <- Hempty. apply elem_of_explained_instances. by exists a0. }
  destruct (decide (0 < size (instance_groups axps))) as [_|?]; [|lia].
  rewrite Hsize.
  split; [|split].
  - apply (counts_size _ _ _ _ Hs). intros i.
    rewrite elem_of_instances_with. split.
    + intros (a & Ha & Hi & Hm).
      assert (is_Some (instance_groups axps !! i)) as [l Hl]
        by (apply instance_groups_spec; by exists a).
      exists l. split; [done|].
      apply (proj1 (instance_groups_spec axps i) l Hl). by exists a.
    + intros (l & Hl & Hm).
      by apply (proj1 (instance_groups_spec axps i) l Hl) in Hm.
  - apply (counts_size _ _ _ _ Hc). intros i.
    rewrite elem_of_difference, elem_of_instances_with,
      elem_of_essential_instances. split.
    + intros [(a & Ha & Hi & Hm) Hne].
      assert (is_Some (instance_groups axps !! i)) as [l Hl]
        by (apply instance_groups_spec; by exists a).
      destruct (proj1 (instance_groups_spec axps i) l Hl) as [_ HP].
      exists l. split; [done|]. split; [apply HP; by exists a|].
      apply not_Forall_Exists; [apply _|]. intros Hall. apply Hne.
      split; [by exists a|]. by apply HP.
    + intros (l & Hl & Hm & Hn).
      destruct (proj1 (instance_groups_spec axps i) l Hl) as [_ HP].
      split; [by apply HP in Hm|]. intros [_ Hall].
      apply HP in Hn as (a & ? & ? & Hna). by apply Hna, Hall.
  - do 2 f_equal. apply (counts_size _ _ _ _ He). intros i.
    rewrite elem_of_essential_instances. split.
    + intros [(a & Ha & Hi) Hall].
      assert (is_Some (instance_groups axps !! i)) as [l Hl]
        by (apply instance_groups_spec; by exists a).
      destruct (proj1 (instance_groups_spec axps i) l Hl) as [Hne HP].
      exists l. split; [done|]. split; [done|]. by apply HP.
    + intros (l & Hl & _ & Hall).
      destruct (proj1 (instance_groups_spec axps i) l Hl) as [_ HP].
      split; [|by apply HP].
      apply instance_groups_spec. by exists l.
Qed.

(** X9. In the table of [_compute_feature_metrics] the support of a
    feature is the number of distinct instances in which the feature
    occurs: the counter is incremented once per instance, however many
    explanations of that instance contain the feature, so that support
    and coverage always coincide. *)
Theorem support_counts_instances axps metrics f r :
  _compute_feature_metrics axps = Ok metrics →
  metrics !! f = Some r →
  support r = size (instances_with f axps) ∧ support r = coverage r.
Proof.
  intros Hm Hr. destruct (symbolic_counters _ _ _ _ Hm Hr) as (Hs & _).
  by rewrite (symbolic_coverage _ _ _ _ Hm Hr).
Qed.

(** X10. The essentiality ratio of a feature is the number of instances
    all of whose explanations contain the feature, divided by the number
    of instances that have an explanation. *)
Theorem essentiality_ratio_counts_instances axps metrics f r :
  _compute_feature_metrics axps = Ok metrics →
  metrics !! f = Some r →
  essentiality_ratio r =
    (Qc_of_nat (size (essential_instances f axps))
     / Qc_of_nat (size (explained_instances axps)))%Qc.
Proof.
  intros Hm Hr. by destruct (symbolic_counters _ _ _ _ Hm Hr) as (_ & _ & ?).
Qed.

(** X11. The contrastive count of a feature is the number of instances
    in which the feature occurs in some explanation but not in all of
    them; together with the instances in which it occurs in every
    explanation they make up the coverage. *)
Theorem contrastive_counts_instances axps metrics f r :
  _compute_feature_metrics axps = Ok metrics →
  metrics !! f = Some r →
  contrastive_instances r =
    size (instances_with f axps ∖ essential_instances f axps) ∧
  contrastive_instances r + size (essential_instances f axps) = coverage r.
Proof.
  intros Hm Hr. destruct (symbolic_counters _ _ _ _ Hm Hr) as (_ & Hc & _).
  split; [done|]. rewrite Hc, (symbolic_coverage _ _ _ _ Hm Hr).
  assert (essential_instances f axps ⊆ instances_with f axps) as Hsub.
  { intros i. rewrite elem_of_essential_instances, elem_of_instances_with.
    intros [(a & Ha & Hi) Hall]. exists a. auto. }
  rewrite <- size_union by set_solver. f_equal. apply set_eq. intros i.
  rewrite elem_of_union, elem_of_difference.
  destruct (decide (i ∈ essential_instances f axps)); set_solver.
Qed.

(** ** The support column of the legacy aggregator *)

Lemma record_condition_stats idx fs cond fs' seen :
  CatBoostAXPExplainer.record_condition idx fs cond = Ok fs' →
  stats_ok seen fs → stats_ok (seen ++ [cond]) fs'.
Proof.
  unfold CatBoostAXPExplainer.record_condition.
  destruct (first_word cond) as [w|] eqn:Hw; [|done]. simpl.
  intros [= <-] Hok f. specialize (Hok f).
  rewrite filter_app, filter_cons, filter_nil.
  destruct (decide (f = w)) as [->|Hne].
  - rewrite lookup_insert_eq. simpl.
    destruct (decide (first_word cond = Ok w)); [|done].
    destruct (fs !! w) as [s|]; simpl.
    + destruct Hok as (-> & -> & _). rewrite !length_app. simpl.
      split; [done|]. split; lia.
    + rewrite Hok. simpl. split; [done|]. split; lia.
  - rewrite lookup_insert_ne by done.
    destruct (decide (first_word cond = Ok f)); [congruence|].
    by rewrite app_nil_r.
Qed.

Lemma record_conditions_stats idx conds : ∀ fs fs' seen,
  rfoldl (CatBoostAXPExplainer.record_condition idx) fs conds = Ok fs' →
  stats_ok seen fs → stats_ok (seen ++ conds) fs'.
Proof.
  induction conds as [|cond conds IH]; intros fs fs' seen; simpl.
  - intros [= <-]. by rewrite app_nil_r.
  - destruct (CatBoostAXPExplainer.record_condition idx fs cond)
      as [fs1|] eqn:H1; [|done]. simpl.
    intros Hrest Hok. change (cond :: conds) with ([cond] ++ conds).
    rewrite app_assoc.
    eapply IH; [exact Hrest|]. by eapply record_condition_stats.
Qed.

Lemma collect_stats_stats axps : ∀ fs fs' seen,
  rfoldl (λ feature_stats a,
            rfoldl (CatBoostAXPExplainer.record_condition
                      (CatBoostAXPExplainer.instance_idx a))
                   feature_stats (CatBoostAXPExplainer.conditions a))
         fs axps = Ok fs' →
  stats_ok seen fs →
  stats_ok (seen ++ mjoin (CatBoostAXPExplainer.conditions <$> axps)) fs'.
Proof.
  induction axps as [|a axps IH]; intros fs fs' seen; simpl.
  - intros [= <-]. by rewrite app_nil_r.
  - destruct (rfoldl _ fs (CatBoostAXPExplainer.conditions a))
      as [fs1|] eqn:H1; [|done]. simpl.
    intros Hrest Hok. rewrite app_assoc.
    eapply IH; [exact Hrest|]. by eapply record_conditions_stats.
Qed.

(** X12. In the metrics of the legacy aggregator a feature has a row
    exactly when some condition starts with it; the row lists those
    conditions in the order of the records, and its support is their
    number, so that a feature is counted once per condition, several
    times for one instance if need be. *)
Theorem legacy_support_counts_conditions axps metrics f :
  CatBoostAXPExplainer._compute_feature_metrics axps = Ok metrics →
  (is_Some (metrics !! f) ↔ occurrences f axps ≠ []) ∧
  ∀ r, metrics !! f = Some r →
    CatBoostAXPExplainer.row_conditions r = occurrences f axps ∧
    CatBoostAXPExplainer.support r = length (occurrences f axps).
Proof.
  unfold CatBoostAXPExplainer._compute_feature_metrics.
  destruct (CatBoostAXPExplainer.collect_stats axps) as [fs|] eqn:Hfs; [|done].
  cbn [mbind result_bind]. intros [= <-].
  assert (stats_ok [] (∅ : gmap string CatBoostAXPExplainer.stats)) as Hinit.
  { intros g. by rewrite lookup_empty. }
  pose proof (collect_stats_stats _ _ _ _ Hfs Hinit f) as Hok.
  simpl in Hok. fold (occurrences f axps) in Hok.
  rewrite lookup_fmap. destruct (fs !! f) as [s|]; simpl.
  - destruct Hok as (Hc & Hn & Hpos). split.
    + split; [|by eexists]. intros _ Hnil.
      rewrite <- Hc in Hnil. rewrite Hnil in Hn. simpl in Hn. lia.
    + intros r [= <-]. simpl. by rewrite Hn, Hc.
  - split; [|done]. split; [by intros []|]. by rewrite Hok.
Qed.

(** ** The parser of the tree-rules file *)

(** Induction on the nodes of a tree, through the children that are
    present. *)
Lemma rule_node_induction (P : rule_node → Prop) :
  (∀ v, P (ValueNode v)) → P EmptyNode →
  (∀ s l r, from_option P True l → from_option P True r →
            P (SplitNode s l r)) →
  ∀ nd, P nd.
Proof.
  intros Hv He Hs. fix IH 1. intros [v| |s l r]; [apply Hv|apply He|].
  apply Hs; [destruct l as [n|] | destruct r as [n|]]; simpl;
    try exact I; apply IH.
Qed.







Lemma feature_entries_complete ffs :
  feature_entries ((λ f, (Some f.1, Some f.2)) <$> ffs) = Some ffs.
Proof.
  induction ffs as [|[i name] ffs IH]; [done|].
  rewrite fmap_cons. cbn [feature_entries fst snd]. by rewrite IH.
Qed.

Lemma traverse_as_node nd : ∀ n path conditions st,
  as_node nd = Some n →
  traverse nd conditions st =
  (_traverse_non_oblivious_tree n path conditions st, None).
Proof.
  induction nd as [v| |s l r IHl IHr] using rule_node_induction;
    intros n path conditions st.
  - simpl. intros [= <-]. simpl.
    by destruct (intern_conditions st conditions).
  - done.
  - destruct l as [l|], r as [r|]; try by destruct s as [[?|] [?|]|[?|] [?|]|[?|] [?|]|].
    simpl in IHl, IHr. cbn [as_node].
    destruct (read_split s) as [f t| |] eqn:Hs; [|done..].
    destruct (as_node l) as [l'|] eqn:Hl; [|done].
    destruct (as_node r) as [r'|] eqn:Hr; [|done]. intros [= <-].
    assert (traverse (SplitNode s (Some l) (Some r)) conditions st =
            match traverse l (conditions ++ [(f, t, 0)]) st with
            | (st1, Some e) => (st1, Some e)
            | (st1, None) => traverse r (conditions ++ [(f, t, 1)]) st1
            end) as ->.
    { by destruct s as [[?|] [?|]|[?|] [?|]|[?|] [?|]|]; simplify_eq/=. }
    rewrite (IHl l' (path ++ [0]) _ _ eq_refl).
    by rewrite (IHr r' (path ++ [1]) _ _ eq_refl).
Qed.

Lemma process_trees_as_nodes rule_trees nodes :
  Forall2 (λ tree n, as_node tree = Some n) rule_trees nodes →
  ∀ st, process_trees rule_trees st =
        (foldl (λ s n, _traverse_non_oblivious_tree n [] [] s) st nodes, None).
Proof.
  induction 1 as [|tree n rule_trees nodes Hn _ IH]; intros st; [done|].
  simpl. unfold _process_tree. rewrite (traverse_as_node _ _ [] [] st Hn).
  apply IH.
Qed.


(** X14. On trees in which every split is of a handled type and has its
    keys and both children, and every branch ends in a value, loading
    the tree-rules file leaves the explainer exactly as
    [fit_from_model_json] leaves it for the model JSON with the same
    feature table and the same trees, each split read as a threshold on
    the index it tests: OneHotFeature and OnlineCtr splits are
    registered, and later evaluated, as the numeric conditions [<=] and
    [>] on the column of that index. *)
Theorem tree_rules_agree_with_model_json st path ffs rule_trees nodes other :
  path ≠ EmptyString →
  Forall2 (λ tree n, as_node tree = Some n) rule_trees nodes →
  load_tree_rules st (Some path)
    (ReadOk (JsonDict
       (TreeRulesJson (Some ((λ f, (Some f.1, Some f.2)) <$> ffs))
                      (Some rule_trees) other))) =
  ((fit_from_model_json st (ModelJson (Some ffs) false (Some nodes))).1, None) ∧
  (fit_from_model_json st (ModelJson (Some ffs) false (Some nodes))).2 = None.
Proof.
  intros Hpath Hnodes. split; [|done].
  unfold load_tree_rules. destruct path as [|c path]; [done|].
  simpl. rewrite feature_entries_complete.
  unfold _process_tree_rules, fit_from_model_json. simpl.
  apply (process_trees_as_nodes _ _ Hnodes).
Qed.




(** ** Input validation *)

Lemma elem_of_np_unique c predictions :
  c ∈ np_unique predictions ↔ c ∈ predictions.
Proof.
  unfold np_unique. by rewrite merge_sort_Permutation, elem_of_remove_dups.
Qed.

Lemma binary_split {A} (l : list (A * nat)) :
  Forall (λ xp, xp.2 = 0 ∨ xp.2 = 1) l →
  length (filter (λ xp, xp.2 = 0) l) + length (filter (λ xp, xp.2 = 1) l)
  = length l.
Proof.
  induction 1 as [|[x p] l [Hp|Hp] _ IH]; [done| |]; simpl in Hp; subst p;
    rewrite !filter_cons; simpl; lia.
Qed.

(** X16. [validate_input_data] returns without an exception exactly when
    the features and the predictions have the same length, every feature
    name of the explainer is a column of the data frame, if the features
    come as one, and every prediction is 0 or 1.  The rows of an accepted
    input can be selected for both classes, and each row belongs to
    exactly one of the two selections, so that the attribution per class
    leaves no instance out. *)
Theorem validated_input_splits_in_two st X columns predictions :
  (validate_input_data st X columns predictions = None ↔
     length X = length predictions ∧
     (∀ cols feat_idx name,
        columns = Some cols → feature_names st !! feat_idx = Some name →
        name ∈ cols) ∧
     Forall (λ c, c = 0 ∨ c = 1) predictions) ∧
  (validate_input_data st X columns predictions = None →
   ∃ X0 X1,
     select_class X predictions 0 = Ok X0 ∧
     select_class X predictions 1 = Ok X1 ∧
     length X0 + length X1 = length X).
Proof.
  assert (validate_input_data st X columns predictions = None ↔
     length X = length predictions ∧
     (∀ cols feat_idx name,
        columns = Some cols → feature_names st !! feat_idx = Some name →
        name ∈ cols) ∧
     Forall (λ c, c = 0 ∨ c = 1) predictions) as Hiff.
  { unfold validate_input_data.
    destruct (decide (length X ≠ length predictions)) as [Hne|Heq].
    { split; [done|]. by intros [? _]. }
    apply dec_stable in Heq.
    assert (forallb (λ c, bool_decide (c ∈ [0; 1])) (np_unique predictions)
            = true ↔ Forall (λ c, c = 0 ∨ c = 1) predictions) as Hbin.
    { rewrite <- Is_true_true, forallb_True, !Forall_forall.
      setoid_rewrite elem_of_np_unique. setoid_rewrite bool_decide_spec.
      set_solver. }
    assert ((if forallb (λ c, bool_decide (c ∈ [0; 1]))
                        (np_unique predictions)
             then None else Some predictions_not_binary) = None ↔
            Forall (λ c, c = 0 ∨ c = 1) predictions) as Hlast.
    { rewrite <- Hbin.
      by destruct (forallb _ (np_unique predictions)). }
    destruct columns as [cols|]; cbv zeta.
    - destruct (decide (map_img (feature_names st) ∖ list_to_set cols
                        ≠ (∅ : gset string))) as [Hmiss|Hnone].
      + split; [done|]. intros (_ & Hcols & _). exfalso. apply Hmiss.
        apply set_eq. intros name.
        rewrite elem_of_difference, elem_of_map_img, elem_of_list_to_set.
        split; [|set_solver]. intros [[i Hi] Hnot]. destruct Hnot. eauto.
      + apply dec_stable in Hnone. rewrite Hlast.
        split; [|naive_solver]. intros Hbinary.
        split; [done|]. split; [|done].
        intros cols' i name [= <-] Hi.
        destruct (decide (name ∈ cols)) as [|Hnot]; [done|]. exfalso.
        apply (not_elem_of_empty (C:=gset string) name). rewrite <- Hnone.
        rewrite elem_of_difference, elem_of_map_img, elem_of_list_to_set.
        eauto.
    - rewrite Hlast. naive_solver. }
  split; [done|]. intros Hvalid. apply Hiff in Hvalid as (Hlen & _ & Hbin).
  unfold select_class. destruct (decide (predictions = [])) as [->|Hne].
  { exists [], []. destruct X; done. }
  destruct (decide (length predictions = length X)); [|congruence].
  eexists _, _. split; [done|]. split; [done|].
  rewrite !length_fmap, binary_split, length_zip; [lia|].
  apply Forall_forall. intros [x p] Hin. simpl.
  rewrite Forall_forall in Hbin. apply Hbin.
  apply list_elem_of_lookup in Hin as [k Hk].
  apply lookup_zip_with_Some in Hk as (x' & p' & [= <- <-] & _ & Hp).
  by eapply list_elem_of_lookup_2.
Qed.

(** ** Attribution per class *)

Lemma attribution_from st X predictions labels :
  ∀ results0 results : gmap nat (gmap string feature_metrics),
  rfoldl (λ results label,
            X_class ← select_class X predictions label;
            axps ← _batch_compute_axps st X_class label;
            metrics ← _compute_feature_metrics axps;
            Ok (<[label := metrics]> results))
         results0 labels = Ok results →
  Forall (λ label, ∃ metrics,
            class_metrics st X predictions label = Ok metrics) labels ∧
  ∀ label,
    results !! label =
    if decide (label ∈ labels)
    then match class_metrics st X predictions label with
         | Ok metrics => Some metrics
         | Raise _ => None
         end
    else results0 !! label.
Proof.
  induction labels as [|l labels IH]; intros results0 results; simpl.
  - intros [= <-]. split; [constructor|]. intros label.
    destruct (decide (label ∈ [])) as [Hin|]; [|done].
    by apply elem_of_nil in Hin.
  - destruct (select_class X predictions l) as [X_class|] eqn:Hsel; [|done].
    cbn [mbind result_bind].
    destruct (_batch_compute_axps st X_class l) as [axps|] eqn:Hb; [|done].
    cbn [mbind result_bind].
    destruct (_compute_feature_metrics axps) as [metrics|] eqn:Hm; [|done].
    cbn [mbind result_bind]. intros Hrest.
    assert (class_metrics st X predictions l = Ok metrics) as Hl.
    { unfold class_metrics. rewrite Hsel. cbn [mbind result_bind].
      rewrite Hb. cbn [mbind result_bind]. done. }
    destruct (IH _ _ Hrest) as [Hall Hlook]. split.
    + constructor; [by exists metrics | done].
    + intros label. rewrite Hlook.
      destruct (decide (label ∈ labels)) as [Hin|Hnotin].
      * rewrite decide_True by (by right). done.
      * destruct (decide (label = l)) as [->|Hne].
        -- rewrite decide_True by (by left).
           by rewrite lookup_insert_eq, Hl.
        -- rewrite lookup_insert_ne by done.
           rewrite decide_False; [done|].
           intros [?|?]%elem_of_cons; done.
Qed.

Lemma attribution_total st X predictions labels :
  ∀ results0 : gmap nat (gmap string feature_metrics),
  Forall (λ label, ∃ metrics,
            class_metrics st X predictions label = Ok metrics) labels →
  ∃ results,
    rfoldl (λ results label,
              X_class ← select_class X predictions label;
              axps ← _batch_compute_axps st X_class label;
              metrics ← _compute_feature_metrics axps;
              Ok (<[label := metrics]> results))
           results0 labels = Ok results.
Proof.
  induction labels as [|l labels IH]; intros results0 Hall; simpl.
  - by eexists.
  - apply Forall_cons in Hall as [[metrics Hl] Hall].
    unfold class_metrics in Hl.
    destruct (select_class X predictions l) as [X_class|]; [|done].
    cbn [mbind result_bind] in *.
    destruct (_batch_compute_axps st X_class l) as [axps|]; [|done].
    cbn [mbind result_bind] in *. rewrite Hl. cbn [mbind result_bind].
    by apply IH.
Qed.

Lemma compute_feature_metrics_nil : _compute_feature_metrics [] = Ok ∅.
Proof. by vm_compute. Qed.

(** X17. For an array [X], when [compute_feature_attribution] returns,
    its result has a table for each requested class label and for no
    other, the labels 0 and 1 when none is requested; the table of a
    label is the metrics of the batch of the rows predicted as that
    label, whatever the order of the labels and however often a label is
    repeated.  With at least one label, it raises [IndexError] when the
    predictions are not empty and differ from [X] in length; with empty
    predictions it returns an empty table for every label, whatever [X]
    holds, because numpy lets an empty mask select no row. *)
Theorem attribution_has_one_table_per_label st X predictions class_labels :
  let labels := default [0; 1] class_labels in
  (∀ results,
     compute_feature_attribution st X predictions class_labels = Ok results →
     (∀ label, is_Some (results !! label) ↔ label ∈ labels) ∧
     (∀ label metrics,
        results !! label = Some metrics ↔
        label ∈ labels ∧ class_metrics st X predictions label = Ok metrics)) ∧
  (labels ≠ [] → predictions ≠ [] → length predictions ≠ length X →
   compute_feature_attribution st X predictions class_labels
     = Raise IndexError) ∧
  (predictions = [] →
   ∃ results,
     compute_feature_attribution st X predictions class_labels = Ok results ∧
     ∀ label, label ∈ labels → results !! label = Some ∅).
Proof.
  cbv zeta.
  assert (∀ results,
     compute_feature_attribution st X predictions class_labels = Ok results →
     (∀ label, is_Some (results !! label) ↔
               label ∈ default [0; 1] class_labels) ∧
     (∀ label metrics,
        results !! label = Some metrics ↔
        label ∈ default [0; 1] class_labels ∧
        class_metrics st X predictions label = Ok metrics)) as Hreturns.
  { intros results Hres. unfold compute_feature_attribution in Hres.
    destruct (attribution_from _ _ _ _ _ _ Hres) as [Hall Hlook].
    rewrite Forall_forall in Hall.
    assert (∀ label metrics,
              results !! label = Some metrics ↔
              label ∈ default [0; 1] class_labels ∧
              class_metrics st X predictions label = Ok metrics) as Hiff.
    { intros label metrics. rewrite Hlook.
      destruct (decide (label ∈ default [0; 1] class_labels)) as [Hin|Hout].
      - destruct (Hall _ Hin) as [m ->]. naive_solver.
      - rewrite lookup_empty. naive_solver. }
    split; [|done]. intros label. split.
    + intros [metrics Hm]. by apply Hiff in Hm as [? _].
    + intros Hin. destruct (Hall _ Hin) as [m Hm]. exists m. by apply Hiff. }
  split; [done|]. split.
  - intros Hne Hp Hlen. unfold compute_feature_attribution.
    destruct (default [0; 1] class_labels) as [|label labels]; [done|].
    simpl. unfold select_class. by rewrite !decide_False.
  - intros ->.
    assert (∀ label, class_metrics st X [] label = Ok ∅) as Hempty.
    { intros label. unfold class_metrics, select_class.
      rewrite decide_True by done. cbn [mbind result_bind].
      apply compute_feature_metrics_nil. }
    destruct (attribution_total st X [] (default [0; 1] class_labels) ∅)
      as [results Hres].
    { apply Forall_forall. intros label _. by eexists. }
    exists results. split; [exact Hres|].
    intros label Hin. apply (Hreturns results Hres). by rewrite Hempty.
Qed.

(** ** Explanation coverage *)

Lemma length_filter_zip (X : list (list num)) : ∀ (predictions : list nat) c,
  length X = length predictions →
  length (filter (λ xp, xp.2 = c) (zip X predictions))
  = length (filter (λ p, p = c) predictions).
Proof.
  induction X as [|x X IH]; intros [|p predictions] c; simpl; try done.
  intros [= Hlen]. rewrite !filter_cons. simpl.
  destruct (decide (p = c)); simpl; by rewrite IH.
Qed.

(** X18. For an array [X], the coverage that [validate_explanations]
    computes for a class is 1 whenever it is computed at all:
    [explain_dataset] records a row for every instance of the class, with
    or without a matching rule, so the ratio cannot fall below any
    threshold.  For a class that no prediction names no coverage is
    computed: the division by the number of selected rows, zero, raises
    [ZeroDivisionError], unless the predictions are not empty and differ
    from [X] in length, in which case the selection has already raised
    [IndexError]. *)
Theorem class_coverage_is_one_or_undefined st X predictions class_label :
  (∀ coverage,
     class_coverage st X predictions class_label = inr coverage →
     coverage = 1%Qc) ∧
  (class_label ∉ predictions →
   class_coverage st X predictions class_label =
   inl (if decide (predictions = [] ∨ length predictions = length X)
        then ZeroDivisionError else ExplainerRaised IndexError)).
Proof.
  unfold class_coverage, select_class. split.
  - intros q. destruct (decide (predictions = [])) as [->|Hne]; [done|].
    destruct (decide (length predictions = length X)) as [Hlen|];
      [|done].
    destruct (explain_dataset _ _ _) as [rows|] eqn:Hrows; [|done].
    destruct (decide (length _ = 0)) as [|Hnz]; [done|]. intros [= <-].
    apply explain_dataset_from_length in Hrows. simpl in Hrows.
    rewrite Hrows, length_zip, !length_fmap, length_filter_zip by done.
    rewrite Nat.min_id. unfold Qcdiv. apply Qcmult_inv_r.
    apply Qc_of_nat_nonzero.
    rewrite length_fmap, length_filter_zip in Hnz by done. lia.
  - intros Hnotin.
    destruct (decide (predictions = [])) as [->|Hne].
    { rewrite decide_True by (by left). done. }
    destruct (decide (length predictions = length X)) as [Hlen|Hlen].
    + rewrite decide_True by (by right).
      assert (filter (λ p, p = class_label) predictions = []) as Hp.
      { apply elem_of_nil_inv. intros p [-> Hp]%list_elem_of_filter. done. }
      assert (filter (λ xp : list num * nat, xp.2 = class_label)
                     (zip X predictions) = []) as Hx.
      { apply length_zero_iff_nil.
        by rewrite length_filter_zip, Hp. }
      rewrite Hx, Hp. done.
    + rewrite decide_False by tauto. done.
Qed.

(** ** The conditions of an explanation *)

(** Every literal of an inclusion-minimal hitting set is needed for
    some clause. *)
Lemma minimal_hitting_set_literal h clauses lit :
  minimal_hitting_set h clauses → lit ∈ h →
  ∃ clause, clause ∈ clauses ∧ lit ∈ clause.
Proof.
  intros [Hhit Hmin] Hlit.
  destruct (decide (Exists (λ clause, lit ∈ clause) clauses)) as [Hex|Hno].
  { by apply Exists_exists in Hex. }
  exfalso. apply (Hmin (filter (λ l, l ≠ lit) h)).
  - intros l. rewrite list_elem_of_filter. tauto.
  - intros Hsub. specialize (Hsub _ Hlit).
    apply list_elem_of_filter in Hsub as [? _]. done.
  - unfold hitting_set in *. rewrite Forall_forall in *.
    intros clause Hclause. destruct (Hhit _ Hclause) as (l & Hl & Hin).
    exists l. split; [|done]. apply list_elem_of_filter. split; [|done].
    intros ->. apply Hno, Exists_exists. by exists clause.
Qed.

(** X19. Every condition of an explanation is true of the explained
    instance: each literal that [explain_literals] returns belongs to
    the clause of a rule of the predicted class that the instance
    satisfies, so the literal itself holds on the instance. *)
Theorem explanation_conditions_hold st instance predicted h :
  rules_ok st →
  explain_literals st instance predicted = Ok (Some h) →
  ∀ lit, lit ∈ h →
    literal_holds st instance lit ∧
    ∃ idx clause,
      rule_clauses st !! idx = Some clause ∧
      rule_predictions st !! idx = Some predicted ∧
      lit ∈ clause ∧
      ∀ l, l ∈ clause → literal_holds st instance l.
Proof.
  intros Hok. unfold explain_literals.
  destruct (_satisfied_rules st instance predicted) as [matched|] eqn:Hm;
    [|done].
  cbn [mbind result_bind].
  assert (_compute_axp st matched = Ok (Some h) →
          ∀ lit, lit ∈ h →
            literal_holds st instance lit ∧
            ∃ idx clause,
              rule_clauses st !! idx = Some clause ∧
              rule_predictions st !! idx = Some predicted ∧
              lit ∈ clause ∧
              ∀ l, l ∈ clause → literal_holds st instance l) as Haxp.
  { unfold _compute_axp.
    destruct (rmap _ matched) as [clauses|] eqn:Hcl; [|done].
    cbn [mbind result_bind]. intros [= Hget] lit Hlit.
    apply hitman_get_minimal in Hget.
    destruct (minimal_hitting_set_literal _ _ _ Hget Hlit)
      as (clause & Hclause & Hin).
    apply rmap_Ok_Forall2 in Hcl.
    apply list_elem_of_lookup in Hclause as [j Hj].
    destruct (Forall2_lookup_r _ _ _ _ _ Hcl Hj) as (idx & Hidx & Hlook).
    destruct (rule_clauses st !! idx) as [clause'|] eqn:Hc; [|done].
    injection Hlook as ->.
    apply list_elem_of_lookup_2 in Hidx.
    apply (satisfied_rules_from_spec _ _ _ _ _ _ _ Hm) in Hidx
      as [Hnil|(k & clause' & -> & Hk & Hp & Hall)];
      [by apply elem_of_nil in Hnil|].
    simpl in Hc. rewrite Hc in Hk. injection Hk as <-.
    apply py_all_true in Hall. rewrite Forall_forall in Hall.
    assert (∀ l, l ∈ clause → literal_holds st instance l) as Hholds.
    { intros l Hl. apply satisfied_item_true; [|by apply Hall].
      intros f t d. apply (rules_direction _ Hok). }
    split; [by apply Hholds|]. exists k, clause. done. }
  destruct matched as [|i0 matched0]; [|exact Haxp].
  intros [= <-] lit Hlit. by apply elem_of_nil in Hlit.
Qed.

(** ** One rule per tree *)

Lemma leaves_nonempty nd path conditions : leaves nd path conditions ≠ [].
Proof.
  revert path conditions.
  induction nd as [v|f t l IHl r IHr]; intros path conditions; simpl; [done|].
  intros Happ. apply app_eq_nil in Happ as [Hl _]. by apply IHl in Hl.
Qed.

Lemma path_holds_app instance conditions c :
  path_holds instance (conditions ++ [c]) =
  path_holds instance conditions && condition_holds instance c.
Proof.
  unfold path_holds. rewrite forallb_app. simpl. by rewrite andb_true_r.
Qed.

(** With [>] the negation of [<=], an instance takes exactly one branch
    at every split, and so reaches exactly one leaf of a tree. *)
Lemma one_leaf_holds instance nd :
  (∀ a b, num_gt a b = negb (num_le a b)) →
  ∀ path conditions,
  Forall (λ leaf, Forall (λ c : condition, c.1.1 < length instance) leaf.1.2)
         (leaves nd path conditions) →
  length (filter (λ leaf, path_holds instance leaf.1.2 = true)
                 (leaves nd path conditions))
  = if path_holds instance conditions then 1 else 0.
Proof.
  intros Hcompl.
  induction nd as [v|f t l IHl r IHr]; intros path conditions Hcov; simpl.
  - rewrite filter_cons, filter_nil. simpl.
    by destruct (path_holds instance conditions).
  - simpl in Hcov. apply Forall_app in Hcov as [Hcovl Hcovr].
    rewrite filter_app, length_app, (IHl _ _ Hcovl), (IHr _ _ Hcovr).
    rewrite !path_holds_app.
    assert (is_Some (instance !! f)) as [v Hv].
    { apply lookup_lt_is_Some.
      destruct (leaves l (path ++ [0]) (conditions ++ [(f, t, 0)]))
        as [|leaf lvs] eqn:Hl; [by apply leaves_nonempty in Hl|].
      assert (leaf ∈ leaves l (path ++ [0]) (conditions ++ [(f, t, 0)]))
        as Hleaf by (rewrite Hl; by left).
      rewrite leaves_shift in Hleaf.
      apply list_elem_of_fmap in Hleaf as (leaf0 & -> & _).
      apply Forall_cons in Hcovl as [Hc _]. simpl in Hc.
      rewrite Forall_forall in Hc.
      apply (Hc (f, t, 0)). rewrite !elem_of_app, list_elem_of_singleton.
      auto. }
    unfold condition_holds. simpl. rewrite Hv, Hcompl.
    destruct (path_holds instance conditions); [|done]. simpl.
    by destruct (num_le v t).
Qed.

Lemma py_all_resolved st instance clause conditions :
  Forall2 (resolves st) clause conditions →
  Forall (λ c : condition, c.1.1 < length instance) conditions →
  py_all (satisfied_item st instance) clause
  = Ok (path_holds instance conditions).
Proof.
  induction 1 as [|lit [[f t] d] clause conditions Hlit _ IH]; [done|].
  intros [Hf Hcov]%Forall_cons. simpl in Hf.
  apply lookup_lt_is_Some in Hf as [v Hv].
  unfold path_holds. simpl. unfold satisfied_item at 1.
  unfold resolves in Hlit. rewrite Hlit, Hv.
  unfold condition_holds at 1. simpl. rewrite Hv.
  destruct (if decide (d = 0) then num_le v t else num_gt v t); [|done].
  by apply IH.
Qed.

Lemma satisfied_rules_from_count st instance target_class clauses :
  ∀ flags idx matched,
  Forall2 (λ clause flag,
             py_all (satisfied_item st instance) clause = Ok flag)
          clauses flags →
  length clauses ≤ length (drop idx (rule_predictions st)) →
  ∃ res,
    _satisfied_rules_from st instance target_class idx clauses matched
      = Ok res ∧
    length res =
      length matched +
      length (filter (λ pf, pf.1 = target_class ∧ pf.2 = true)
                     (zip (drop idx (rule_predictions st)) flags)).
Proof.
  induction clauses as [|clause rest IH]; intros flags idx matched Hflags Hlen.
  - apply Forall2_nil_inv_l in Hflags as ->. exists matched.
    split; [done|]. by rewrite zip_with_nil_r, filter_nil, Nat.add_0_r.
  - apply Forall2_cons_inv_l in Hflags as (flag & flags' & Hflag & Hrest & ->).
    destruct (rule_predictions st !! idx) as [pred|] eqn:Hpred.
    2:{ apply lookup_ge_None in Hpred. rewrite length_drop in Hlen.
        simpl in Hlen. lia. }
    rewrite (drop_S _ _ _ Hpred) in *. simpl in Hlen.
    cbn [_satisfied_rules_from zip zip_with]. rewrite Hpred, Hflag, filter_cons.
    cbn [fst snd].
    destruct (decide (pred ≠ target_class)) as [Hne|Heq].
    + rewrite decide_False by tauto. apply IH; [done | lia].
    + apply dec_stable in Heq. destruct flag.
      * rewrite decide_True by done.
        destruct (IH flags' (S idx) (matched ++ [idx]) Hrest)
          as (res & Hres & Hcount); [lia|].
        exists res. split; [done|]. rewrite Hcount, length_app. simpl. lia.
      * rewrite decide_False by (by intros [_ ?]). apply IH; [done | lia].
Qed.

Lemma binary_count (preds : list nat) : ∀ flags : list bool,
  Forall (λ p, p = 0 ∨ p = 1) preds →
  length preds = length flags →
  length (filter (λ pf, pf.1 = 0 ∧ pf.2 = true) (zip preds flags))
  + length (filter (λ pf, pf.1 = 1 ∧ pf.2 = true) (zip preds flags))
  = length (filter (λ b, b = true) flags).
Proof.
  induction preds as [|p preds IH]; intros [|flag flags] Hbin Hlen;
    try done.
  apply Forall_cons in Hbin as [Hp Hbin]. injection Hlen as Hlen.
  specialize (IH flags Hbin Hlen). simpl. rewrite !filter_cons. simpl.
  destruct Hp as [-> | ->], flag; simpl;
    repeat (destruct (decide _) as [?|?]; try (exfalso; naive_solver));
    simpl; lia.
Qed.

Lemma length_filter_fmap {A} (f : A → bool) (l : list A) :
  length (filter (λ b, b = true) (f <$> l))
  = length (filter (λ a, f a = true) l).
Proof.
  induction l as [|a l IH]; [done|]. rewrite fmap_cons, !filter_cons.
  destruct (decide (f a = true)); [rewrite !length_cons|]; by rewrite IH.
Qed.

Lemma one_leaf_per_tree instance trees :
  (∀ a b, num_gt a b = negb (num_le a b)) →
  Forall (λ leaf, Forall (λ c : condition, c.1.1 < length instance) leaf.1.2)
         (ensemble_leaves trees) →
  length (filter (λ leaf, path_holds instance leaf.1.2 = true)
                 (ensemble_leaves trees))
  = length trees.
Proof.
  intros Hcompl. induction trees as [|tree trees IH]; [done|].
  rewrite ensemble_leaves_cons. intros [Hcov Hrest]%Forall_app.
  rewrite filter_app, length_app, (one_leaf_holds _ _ Hcompl _ _ Hcov).
  simpl. by rewrite IH.
Qed.

(** X20. After a parse of a non-oblivious ensemble, and for numbers on
    which [>] is the negation of [<=], an instance with a value for
    every feature of the ensemble satisfies exactly one rule per tree:
    [_satisfied_rules] returns for both classes, the numbers of rules it
    returns for class 0 and for class 1 add up to the number of trees,
    and in every tree exactly one leaf has all the conditions of its
    path true of the instance. *)
Theorem one_matched_rule_per_tree st mj ffs trees instance :
  float_features mj = Some ffs →
  oblivious_trees mj = false →
  non_oblivious_trees mj = Some trees →
  (∀ a b, num_gt a b = negb (num_le a b)) →
  instance_covers (fit_from_model_json st mj).1 instance →
  (∃ matched0 matched1,
     _satisfied_rules (fit_from_model_json st mj).1 instance 0 = Ok matched0 ∧
     _satisfied_rules (fit_from_model_json st mj).1 instance 1 = Ok matched1 ∧
     length matched0 + length matched1 = length trees) ∧
  ∀ tree, tree ∈ trees →
    length (filter (λ leaf, path_holds instance leaf.1.2 = true)
                   (leaves tree [] [])) = 1.
Proof.
  intros Hff Hob Htrees Hcompl Hcov.
  destruct (fit_ok st mj ffs trees Hff Hob Htrees)
    as (_ & Hok & Hf & Hp & Hk).
  set (st' := (fit_from_model_json st mj).1) in *.
  assert (Forall (λ leaf, Forall (λ c : condition, c.1.1 < length instance)
                                 leaf.1.2)
                 (ensemble_leaves trees)) as Hleaves.
  { apply Forall_forall. intros leaf Hleaf. apply Forall_forall.
    intros key Hkey.
    destruct (proj2 (Hk key)) as [lit Hlit]; [by exists leaf|].
    apply (reg_inverse _ _ Hok) in Hlit.
    apply (Hcov lit key Hlit). }
  split.
  - set (flags := (λ leaf : list nat * list condition * num,
                     path_holds instance leaf.1.2) <$> ensemble_leaves trees).
    assert (Forall2 (λ clause flag,
                       py_all (satisfied_item st' instance) clause = Ok flag)
                    (rule_clauses st') flags) as Hflags.
    { apply Forall2_fmap_r.
      rewrite Forall_forall in Hleaves.
      apply Forall2_same_length_lookup. split; [by eapply Forall2_length|].
      intros i clause leaf Hi Hleaf.
      apply py_all_resolved.
      - by eapply (Forall2_lookup_lr _ _ _ _ _ _ Hf).
      - apply Hleaves. by eapply list_elem_of_lookup_2. }
    assert (length (rule_clauses st') = length (rule_predictions st')) as Hlen.
    { rewrite Hp, length_fmap. by eapply Forall2_length. }
    destruct (satisfied_rules_from_count st' instance 0 _ flags 0 [] Hflags)
      as (m0 & Hm0 & Hc0); [rewrite drop_0; lia|].
    destruct (satisfied_rules_from_count st' instance 1 _ flags 0 [] Hflags)
      as (m1 & Hm1 & Hc1); [rewrite drop_0; lia|].
    exists m0, m1. split; [done|]. split; [done|].
    rewrite Hc0, Hc1, drop_0. cbn [length]. rewrite !Nat.add_0_l, binary_count.
    + unfold flags. rewrite length_filter_fmap.
      by apply one_leaf_per_tree.
    + rewrite Hp. apply Forall_fmap, Forall_forall. intros leaf _. simpl.
      unfold leaf_label. destruct (num_gt leaf.2 num_zero); auto.
    + rewrite <- Hlen. by eapply Forall2_length.
  - intros tree Htree.
    rewrite (one_leaf_holds _ _ Hcompl); [done|].
    rewrite Forall_forall in Hleaves. apply Forall_forall. intros leaf Hleaf.
    apply Hleaves. apply list_elem_of_bind. by exists tree.
Qed.

(** ** Feature names *)

Lemma feature_table_from (ffs : list (nat * string)) :
  ∀ (m : gmap nat string) i,
  foldl (λ m f, <[f.1 := f.2]> m) m ffs !! i =
  match last (filter (λ f, f.1 = i) ffs) with
  | Some f => Some f.2
  | None => m !! i
  end.
Proof.
  induction ffs as [|f ffs IH]; intros m i; [done|].
  simpl. rewrite IH, filter_cons.
  destruct (decide (f.1 = i)) as [<-|Hne].
  - rewrite last_cons, lookup_insert_eq.
    by destruct (last (filter _ ffs)).
  - by rewrite lookup_insert_ne.
Qed.

Lemma fit_feature_names st mj ffs :
  float_features mj = Some ffs →
  feature_names (fit_from_model_json st mj).1 = feature_table ffs.
Proof.
  intros Hff. unfold fit_from_model_json. rewrite Hff.
  destruct (oblivious_trees mj); [done|].
  destruct (non_oblivious_trees mj) as [trees|]; [|done]. simpl.
  destruct (traverse_all_ok (_id_gen st) trees
              (set_feature_names (clear_rules st) (feature_table ffs)))
    as (_ & Hext & _).
  { destruct (registry_ok_clear st) as [Hinv Hrange Hbase]. by split. }
  by destruct Hext.
Qed.

(** X21. After a parse, a literal is rendered with the name that
    ["float_features"] gives for its feature index, the last one when the
    index is listed more than once; a literal on a feature index that
    the table does not list makes [_literal_to_text], and with it
    [explain_instance], raise [KeyError]. *)
Theorem rendering_uses_feature_table st mj ffs lit feat_idx thresh direction :
  float_features mj = Some ffs →
  id_condition_map (fit_from_model_json st mj).1 !! lit
    = Some (feat_idx, thresh, direction) →
  _literal_to_text (fit_from_model_json st mj).1 lit =
  match last (filter (λ f, f.1 = feat_idx) ffs) with
  | Some f =>
      Ok (f.2 +:+ " " +:+ (if decide (direction = 0) then "<=" else ">")
          +:+ " " +:+ num_str thresh)
  | None => Raise KeyError
  end.
Proof.
  intros Hff Hlit. unfold _literal_to_text.
  rewrite Hlit, (fit_feature_names _ _ _ Hff). unfold feature_table.
  rewrite feature_table_from, lookup_empty.
  by destruct (last (filter _ ffs)).
Qed.

(** ** Chunked processing, in full *)

(** X22. [process_large_dataset], on a data frame, never returns an
    attribution: it returns only when its loop does not run, that is for
    a negative batch size or for a frame without rows, and the result is
    then empty.  With a batch size of zero it raises the [ValueError] of
    [range], and with a positive batch size and a row to process it
    raises the [TypeError] of the call that lacks the predictions. *)
Theorem process_large_dataset_outcomes st X batch_size frame_attribution :
  ((batch_size = 0)%Z →
   process_large_dataset st X batch_size frame_attribution
     = Raise (ValueError range_step_zero)) ∧
  ((batch_size < 0)%Z →
   process_large_dataset st X batch_size frame_attribution = Ok ∅) ∧
  ((0 < batch_size)%Z → df_values X = [] →
   process_large_dataset st X batch_size frame_attribution = Ok ∅) ∧
  ((0 < batch_size)%Z → df_values X ≠ [] →
   process_large_dataset st X batch_size frame_attribution = Raise TypeError) ∧
  (∀ results,
     process_large_dataset st X batch_size frame_attribution = Ok results →
     results = ∅ ∧ ((batch_size < 0)%Z ∨ df_values X = [])).
Proof.
  assert ((batch_size < 0)%Z →
          process_large_dataset st X batch_size frame_attribution = Ok ∅)
    as Hneg.
  { intros Hb. unfold process_large_dataset, py_range.
    rewrite decide_False, decide_True by lia. done. }
  assert ((0 < batch_size)%Z → df_values X = [] →
          process_large_dataset st X batch_size frame_attribution = Ok ∅)
    as Hempty.
  { intros Hb HX. unfold process_large_dataset, py_range, range_by.
    rewrite !decide_False by lia. rewrite HX. simpl.
    rewrite Nat.div_small by lia. done. }
  split; [|split; [done|split; [done|split]]].
  - intros ->. done.
  - intros Hb HX. by apply process_large_dataset_raises.
  - intros results Hres.
    destruct (decide (batch_size = 0)%Z) as [->|Hb]; [done|].
    destruct (decide (batch_size < 0)%Z) as [Hlt|Hge].
    { rewrite Hneg in Hres by done. injection Hres as <-. auto. }
    destruct (decide (df_values X = [])) as [HX|HX].
    + rewrite Hempty in Hres by (done || lia). injection Hres as <-. auto.
    + rewrite process_large_dataset_raises in Hres by (done || lia). done.
Qed.

(** ** Bounds of the metrics *)

Lemma Qc_of_nat_le a b : a ≤ b → (Qc_of_nat a ≤ Qc_of_nat b)%Qc.
Proof.
  intros Hab. unfold Qc_of_nat. apply (proj1 (Z2Qc_inj_le _ _)). lia.
Qed.

Lemma Qc_of_nat_pos a : 0 < a → (0 < Qc_of_nat a)%Qc.
Proof.
  intros Ha. unfold Qc_of_nat. rewrite <- Z2Qc_inj_0.
  apply (proj1 (Z2Qc_inj_lt _ _)). lia.
Qed.

Lemma ratio_bounds a b :
  a ≤ b → 0 < b →
  (0 ≤ Qc_of_nat a / Qc_of_nat b)%Qc ∧ (Qc_of_nat a / Qc_of_nat b ≤ 1)%Qc ∧
  (0 < a → (0 < Qc_of_nat a / Qc_of_nat b)%Qc).
Proof.
  intros Hab Hb. pose proof (Qc_of_nat_pos b Hb) as Hbpos.
  pose proof (Qcinv_pos _ Hbpos) as Hinv.
  split; [|split].
  - unfold Qcdiv. apply Qcmult_nonneg_nonneg.
    + unfold Qc_of_nat. rewrite <- Z2Qc_inj_0.
      apply (proj1 (Z2Qc_inj_le _ _)). lia.
    + by apply Qclt_le_weak.
  - apply (Qcmult_lt_0_le_reg_r _ _ (Qc_of_nat b)); [done|].
    rewrite test_field by (by apply Qc_of_nat_nonzero).
    rewrite Qcmult_1_l. by apply Qc_of_nat_le.
  - intros Ha. unfold Qcdiv. apply Qcmult_pos_pos; [|done].
    by apply Qc_of_nat_pos.
Qed.

Lemma total_support_ge (d : gmap string nat) f s :
  d !! f = Some s → s ≤ total_support d.
Proof.
  intros Hf. rewrite <- (insert_delete_id d f s) by done.
  rewrite total_support_insert by apply lookup_delete_eq. lia.
Qed.

(** X23. Every row of the table of [_compute_feature_metrics] stays
    within its bounds: the support is at least 1, the coverage is at
    most the number of instances that have an explanation, the
    contrastive count is at most the coverage, the essentiality ratio
    lies between 0 and 1, and the relative importance is positive and at
    most 1. *)
Theorem metrics_within_bounds axps metrics f r :
  _compute_feature_metrics axps = Ok metrics →
  metrics !! f = Some r →
  1 ≤ support r ∧
  coverage r ≤ size (explained_instances axps) ∧
  contrastive_instances r ≤ coverage r ∧
  (0 ≤ essentiality_ratio r)%Qc ∧ (essentiality_ratio r ≤ 1)%Qc ∧
  (0 < relative_importance r)%Qc ∧ (relative_importance r ≤ 1)%Qc.
Proof.
  intros Hm Hr.
  destruct (symbolic_counters _ _ _ _ Hm Hr) as (Hs & Hc & He).
  pose proof (symbolic_coverage _ _ _ _ Hm Hr) as Hcov.
  destruct (proj1 (symbolic_rows _ _ f Hm) (mk_is_Some _ _ Hr))
    as (a0 & Ha0 & Hm0).
  assert (instances_with f axps ⊆ explained_instances axps) as Hsub.
  { intros i. rewrite elem_of_instances_with, elem_of_explained_instances.
    intros (a & ? & ? & _). by exists a. }
  assert (essential_instances f axps ⊆ explained_instances axps) as Hsub'.
  { intros i. rewrite elem_of_essential_instances,
      elem_of_explained_instances. by intros [? _]. }
  assert (0 < size (instances_with f axps)) as Hpos.
  { assert (size (instances_with f axps) ≠ 0) as Hne; [|lia].
    apply size_non_empty_iff. intros Hempty.
    apply (not_elem_of_empty (C:=gset nat) (instance a0)).
    rewrite <- Hempty. apply elem_of_instances_with. by exists a0. }
  pose proof (subseteq_size _ _ Hsub) as Hle.
  pose proof (subseteq_size _ _ Hsub') as Hle'.
  split; [lia|]. split; [lia|]. split.
  { rewrite Hc, Hcov. apply subseteq_size. set_solver. }
  destruct (ratio_bounds (size (essential_instances f axps))
              (size (explained_instances axps))) as (He0 & He1 & _);
    [lia..|].
  rewrite He. split; [done|]. split; [done|].
  revert Hm Hr. unfold _compute_feature_metrics.
  destruct (map_fold _ _ (instance_groups axps)) as [t|] eqn:Hfold; [|done].
  cbn [mbind result_bind]. intros [= <-] Hr.
  apply compile_metrics_lookup in Hr as (Hlook & _ & ->).
  pose proof (total_support_ge _ _ _ Hlook) as Htot.
  destruct (ratio_bounds (support r) (total_support (support_counter t)))
    as (_ & Hr1 & Hr0); [lia..|].
  split; [apply Hr0; lia | done].
Qed.

End Explainer.

(** * A hitting-set solver that meets the contract *)

Lemma hitsb_hits h clause : hitsb h clause = true ↔ hits h clause.
Proof.
  unfold hitsb, hits. rewrite existsb_exists. split.
  - intros (lit & Hin & Hh). apply bool_decide_eq_true in Hh.
    exists lit. split; [done | by apply list_elem_of_In].
  - intros (lit & Hh & Hin). exists lit.
    split; [by apply list_elem_of_In | by apply bool_decide_eq_true].
Qed.

Lemma hitting_setb_hitting_set h clauses :
  hitting_setb h clauses = true ↔ hitting_set h clauses.
Proof.
  unfold hitting_setb, hitting_set. rewrite forallb_forall, Forall_forall.
  split; intros Hall c Hc.
  - apply hitsb_hits, Hall. by apply list_elem_of_In.
  - apply hitsb_hits, Hall. by apply list_elem_of_In.
Qed.

Lemma hitting_set_mono h h' clauses :
  h ⊆ h' → hitting_set h clauses → hitting_set h' clauses.
Proof.
  intros Hsub Hall. unfold hitting_set. eapply Forall_impl; [exact Hall|].
  intros c (lit & Hh & Hc). exists lit. split; [by apply Hsub | done].
Qed.

Lemma hitting_set_nil_clause h clauses :
  [] ∈ clauses → ¬ hitting_set h clauses.
Proof.
  intros Hin Hall. unfold hitting_set in Hall. rewrite Forall_forall in Hall.
  destruct (Hall _ Hin) as (lit & _ & Hlit). by apply not_elem_of_nil in Hlit.
Qed.

(** What [shrink] keeps is still a hitting set. *)
Lemma shrink_hitting_set clauses todo : ∀ keep,
  hitting_set (todo ++ keep) clauses →
  hitting_set (shrink clauses todo keep) clauses.
Proof.
  induction todo as [|x todo IH]; intros keep Hall; simpl; [done|].
  destruct (hitting_setb (todo ++ keep) clauses) eqn:Hb.
  - apply IH. by apply hitting_setb_hitting_set.
  - apply IH. eapply hitting_set_mono; [|exact Hall].
    set_unfold; naive_solver.
Qed.

(** Every literal that [shrink] keeps is needed. *)
Lemma shrink_critical clauses todo : ∀ keep,
  (∀ x, x ∈ keep →
     ¬ hitting_set (filter (λ y, y ≠ x) (todo ++ keep)) clauses) →
  ∀ x, x ∈ shrink clauses todo keep →
     ¬ hitting_set (filter (λ y, y ≠ x) (shrink clauses todo keep)) clauses.
Proof.
  induction todo as [|x0 todo IH]; intros keep Hkeep; simpl; [done|].
  destruct (hitting_setb (todo ++ keep) clauses) eqn:Hb.
  - apply IH. intros x Hx Hall. apply (Hkeep x Hx).
    eapply hitting_set_mono; [|exact Hall].
    intros y. rewrite !list_elem_of_filter. set_unfold; naive_solver.
  - apply IH. intros x Hx Hall. apply elem_of_cons in Hx as [->|Hx].
    + assert (hitting_set (todo ++ keep) clauses) as Hall'.
      { eapply hitting_set_mono; [|exact Hall].
        intros y. rewrite list_elem_of_filter. set_unfold; naive_solver. }
      apply hitting_setb_hitting_set in Hall'. congruence.
    + apply (Hkeep x Hx). eapply hitting_set_mono; [|exact Hall].
      intros y. rewrite !list_elem_of_filter. set_unfold; naive_solver.
Qed.

(** A hitting set all of whose literals are needed is inclusion-minimal. *)
Lemma critical_minimal h clauses :
  hitting_set h clauses →
  (∀ x, x ∈ h → ¬ hitting_set (filter (λ y, y ≠ x) h) clauses) →
  minimal_hitting_set h clauses.
Proof.
  intros Hall Hcrit. split; [done|]. intros h' Hsub Hnsub Hall'.
  assert (∃ x, x ∈ h ∧ x ∉ h') as (x & Hx & Hx').
  { destruct (decide (Exists (λ x, x ∉ h') h)) as [Hex|Hno].
    - by apply Exists_exists in Hex.
    - exfalso. apply Hnsub. intros x Hx.
      destruct (decide (x ∈ h')); [done|].
      exfalso. apply Hno, Exists_exists. eauto. }
  apply (Hcrit x Hx). eapply hitting_set_mono; [|exact Hall'].
  intros y Hy. apply list_elem_of_filter. split; [|by apply Hsub].
  intros ->. done.
Qed.

(** Any solver that meets the contract answers [None] when one of the
    sets to hit is empty. *)
Lemma hitman_get_empty_clause {hitman : Hitman} clauses :
  [] ∈ clauses → hitman_get clauses = None.
Proof.
  intros Hin. destruct (hitman_get clauses) as [h|] eqn:Hget; [|done].
  apply hitman_get_minimal in Hget as [Hh _].
  by apply hitting_set_nil_clause in Hh.
Qed.

Lemma universe_hitting_set clauses :
  Forall (λ c, c ≠ []) clauses →
  hitting_set (remove_dups (mjoin clauses)) clauses.
Proof.
  intros Hne. unfold hitting_set. rewrite Forall_forall in *.
  intros c Hc. specialize (Hne c Hc). destruct c as [|lit c]; [done|].
  exists lit. split; [|by left].
  apply elem_of_remove_dups, list_elem_of_join. exists (lit :: c).
  split; [by left | done].
Qed.

Lemma greedy_get_minimal clauses h :
  greedy_get clauses = Some h → minimal_hitting_set h clauses.
Proof.
  unfold greedy_get. destruct (hitting_setb _ clauses) eqn:Hb; [|done].
  intros [= <-]. apply hitting_setb_hitting_set in Hb.
  apply critical_minimal.
  - apply shrink_hitting_set. by rewrite app_nil_r.
  - apply shrink_critical. intros x Hx. by apply not_elem_of_nil in Hx.
Qed.

Lemma greedy_get_total clauses :
  Forall (λ c, c ≠ []) clauses → is_Some (greedy_get clauses).
Proof.
  intros Hne. unfold greedy_get.
  apply universe_hitting_set, hitting_setb_hitting_set in Hne.
  rewrite Hne. eauto.
Qed.

#[export] Instance greedy_hitman : Hitman := {|
  hitman_get := greedy_get;
  hitman_enumerate := brute_enumerate;
  hitman_get_minimal := greedy_get_minimal;
  hitman_get_total := greedy_get_total
|}.

(** * A worked ensemble *)

(** Integers as numbers. *)
#[export] Instance Z_num : Num Z := {|
  num_le := Z.leb;
  num_gt := Z.gtb;
  num_zero := 0%Z;
  num_str := pretty
|}.

(** Two trees of one split each: feature 0 (["A"]) at 5 and feature 1
    (["B"]) at 10, both predicting class 1 on the right branch. *)
Definition tree_A : node (num:=Z) := Split 0 5%Z (Leaf (-1)%Z) (Leaf 1%Z).
Definition tree_B : node (num:=Z) := Split 1 10%Z (Leaf (-1)%Z) (Leaf 1%Z).

Definition two_trees : model_json (num:=Z) :=
  ModelJson (Some [(0, "A"); (1, "B")]) false (Some [tree_A; tree_B]).

Definition fitted : explainer (num:=Z) :=
  (fit_from_model_json __init__ two_trees).1.

(** The same ensemble parsed a second time by the same explainer. *)
Definition refitted : explainer (num:=Z) :=
  (fit_from_model_json fitted two_trees).1.

(** An ensemble whose only tree is a single leaf. *)
Definition one_leaf : model_json (num:=Z) :=
  ModelJson (Some []) false (Some [Leaf 1%Z]).

Definition fitted_leaf : explainer (num:=Z) :=
  (fit_from_model_json __init__ one_leaf).1.

(** An ensemble exported with oblivious trees. *)
Definition oblivious : model_json (num:=Z) :=
  ModelJson (Some [(0, "A")]) true None.

(** An oblivious ensemble whose description lacks the feature table. *)
Definition oblivious_bare : model_json (num:=Z) :=
  ModelJson None true None.

(** Two explanations for instance 0 and one for instance 1. *)
Definition sample_axps : list axp_record :=
  [AxpRecord 0 ["A > 5"; "B > 10"]; AxpRecord 0 ["B > 10"];
   AxpRecord 1 ["B > 10"]].

(** One explanation for each of two instances, as the legacy batch
    builds them. *)
Definition sample_entries : list CatBoostAXPExplainer.axp_entry :=
  [CatBoostAXPExplainer.AxpEntry 0 ["A <= 5"] [1];
   CatBoostAXPExplainer.AxpEntry 1 ["B > 10"] [4]].



(** The trees of the two-tree ensemble in the format of the tree-rules
    file. *)
Definition rule_trees_two_trees : list (rule_node (num:=Z)) :=
  [SplitNode (FloatFeature (Some 0) (Some 5%Z))
     (Some (ValueNode (-1)%Z)) (Some (ValueNode 1%Z));
   SplitNode (OnlineCtr (Some 1) (Some 10%Z))
     (Some (ValueNode (-1)%Z)) (Some (ValueNode 1%Z))].

(** The two-tree ensemble in the format of the tree-rules file. *)
Definition rules_file_two_trees : tree_rules_json (num:=Z) :=
  TreeRulesJson (Some [(Some 0, Some "A"); (Some 1, Some "B")])
    (Some rule_trees_two_trees) false.

Example fitted_rules :
  rule_clauses fitted = [[1]; [2]; [3]; [4]] ∧
  rule_predictions fitted = [0; 1; 0; 1] ∧
  _id_gen fitted = 5.
Proof. by vm_compute. Qed.

Example explain_both :
  explain_instance fitted [7; 12]%Z (Some 1) = Ok ["B > 10"; "A > 5"].
Proof. by vm_compute. Qed.

Example explain_one :
  explain_instance fitted [2; 12]%Z (Some 1) = Ok ["B > 10"].
Proof. by vm_compute. Qed.

(** ** The theorems at work on the ensemble *)

Lemma explanation_is_minimal_hitting_set_witness :
  _satisfied_rules fitted [7; 12]%Z 1 = Ok [1; 3] ∧
  ∃ h,
    explain_literals fitted [7; 12]%Z 1 = Ok (Some h) ∧
    (∀ idx clause, idx ∈ [1; 3] → rule_clauses fitted !! idx = Some clause →
       hits h clause) ∧
    (∀ h', h' ⊆ h → ¬ h ⊆ h' →
       ¬ ∀ idx clause, idx ∈ [1; 3] → rule_clauses fitted !! idx = Some clause →
           hits h' clause).
Proof.
  split; [by vm_compute|].
  apply (explanation_is_minimal_hitting_set fitted [7; 12]%Z 1 [1; 3]).
  - by vm_compute.
  - done.
  - intros idx Hidx.
    apply elem_of_cons in Hidx as [->|Hidx]; [by vm_compute|].
    apply list_elem_of_singleton in Hidx as ->. by vm_compute.
Defined.

(** The claim of C1 as it stands fails when a matched rule has an empty
    clause.  The one rule of a tree that is a single leaf with a positive
    value matches every instance for class 1; its clause is empty, so no
    literal set intersects it, and whatever solver meets the contract
    has no hitting set to return. *)
Lemma empty_clause_cannot_be_hit :
  _satisfied_rules fitted_leaf [] 1 = Ok [0] ∧
  rule_clauses fitted_leaf !! 0 = Some [] ∧
  (∀ hitman : Hitman,
     explain_literals (hitman:=hitman) fitted_leaf [] 1 = Ok None) ∧
  ∀ h, ¬ hits h [].
Proof.
  assert (_satisfied_rules fitted_leaf [] 1 = Ok [0]) as Hm by by vm_compute.
  split; [done|]. split; [by vm_compute|]. split.
  - intros hitman. unfold explain_literals. rewrite Hm.
    cbn [mbind result_bind]. unfold _compute_axp.
    replace (rule_clauses fitted_leaf) with [[] : list nat] by by vm_compute.
    cbn. rewrite hitman_get_empty_clause; [done | by left].
  - intros h (lit & _ & Hlit). by apply elem_of_nil in Hlit.
Qed.

Lemma satisfied_rules_sound_complete_witness :
  rules_ok fitted ∧
  (∀ matched,
     _satisfied_rules fitted [7; 12]%Z 1 = Ok matched →
     ∀ idx, idx ∈ matched ↔
       ∃ clause, rule_clauses fitted !! idx = Some clause ∧
                 rule_predictions fitted !! idx = Some 1 ∧
                 ∀ lit, lit ∈ clause → literal_holds fitted [7; 12]%Z lit) ∧
  (instance_covers fitted [7; 12]%Z →
   ∃ matched, _satisfied_rules fitted [7; 12]%Z 1 = Ok matched) ∧
  (∀ lit, _literal_condition_holds fitted [7; 12]%Z lit = Ok true ↔
          literal_holds fitted [7; 12]%Z lit).
Proof.
  assert (rules_ok fitted) as Hok by apply fit_rules_ok.
  split; [done|].
  by apply (satisfied_rules_sound_complete fitted [7; 12]%Z 1).
Defined.

Example instance_covers_fitted : instance_covers fitted [7; 12]%Z.
Proof.
  unfold instance_covers. apply map_Forall_to_list.
  vm_compute. repeat constructor.
Qed.

Lemma parser_one_rule_per_leaf_witness :
  let st' := (fit_from_model_json __init__ two_trees).1 in
  (fit_from_model_json __init__ two_trees).2 = None ∧
  length (rule_clauses st') = length (rule_predictions st') ∧
  Forall2 (λ rule leaf,
             Forall2 (λ lit c, id_condition_map st' !! lit = Some c)
                     rule.1 leaf.1.2 ∧
             length rule.1 = length leaf.1.1 ∧
             rule.2 = if num_gt leaf.2 num_zero then 1 else 0)
          (zip (rule_clauses st') (rule_predictions st'))
          (ensemble_leaves [tree_A; tree_B]) ∧
  (∀ tree p cs v, tree ∈ [tree_A; tree_B] →
     (p, cs, v) ∈ leaves tree [] [] ↔ descend tree p = Some (cs, Leaf v)) ∧
  (∀ i, rule_clauses st' !! i = Some [] → ∃ v, Leaf v ∈ [tree_A; tree_B]).
Proof.
  exact (parser_one_rule_per_leaf __init__ two_trees [(0, "A"); (1, "B")]
           [tree_A; tree_B] eq_refl eq_refl eq_refl).
Defined.

(** The generator starts at 1, and on the second parse the ids in use
    are 5 to 8. *)
Lemma registry_rebuilt_on_parse_witness :
  _id_gen (__init__ (num:=Z)) = 1 ∧
  ∀ lit, is_Some (id_condition_map refitted !! lit) ↔ 5 ≤ lit < 9.
Proof.
  destruct (registry_rebuilt_on_parse fitted two_trees)
    as (_ & _ & _ & Hrange & Hinit & _).
  split; [exact Hinit | exact Hrange].
Defined.

(** The claim of C4 as it stands fails on a re-parse: the generator is
    not reset, so the second parse of the two-tree ensemble issues the
    ids 5 to 8; literal 1 is not in the registry. *)
Lemma reparse_does_not_restart_at_one :
  rule_clauses fitted = [[1]; [2]; [3]; [4]] ∧
  rule_clauses refitted = [[5]; [6]; [7]; [8]] ∧
  id_condition_map refitted !! 1 = None ∧
  id_condition_map refitted !! 5 = Some (0, 5%Z, 0).
Proof. by vm_compute. Qed.

Lemma unmatched_instance_outcome_witness :
  _satisfied_rules fitted [2; 3]%Z 1 = Ok [] ∧
  explain_literals fitted [2; 3]%Z 1 = Ok (Some []) ∧
  explain_instance fitted [2; 3]%Z (Some 1) = Ok [] ∧
  (∀ predictions rows,
     predictions !! 1 = Some 1 →
     explain_dataset fitted [[7; 12]; [2; 3]]%Z (Some predictions) = Ok rows →
     rows !! 1 = Some (ExplanationRow 1 1 [])) ∧
  (∀ results,
     _batch_compute_axps fitted [[7; 12]; [2; 3]]%Z 1 = Ok results →
     ∀ r, r ∈ results → instance r ≠ 1).
Proof.
  split; [by vm_compute|].
  apply (unmatched_instance_outcome fitted [[7; 12]; [2; 3]]%Z 1 1 [2; 3]%Z).
  - done.
  - by vm_compute.
Defined.

(** The claim of C5 as it stands fails for the batch: the second
    instance matches no rule of class 1 and the batch has a record for the
    first instance only. *)
Lemma unmatched_instance_dropped_from_batch :
  _satisfied_rules fitted [2; 3]%Z 1 = Ok [] ∧
  _batch_compute_axps fitted [[7; 12]; [2; 3]]%Z 1
    = Ok [AxpRecord 0 ["A > 5"; "B > 10"]].
Proof. by vm_compute. Qed.

(** C6 (defect in the code). On a data frame of one row,
    [process_large_dataset] raises [TypeError], because it calls
    [compute_feature_attribution] without [predictions]; the single pass
    over the same row, given as an array, returns the attribution table
    of class 1. *)
Theorem chunked_processing_raises :
  (∀ frame_attribution,
     process_large_dataset fitted (DataFrame ["A"; "B"] [[7; 12]]%Z) 1000
       frame_attribution = Raise TypeError) ∧
  ∃ tables metrics r,
    compute_feature_attribution fitted [[7; 12]]%Z [1] None = Ok tables ∧
    tables !! 1 = Some metrics ∧ metrics !! "A" = Some r ∧
    support r = 1 ∧ coverage r = 1.
Proof.
  split; [intros frame_attribution; by vm_compute|].
  eexists _, _, _. split; [vm_compute; reflexivity|].
  split; [vm_compute; reflexivity|].
  split; [vm_compute; reflexivity|]. done.
Qed.

Lemma oblivious_trees_rejected_by_parser_witness :
  let st' := (fit_from_model_json fitted oblivious).1 in
  is_Some (fit_from_model_json fitted oblivious).2 ∧
  rule_clauses st' = [] ∧ rule_predictions st' = [] ∧
  condition_id_map st' = ∅ ∧ id_condition_map st' = ∅ ∧
  (is_Some (float_features oblivious) →
     (fit_from_model_json fitted oblivious).2 =
       Some (ValueError oblivious_trees_rejected)) ∧
  (float_features oblivious = None →
     (fit_from_model_json fitted oblivious).2 = Some KeyError).
Proof.
  exact (oblivious_trees_rejected_by_parser fitted oblivious (or_introl eq_refl)).
Defined.

(** The claim of C7 as it stands fails for an oblivious ensemble whose
    description has no feature table: the parse stops at the lookup of
    the table, with [KeyError] and not with the explicit error of the
    check of the tree form, which is never reached. *)
Lemma oblivious_without_feature_table :
  oblivious_trees oblivious_bare = true ∧
  (fit_from_model_json fitted oblivious_bare).2 = Some KeyError ∧
  (fit_from_model_json fitted oblivious_bare).2
    ≠ Some (ValueError oblivious_trees_rejected) ∧
  rule_clauses (fit_from_model_json fitted oblivious_bare).1 = [].
Proof. by vm_compute. Qed.

(** ** The aggregators at work *)

Lemma sample_axps_have_words :
  Forall (λ a, Forall has_word (axp a)) sample_axps.
Proof. repeat constructor; eexists; vm_compute; reflexivity. Qed.

Lemma sample_entries_have_words :
  Forall (λ a, Forall has_word (CatBoostAXPExplainer.conditions a))
         sample_entries.
Proof. repeat constructor; eexists; vm_compute; reflexivity. Qed.

Lemma coverage_counts_distinct_instances_witness :
  (∃ metrics, _compute_feature_metrics sample_axps = Ok metrics ∧
     (∀ f, is_Some (metrics !! f) ↔
           ∃ a, a ∈ sample_axps ∧ mentions f (axp a)) ∧
     ∀ f r, metrics !! f = Some r →
       coverage r = size (instances_with f sample_axps)) ∧
  (∃ metrics,
     CatBoostAXPExplainer._compute_feature_metrics sample_entries = Ok metrics ∧
     ∀ f r, metrics !! f = Some r →
       CatBoostAXPExplainer.coverage r =
         (Qc_of_nat (size (legacy_instances_with f sample_entries))
          / Qc_of_nat (length sample_entries))%Qc).
Proof.
  destruct coverage_counts_distinct_instances as [Hsymbolic Hlegacy].
  split.
  - apply Hsymbolic, sample_axps_have_words.
  - apply Hlegacy, sample_entries_have_words.
Defined.

(** The claim of C8 as it stands fails for the legacy aggregator:
    feature ["A"] occurs in one distinct instance of two records, and its
    coverage is one half. *)
Lemma legacy_coverage_is_a_ratio :
  ∃ metrics r,
    CatBoostAXPExplainer._compute_feature_metrics sample_entries = Ok metrics ∧
    metrics !! "A" = Some r ∧
    CatBoostAXPExplainer.coverage r = Q2Qc (1 # 2) ∧
    size (legacy_instances_with "A" sample_entries) = 1.
Proof.
  eexists _, _. split; [vm_compute; reflexivity|].
  split; [vm_compute; reflexivity|].
  split; [apply Qc_is_canon|]; by vm_compute.
Qed.

Lemma relative_importance_normalised_witness :
  ∃ metrics,
    _compute_feature_metrics sample_axps = Ok metrics ∧
    (∀ f r, metrics !! f = Some r →
       relative_importance r =
         (Qc_of_nat (support r) / Qc_of_nat (sum_of_supports metrics))%Qc) ∧
    sum_of_relative_importances metrics = 1%Qc.
Proof.
  destruct (compute_feature_metrics_total sample_axps sample_axps_have_words)
    as [metrics Hmetrics].
  exists metrics. split; [done|].
  apply (relative_importance_normalised sample_axps metrics Hmetrics).
  exists (AxpRecord 1 ["B > 10"]), "B". split.
  - apply list_elem_of_In. simpl. auto.
  - constructor. by vm_compute.
Defined.

(** The claim of C9 as it stands fails for a collection that is not
    empty but in which no feature occurs: there is no row, and the
    relative importances add up to 0. *)
Lemma no_feature_no_unit_sum :
  [AxpRecord 0 []] ≠ [] ∧
  ∃ metrics,
    _compute_feature_metrics [AxpRecord 0 []] = Ok metrics ∧
    metrics = ∅ ∧
    sum_of_relative_importances metrics = 0%Qc ∧
    sum_of_relative_importances metrics ≠ 1%Qc.
Proof.
  split; [done|]. exists ∅. split; [by vm_compute|]. split; [done|].
  unfold sum_of_relative_importances. rewrite map_fold_empty.
  split; [done|]. by intros [=].
Qed.


(** ** Matching, explanations and batches at work *)

Lemma satisfied_rules_increasing_witness :
  _satisfied_rules fitted [7; 12]%Z 1 = Ok [1; 3] ∧
  StronglySorted lt [1; 3] ∧ NoDup [1; 3] ∧
  Forall (λ idx, idx < length (rule_clauses fitted)) [1; 3].
Proof.
  split; [by vm_compute|].
  apply (satisfied_rules_increasing fitted [7; 12]%Z 1 [1; 3]).
  by vm_compute.
Defined.

(** The single-leaf ensemble: its one rule has an empty clause and
    matches the empty instance for class 1. *)
Lemma empty_clause_breaks_explanation_witness :
  _satisfied_rules fitted_leaf [] 1 = Ok [0] ∧
  rule_clauses fitted_leaf !! 0 = Some [] ∧
  explain_literals fitted_leaf [] 1 = Ok None ∧
  explain_instance fitted_leaf [] (Some 1) = Raise TypeError ∧
  ∀ X predictions k,
    X !! k = Some [] → predictions !! k = Some 1 →
    ∃ e, explain_dataset fitted_leaf X (Some predictions) = Raise e.
Proof.
  split; [by vm_compute|]. split; [by vm_compute|].
  apply (empty_clause_breaks_explanation fitted_leaf [] 1 [0] 0).
  - by vm_compute.
  - by left.
  - by vm_compute.
Defined.

Lemma rendered_condition_first_word_witness :
  _literal_to_text fitted 1 = Ok "A <= 5" ∧
  ∃ feat_idx thresh direction feat,
    id_condition_map fitted !! 1 = Some (feat_idx, thresh, direction) ∧
    feature_names fitted !! feat_idx = Some feat ∧
    has_word "A <= 5" ∧
    (∀ w, first_word feat = Ok w → first_word "A <= 5" = Ok w) ∧
    (feat ≠ EmptyString → has_space feat = false →
     first_word "A <= 5" = Ok feat) ∧
    (first_word feat = Raise IndexError →
     first_word "A <= 5" = Ok (if decide (direction = 0) then "<=" else ">")).
Proof.
  split; [by vm_compute|].
  apply (rendered_condition_first_word fitted 1 "A <= 5"). by vm_compute.
Defined.

Lemma batch_records_ordered_and_distinct_witness :
  _batch_compute_axps fitted [[7; 12]; [2; 3]; [8; 11]]%Z 1
    = Ok [AxpRecord 0 ["A > 5"; "B > 10"]; AxpRecord 2 ["A > 5"; "B > 10"]] ∧
  StronglySorted le [0; 2] ∧
  NoDup [(0, ["A > 5"; "B > 10"]); (2, ["A > 5"; "B > 10"])].
Proof.
  split; [by vm_compute|].
  destruct (batch_records_ordered_and_distinct fitted
              [[7; 12]; [2; 3]; [8; 11]]%Z 1
              [AxpRecord 0 ["A > 5"; "B > 10"];
               AxpRecord 2 ["A > 5"; "B > 10"]])
    as (Hsorted & Hnodup & _); [by vm_compute|].
  split; [exact Hsorted | exact Hnodup].
Defined.

Lemma batch_records_are_enumerated_explanations_witness :
  _batch_compute_axps fitted [[7; 12]; [2; 3]]%Z 1
    = Ok [AxpRecord 0 ["A > 5"; "B > 10"]] ∧
  (∀ r, r ∈ [AxpRecord 0 ["A > 5"; "B > 10"]] →
     ∃ x clauses lits,
       [[7; 12]; [2; 3]]%Z !! instance r = Some x ∧
       _satisfied_clauses_for_instance fitted x 1 = Ok clauses ∧
       lits ∈ _enumerate_axps clauses ∧
       rmap (_literal_to_text fitted) lits = Ok (axp r)) ∧
  (∀ k x clauses lits,
     [[7; 12]; [2; 3]]%Z !! k = Some x →
     _satisfied_clauses_for_instance fitted x 1 = Ok clauses →
     clauses ≠ [] → lits ∈ _enumerate_axps clauses →
     ∃ r readable, r ∈ [AxpRecord 0 ["A > 5"; "B > 10"]] ∧ instance r = k ∧
       rmap (_literal_to_text fitted) lits = Ok readable ∧
       axp r ≡ₚ readable).
Proof.
  split; [by vm_compute|].
  apply (batch_records_are_enumerated_explanations fitted
           [[7; 12]; [2; 3]]%Z 1 [AxpRecord 0 ["A > 5"; "B > 10"]]).
  by vm_compute.
Defined.

Lemma batch_records_can_be_aggregated_witness :
  _batch_compute_axps fitted [[7; 12]; [2; 3]]%Z 1
    = Ok [AxpRecord 0 ["A > 5"; "B > 10"]] ∧
  ∃ metrics,
    _compute_feature_metrics [AxpRecord 0 ["A > 5"; "B > 10"]] = Ok metrics.
Proof.
  split; [by vm_compute|].
  apply (batch_records_can_be_aggregated fitted [[7; 12]; [2; 3]]%Z 1).
  by vm_compute.
Defined.

Lemma explanation_conditions_hold_witness :
  rules_ok fitted ∧
  explain_literals fitted [7; 12]%Z 1 = Ok (Some [4; 2]) ∧
  literal_holds fitted [7; 12]%Z 4 ∧
  ∃ idx clause,
    rule_clauses fitted !! idx = Some clause ∧
    rule_predictions fitted !! idx = Some 1 ∧
    4 ∈ clause ∧
    ∀ l, l ∈ clause → literal_holds fitted [7; 12]%Z l.
Proof.
  assert (rules_ok fitted) as Hok by apply fit_rules_ok.
  split; [done|]. split; [by vm_compute|].
  apply (explanation_conditions_hold fitted [7; 12]%Z 1 [4; 2] Hok).
  - by vm_compute.
  - by left.
Defined.

(** Instance [[7; 12]] takes the right branch of both trees: one rule
    per tree, both of class 1. *)
Lemma one_matched_rule_per_tree_witness :
  (∀ a b : Z, num_gt a b = negb (num_le a b)) ∧
  instance_covers fitted [7; 12]%Z ∧
  (∃ matched0 matched1,
     _satisfied_rules fitted [7; 12]%Z 0 = Ok matched0 ∧
     _satisfied_rules fitted [7; 12]%Z 1 = Ok matched1 ∧
     length matched0 + length matched1 = 2) ∧
  ∀ tree, tree ∈ [tree_A; tree_B] →
    length (filter (λ leaf, path_holds [7; 12]%Z leaf.1.2 = true)
                   (leaves tree [] [])) = 1.
Proof.
  assert (∀ a b : Z, num_gt a b = negb (num_le a b)) as Hcompl.
  { intros a b. simpl. rewrite Z.gtb_ltb. apply Z.ltb_antisym. }
  split; [done|]. split; [apply instance_covers_fitted|].
  exact (one_matched_rule_per_tree __init__ two_trees [(0, "A"); (1, "B")]
           [tree_A; tree_B] [7; 12]%Z eq_refl eq_refl eq_refl Hcompl
           instance_covers_fitted).
Defined.

Lemma rendering_uses_feature_table_witness :
  float_features two_trees = Some [(0, "A"); (1, "B")] ∧
  id_condition_map fitted !! 4 = Some (1, 10%Z, 1) ∧
  _literal_to_text fitted 4 = Ok "B > 10".
Proof.
  split; [done|]. split; [by vm_compute|].
  exact (rendering_uses_feature_table __init__ two_trees [(0, "A"); (1, "B")]
           4 1 10%Z 1 eq_refl eq_refl).
Defined.


(** ** The counters at work *)

(** Feature ["B"] occurs in both explanations of instance 0 and in the
    explanation of instance 1: three explanations, two instances. *)
Lemma support_counts_instances_witness :
  ∃ metrics r,
    _compute_feature_metrics sample_axps = Ok metrics ∧
    metrics !! "B" = Some r ∧
    support r = 2 ∧
    support r = size (instances_with "B" sample_axps) ∧
    support r = coverage r.
Proof.
  eexists _, _. split; [vm_compute; reflexivity|].
  split; [vm_compute; reflexivity|]. split; [by vm_compute|].
  eapply (support_counts_instances sample_axps _ "B"); vm_compute; reflexivity.
Defined.

(** Feature ["A"] occurs in one of the two explanations of instance 0
    and not at all for instance 1. *)
Lemma essentiality_ratio_counts_instances_witness :
  ∃ metrics r,
    _compute_feature_metrics sample_axps = Ok metrics ∧
    metrics !! "A" = Some r ∧
    essentiality_ratio r =
      (Qc_of_nat (size (essential_instances "A" sample_axps))
       / Qc_of_nat (size (explained_instances sample_axps)))%Qc ∧
    size (essential_instances "A" sample_axps) = 0 ∧
    size (explained_instances sample_axps) = 2.
Proof.
  eexists _, _. split; [vm_compute; reflexivity|].
  split; [vm_compute; reflexivity|]. split; [|by vm_compute].
  eapply (essentiality_ratio_counts_instances sample_axps _ "A");
    vm_compute; reflexivity.
Defined.

Lemma contrastive_counts_instances_witness :
  ∃ metrics r,
    _compute_feature_metrics sample_axps = Ok metrics ∧
    metrics !! "A" = Some r ∧
    contrastive_instances r = 1 ∧
    contrastive_instances r =
      size (instances_with "A" sample_axps
            ∖ essential_instances "A" sample_axps) ∧
    contrastive_instances r + size (essential_instances "A" sample_axps)
      = coverage r.
Proof.
  eexists _, _. split; [vm_compute; reflexivity|].
  split; [vm_compute; reflexivity|]. split; [by vm_compute|].
  eapply (contrastive_counts_instances sample_axps _ "A");
    vm_compute; reflexivity.
Defined.

Lemma metrics_within_bounds_witness :
  ∃ metrics r,
    _compute_feature_metrics sample_axps = Ok metrics ∧
    metrics !! "B" = Some r ∧
    1 ≤ support r ∧
    coverage r ≤ size (explained_instances sample_axps) ∧
    contrastive_instances r ≤ coverage r ∧
    (0 ≤ essentiality_ratio r)%Qc ∧ (essentiality_ratio r ≤ 1)%Qc ∧
    (0 < relative_importance r)%Qc ∧ (relative_importance r ≤ 1)%Qc.
Proof.
  eexists _, _. split; [vm_compute; reflexivity|].
  split; [vm_compute; reflexivity|].
  eapply (metrics_within_bounds sample_axps _ "B"); vm_compute; reflexivity.
Defined.

(** Two conditions on ["A"] in one record of the legacy batch: one
    instance, support 2. *)
Lemma legacy_support_counts_conditions_witness :
  ∃ metrics,
    CatBoostAXPExplainer._compute_feature_metrics
      [CatBoostAXPExplainer.AxpEntry 0 ["A > 5"; "A <= 9"; "B > 10"] [2; 5; 4]]
      = Ok metrics ∧
    (is_Some (metrics !! "A") ↔
     occurrences "A"
       [CatBoostAXPExplainer.AxpEntry 0 ["A > 5"; "A <= 9"; "B > 10"]
          [2; 5; 4]] ≠ []) ∧
    ∀ r, metrics !! "A" = Some r →
      CatBoostAXPExplainer.row_conditions r = ["A > 5"; "A <= 9"] ∧
      CatBoostAXPExplainer.support r = 2.
Proof.
  eexists. split; [vm_compute; reflexivity|].
  apply (legacy_support_counts_conditions
           [CatBoostAXPExplainer.AxpEntry 0 ["A > 5"; "A <= 9"; "B > 10"]
              [2; 5; 4]] _ "A").
  vm_compute; reflexivity.
Defined.

(** ** The tree-rules file at work *)


Lemma tree_rules_agree_with_model_json_witness :
  load_tree_rules __init__ (Some "tree_rules.json")
    (ReadOk (JsonDict rules_file_two_trees))
    = (fitted, None) ∧
  (fit_from_model_json __init__ two_trees).2 = None.
Proof.
  apply (tree_rules_agree_with_model_json __init__ "tree_rules.json"
           [(0, "A"); (1, "B")] rule_trees_two_trees [tree_A; tree_B] false).
  - done.
  - repeat constructor.
Defined.

(** A file that holds a list of numbers, and one that holds the entry of
    a feature without its name: the first loses the rules of the earlier
    parse, the second leaves them. *)
Example load_tree_rules_on_other_files :
  load_tree_rules fitted (Some "tree_rules.json") (ReadOk (JsonList [None]))
    = (clear_rules fitted, Some LoadAttributeError) ∧
  load_tree_rules fitted (Some "tree_rules.json")
    (ReadOk (JsonDict (TreeRulesJson (Some [(Some 0, None)]) None false)))
    = (fitted, Some LoadKeyError).
Proof. by vm_compute. Qed.

(** Both rows are predicted as class 1 and the second matches no rule:
    the coverage of class 1 is 1 all the same, and that of class 0 is a
    division by zero. *)
Lemma class_coverage_is_one_or_undefined_witness :
  _satisfied_rules fitted [2; 3]%Z 1 = Ok [] ∧
  class_coverage fitted [[7; 12]; [2; 3]]%Z [1; 1] 1 = inr 1%Qc ∧
  class_coverage fitted [[7; 12]; [2; 3]]%Z [1; 1] 0 = inl ZeroDivisionError.
Proof.
  split; [by vm_compute|].
  destruct (class_coverage_is_one_or_undefined fitted
              [[7; 12]; [2; 3]]%Z [1; 1] 1) as [Hone _].
  destruct (class_coverage_is_one_or_undefined fitted
              [[7; 12]; [2; 3]]%Z [1; 1] 0) as [_ Hzero].
  split.
  - destruct (class_coverage fitted [[7; 12]; [2; 3]]%Z [1; 1] 1)
      as [e|q] eqn:Hq; [by vm_compute in Hq|].
    by rewrite (Hone q eq_refl).
  - rewrite Hzero by set_solver. done.
Defined.


(** ** Data sets at work *)

(** Three rows and two predictions: the third row is left out. *)
Lemma explain_dataset_rows_witness :
  ∃ rows,
    explain_dataset fitted [[7; 12]; [2; 3]; [8; 11]]%Z (Some [1; 1])
      = Ok rows ∧
    length rows = 2 ∧
    ∀ k row, rows !! k = Some row →
      index row = k ∧
      [1; 1] !! k = Some (predicted_class row) ∧
      ∃ x, [[7; 12]; [2; 3]; [8; 11]]%Z !! k = Some x ∧
           explain_instance fitted x (Some (predicted_class row))
             = Ok (row_axp row).
Proof.
  eexists. split; [vm_compute; reflexivity|].
  apply (proj1 (explain_dataset_rows fitted
                  [[7; 12]; [2; 3]; [8; 11]]%Z [1; 1])).
  vm_compute; reflexivity.
Defined.

(** A data frame with a column more than the explainer needs, and one
    row of each class. *)
Lemma validated_input_splits_in_two_witness :
  validate_input_data fitted [[7; 12]; [2; 3]]%Z (Some ["A"; "B"; "C"]) [1; 0]
    = None ∧
  validate_input_data fitted [[7; 12]; [2; 3]]%Z (Some ["A"]) [1; 0]
    = Some (missing_features_in_input {["B"]}) ∧
  validate_input_data fitted [[7; 12]; [2; 3]]%Z None [1; 2]
    = Some predictions_not_binary ∧
  ∃ X0 X1,
    select_class [[7; 12]; [2; 3]]%Z [1; 0] 0 = Ok X0 ∧
    select_class [[7; 12]; [2; 3]]%Z [1; 0] 1 = Ok X1 ∧
    length X0 + length X1 = 2.
Proof.
  assert (validate_input_data fitted [[7; 12]; [2; 3]]%Z
            (Some ["A"; "B"; "C"]) [1; 0] = None) as Hvalid by by vm_compute.
  split; [done|]. split; [by vm_compute|]. split; [by vm_compute|].
  exact (proj2 (validated_input_splits_in_two fitted [[7; 12]; [2; 3]]%Z
                  (Some ["A"; "B"; "C"]) [1; 0]) Hvalid).
Defined.

(** One row and no prediction: the empty mask selects no row, the
    attribution returns two empty tables and the coverage is a division
    by zero.  One row and two predictions: the selection raises. *)
Example empty_predictions_select_no_row :
  (∃ results,
     compute_feature_attribution fitted [[7; 12]]%Z [] None = Ok results ∧
     results !! 0 = Some ∅ ∧ results !! 1 = Some ∅) ∧
  class_coverage fitted [[7; 12]]%Z [] 1 = inl ZeroDivisionError ∧
  compute_feature_attribution fitted [[7; 12]]%Z [1; 1] None
    = Raise IndexError ∧
  class_coverage fitted [[7; 12]]%Z [1; 1] 0
    = inl (ExplainerRaised IndexError).
Proof.
  split; [eexists; split; [vm_compute; reflexivity|]; by vm_compute|].
  by vm_compute.
Qed.

Lemma attribution_has_one_table_per_label_witness :
  ∃ results,
    compute_feature_attribution fitted [[7; 12]; [2; 3]]%Z [1; 0] None
      = Ok results ∧
    (∀ label, is_Some (results !! label) ↔ label ∈ [0; 1]) ∧
    (∀ label metrics,
       results !! label = Some metrics ↔
       label ∈ [0; 1] ∧
       class_metrics fitted [[7; 12]; [2; 3]]%Z [1; 0] label = Ok metrics).
Proof.
  eexists. split; [vm_compute; reflexivity|].
  apply (proj1 (attribution_has_one_table_per_label fitted
                  [[7; 12]; [2; 3]]%Z [1; 0] None)).
  vm_compute; reflexivity.
Defined.

